(** * Baileys: sender-key records, sender-key cleanup and the message relay

    A shallow embedding of the three TypeScript modules gathered in
    [src/Signal/Group/sender-key-record.ts]:
    - the class [SenderKeyRecord],
    - the message socket [makeMessagesSocket],
    - the sender-key cleanup utilities ([cleanupSenderKeys]),
    followed by the properties proved about them.

    Conventions.  A JS [number] that the code uses as an integer is a [Z];
    the configured block size, which can be any number, is a [number]
    (a rational or one of the special values); a [Uint8Array] is a
    [list Byte.byte]; [undefined] is [None]; a JS object used as a
    dictionary is a [gmap] over [string]; a JS [Set] of strings is a
    [gset string]; JS arrays are lists.  Asynchronous code is modelled by
    explicit state passing together with the list of effects it performs,
    in program order.  Under a [Promise.all] every branch is started, and
    a rejected branch does not stop the others: the calls that a branch
    makes before its first [await] come in the order of the starts, and
    the result is the state in which every branch has settled ([callAll],
    [both], [startAll]).  The one exception is the blocks of a split
    group send, see [relayToGroup]. *)

From Stdlib Require Import ZArith Lia Bool QArith Qround Lqa.
From stdpp Require Import base option list gmap strings fin_maps pretty sorting.

Local Open Scope string_scope.
Local Open Scope list_scope.
Local Open Scope Z_scope.

Set Warnings "-register-all,-clear-no-such-hyp".

Definition bytes := list Byte.byte.

(* ===================================================================== *)
(** * JavaScript values *)
(* ===================================================================== *)

Module JS.

(** A JavaScript value as the sources handle it: what [JSON.parse]
    returns, a protobuf message object, or a byte array.  Numbers are
    only tested with [typeof] or for truthiness, so an integer payload is
    enough. *)
Inductive json :=
| JNull
| JBool (b : bool)
| JNum (n : Z)
| JStr (s : string)
| JBytes (b : bytes)
| JArr (items : list json)
| JObj (fields : gmap string json).

(** The result of a property access is a value or [undefined] ([None]). *)
Definition jsval := option json.

(** JS truthiness of a value. *)
Definition truthy (v : jsval) : bool :=
  match v with
  | None | Some JNull => false
  | Some (JBool b) => b
  | Some (JNum n) => negb (n =? 0)
  | Some (JStr s) => negb (String.eqb s "")
  | Some (JBytes _) | Some (JArr _) | Some (JObj _) => true
  end.

(** [v.name] for a name that is not a built-in property: only objects
    have it. *)
Definition prop (name : string) (v : jsval) : jsval :=
  match v with
  | Some (JObj fields) => fields !! name
  | _ => None
  end.

(** [typeof v === 'number'] *)
Definition isNumber (v : jsval) : bool :=
  match v with
  | Some (JNum _) => true
  | _ => false
  end.

(** Truthiness of a string or [undefined]: [if (s)]. *)
Definition truthyStr (s : option string) : bool :=
  match s with
  | Some s => negb (String.eqb s "")
  | None => false
  end.

(** A JS [number] whose sign and fraction matter: a rational (exact for
    the whole numbers and the binary fractions of a double), an infinity,
    or [NaN]. *)
Inductive number :=
| Finite (q : Q)
| PlusInfinity
| MinusInfinity
| NaN.

(** Truthiness of a number: [0] and [NaN] are falsy. *)
Definition truthyNum (x : number) : bool :=
  match x with
  | Finite q => negb (Qeq_bool q 0)
  | PlusInfinity | MinusInfinity => true
  | NaN => false
  end.

(** [n > x] for an array length [n]. *)
Definition exceeds (n : nat) (x : number) : bool :=
  match x with
  | Finite q => negb (Qle_bool (inject_Z (Z.of_nat n)) q)
  | PlusInfinity => false
  | MinusInfinity => true
  | NaN => false
  end.

End JS.

(* ===================================================================== *)
(** * The sender-key record ([class SenderKeyRecord]) *)
(* ===================================================================== *)

Module SKRecord.
Import JS.

(** [{ iteration: number; seed: Uint8Array }] *)
Record ChainKeyStructure := mkChainKey {
  iteration : Z;
  seed : bytes
}.

(** [{ public: Uint8Array; private?: Uint8Array }] *)
Record SigningKeyStructure := mkSigningKey {
  public : bytes;
  private : option bytes
}.

(** [interface SenderKeyStateStructure] *)
Record SenderKeyStateStructure := mkStructure {
  senderKeyId : Z;
  senderChainKey : ChainKeyStructure;
  senderSigningKey : SigningKeyStructure;
  senderMessageKeys : list ChainKeyStructure
}.

(** Modelled from the spec: the class [SenderKeyState] of
    [./sender-key-state], which is imported but not part of the sources.
    A state is a wrapper around one [SenderKeyStateStructure]; the spec
    gives it the attributes [keyId], [chainKey {iteration, seed}],
    [signingKey {public, private?}] and [messageKeys]. *)
Record SenderKeyState := mkState {
  getStructure : SenderKeyStateStructure
}.

(** Modelled from the spec: [new SenderKeyState(null, ..., structure)]
    wraps the given structure. *)
Definition SenderKeyState_ofStructure (structure : SenderKeyStateStructure)
  : SenderKeyState := mkState structure.

(** Modelled from the spec: [new SenderKeyState(id, iteration, chainKey,
    keyPair, signatureKeyPublic)] builds a state with the given key id and
    chain key, the public key of the pair when a pair is given and the
    bare public key otherwise, and no message keys. *)
Definition SenderKeyState_new (id iteration : Z) (chainKey : bytes)
    (signatureKeyPair : option (bytes * bytes))
    (signatureKeyPublic : option bytes) : SenderKeyState :=
  let signing :=
    match signatureKeyPair with
    | Some (pub, priv) => mkSigningKey pub (Some priv)
    | None => mkSigningKey (default [] signatureKeyPublic) None
    end in
  mkState (mkStructure id (mkChainKey iteration chainKey) signing []).

(** Modelled from the spec: the accessors of [SenderKeyState]. *)
Definition getKeyId (s : SenderKeyState) : Z :=
  senderKeyId (getStructure s).
Definition getSenderChainKey (s : SenderKeyState) : option ChainKeyStructure :=
  Some (senderChainKey (getStructure s)).
Definition getSigningKeyPublic (s : SenderKeyState) : option bytes :=
  Some (public (senderSigningKey (getStructure s))).

(** [class SenderKeyRecord]: the only mutable field is the array
    [senderKeyStates], oldest first. *)
Record SenderKeyRecord := mkRecord {
  senderKeyStates : list SenderKeyState
}.

Definition MAX_STATES : nat := 5.

(** [constructor(serialized?)] *)
Definition SenderKeyRecord_new (serialized : option (list SenderKeyStateStructure))
  : SenderKeyRecord :=
  match serialized with
  | Some structures => mkRecord (map SenderKeyState_ofStructure structures)
  | None => mkRecord []
  end.

Definition isEmpty (r : SenderKeyRecord) : bool :=
  Nat.eqb (length (senderKeyStates r)) 0.

(** [isValidSenderKeyState]; the [typeof ... !== 'number'] tests cannot
    fail on a [Z] and the [try]/[catch] has nothing to catch here. *)
Definition isValidSenderKeyState (state : SenderKeyState) : bool :=
  let keyId := getKeyId state in
  if keyId <=? 0 then false else
  match getSenderChainKey state with
  | None => false
  | Some chainKey =>
      if iteration chainKey <? 0 then false else
      match getSigningKeyPublic state with
      | None => false
      | Some publicKey =>
          if Nat.eqb (length publicKey) 0 then false else true
      end
  end.

(** The loop [for (let i = length - 1; i >= 0; i--)] of
    [getSenderKeyState]: [scanBackward states n] examines the indices
    [n-1], [n-2], ..., [0] in that order. *)
Fixpoint scanBackward (states : list SenderKeyState) (n : nat)
  : option SenderKeyState :=
  match n with
  | O => None
  | S i =>
      match states !! i with
      | Some state =>
          if isValidSenderKeyState state then Some state
          else scanBackward states i
      | None => scanBackward states i
      end
  end.

(** [getSenderKeyState(keyId?)]: the result and the record afterwards
    (the method empties the array when no valid state is found). *)
Definition getSenderKeyState (keyId : option Z) (r : SenderKeyRecord)
  : option SenderKeyState * SenderKeyRecord :=
  let states := senderKeyStates r in
  let byId :=
    let found :=
      List.find (fun state =>
              match keyId with
              | Some k => getKeyId state =? k
              | None => false
              end) states in
    match found with
    | Some state =>
        if isValidSenderKeyState state then (Some state, r) else (None, r)
    | None => (None, r)
    end in
  match keyId with
  | None =>
      if negb (Nat.eqb (length states) 0) then
        let valid_recent :=
          match states !! (length states - 1)%nat with
          | Some recentState =>
              if isValidSenderKeyState recentState then Some recentState
              else None
          | None => None
          end in
        match valid_recent with
        | Some recentState => (Some recentState, r)
        | None =>
            match scanBackward states (length states) with
            | Some state => (Some state, r)
            | None => (None, mkRecord [])
            end
        end
      else byId
  | Some _ => byId
  end.

(** [addSenderKeyState]: [push], then [shift] when over [MAX_STATES]. *)
Definition addSenderKeyState (id iteration : Z) (chainKey signatureKey : bytes)
    (r : SenderKeyRecord) : SenderKeyRecord :=
  let pushed :=
    senderKeyStates r
      ++ [SenderKeyState_new id iteration chainKey None (Some signatureKey)] in
  if (MAX_STATES <? length pushed)%nat
  then mkRecord (tail pushed)
  else mkRecord pushed.

(** [setSenderKeyState]: empty the array, then [push] one full state. *)
Definition setSenderKeyState (id iteration : Z) (chainKey : bytes)
    (keyPair : bytes * bytes) (r : SenderKeyRecord) : SenderKeyRecord :=
  mkRecord [SenderKeyState_new id iteration chainKey (Some keyPair) None].

(** A sequence of [addSenderKeyState] calls, given by their arguments
    [(id, iteration, chainKey, signatureKey)]. *)
Definition addSenderKeyStates (calls : list (Z * Z * bytes * bytes))
    (r : SenderKeyRecord) : SenderKeyRecord :=
  fold_left
    (fun r '(id, iteration, chainKey, signatureKey) =>
       addSenderKeyState id iteration chainKey signatureKey r)
    calls r.

(** Five calls with key ids 1 to 5, and a sixth one. *)
Definition fiveCalls : list (Z * Z * bytes * bytes) :=
  [ (1, 0, [Byte.x01], [Byte.x11]); (2, 0, [Byte.x02], [Byte.x12]);
    (3, 0, [Byte.x03], [Byte.x13]); (4, 0, [Byte.x04], [Byte.x14]);
    (5, 0, [Byte.x05], [Byte.x15]) ].

Definition sixCalls : list (Z * Z * bytes * bytes) :=
  fiveCalls ++ [(6, 0, [Byte.x06], [Byte.x16])].

Definition serialize (r : SenderKeyRecord) : list SenderKeyStateStructure :=
  map getStructure (senderKeyStates r).

(** The argument of [deserialize]:
    [Uint8Array | string | SenderKeyStateStructure[]]. *)
Inductive SerializedData :=
| DataString (s : string)
| DataBytes (b : bytes)
| DataParsed (structures : list SenderKeyStateStructure).

(** A parsed value read as [{ iteration, seed }]: an object with a
    number and a byte array under these names and with no other field
    (the reviver has turned the encoded buffers into byte arrays). *)
Definition chainKeyOfValue (v : json) : option ChainKeyStructure :=
  match v with
  | JObj fields =>
      match fields !! "iteration", fields !! "seed" with
      | Some (JNum iteration), Some (JBytes seed) =>
          if Nat.eqb (size fields) 2 then Some (mkChainKey iteration seed) else None
      | _, _ => None
      end
  | _ => None
  end.

(** A parsed value read as [{ public, private? }]. *)
Definition signingKeyOfValue (v : json) : option SigningKeyStructure :=
  match v with
  | JObj fields =>
      match fields !! "public", fields !! "private" with
      | Some (JBytes pub), None =>
          if Nat.eqb (size fields) 1 then Some (mkSigningKey pub None) else None
      | Some (JBytes pub), Some (JBytes priv) =>
          if Nat.eqb (size fields) 2 then Some (mkSigningKey pub (Some priv)) else None
      | _, _ => None
      end
  | _ => None
  end.

(** A parsed value read as a [SenderKeyStateStructure]; [None] when it
    is not one. *)
Definition structureOfValue (v : json) : option SenderKeyStateStructure :=
  match v with
  | JObj fields =>
      match fields !! "senderKeyId", fields !! "senderChainKey",
            fields !! "senderSigningKey", fields !! "senderMessageKeys" with
      | Some (JNum keyId), Some chainKey, Some signingKey, Some (JArr messageKeys) =>
          if Nat.eqb (size fields) 4 then
            chain ← chainKeyOfValue chainKey;
            signing ← signingKeyOfValue signingKey;
            keys ← mapM chainKeyOfValue messageKeys;
            Some (mkStructure keyId chain signing keys)
          else None
      | _, _, _, _ => None
      end
  | _ => None
  end.




(** What a call of [deserialize] does: it returns a record of states
    that wrap structures, it throws, or it returns a record with a state
    that wraps a value which is no structure (such a record is outside
    this model). *)
Inductive Deserialized :=
| Returns (r : SenderKeyRecord)
| Throws
| ReturnsUntyped.

(** [new SenderKeyRecord(parsed)] for a value that [JSON.parse] has
    returned: [if (serialized)] skips a falsy value; [for (... of
    serialized)] throws on a value that is not iterable (a number, [true],
    an object), and runs through the items of an array, the characters of
    a string and the bytes of a byte array. *)
Definition SenderKeyRecord_ofValue (parsed : json) : Deserialized :=
  if negb (truthy (Some parsed)) then Returns (SenderKeyRecord_new None)
  else
    match parsed with
    | JArr items =>
        match mapM structureOfValue items with
        | Some structures => Returns (SenderKeyRecord_new (Some structures))
        | None => ReturnsUntyped
        end
    | JStr _ => ReturnsUntyped
    | JBytes [] => Returns (SenderKeyRecord_new (Some []))
    | JBytes (_ :: _) => ReturnsUntyped
    | JNull | JBool _ | JNum _ | JObj _ => Throws
    end.

(** [static deserialize(data)].  [JSON.parse(_, BufferJSON.reviver)] and
    the UTF-8 decoding of a buffer are library code: they are the
    parameters [parse] ([None] when [JSON.parse] throws, otherwise the
    value it returns, which can be any value) and [utf8]. *)
Definition deserialize
    (parse : string -> option json)
    (utf8 : bytes -> string)
    (data : SerializedData) : Deserialized :=
  match data with
  | DataString s =>
      match parse s with
      | Some parsed => SenderKeyRecord_ofValue parsed
      | None => Throws
      end
  | DataBytes b =>
      match parse (utf8 b) with
      | Some parsed => SenderKeyRecord_ofValue parsed
      | None => Throws
      end
  | DataParsed parsed => Returns (SenderKeyRecord_new (Some parsed))
  end.

End SKRecord.

(* ===================================================================== *)
(** * The sender-key cleanup ([cleanupSenderKeys]) *)
(* ===================================================================== *)

Module Cleanup.
Import JS.

(** What the key store holds under [sender-key] is any value: a string,
    a byte blob, or something else.  [keyDataTruthy] is [if (keyData)]. *)
Definition keyDataTruthy (keyData : json) : bool := truthy (Some keyData).

(** The library functions the pass calls: [JSON.parse] (which fails when
    it throws), [JSON.stringify], and the UTF-8 conversions of [Buffer]. *)
Record JsonLib := mkJsonLib {
  JSON_parse : string -> option json;
  JSON_stringify : json -> string;
  utf8_decode : bytes -> string;
  utf8_encode : string -> bytes
}.

(** [Array.prototype.slice(start)] *)
Definition slice {A} (start : Z) (l : list A) : list A :=
  let len := Z.of_nat (length l) in
  let from := if start <? 0 then Z.max (len + start) 0 else Z.min start len in
  drop (Z.to_nat from) l.

(** The predicate of [parsed.filter(...)] in [cleanupCorruptedSenderKeys]. *)
Definition stateLooksValid (state : json) : bool :=
  let st := Some state in
  truthy st
  && isNumber (prop "senderKeyId" st)
  && truthy (prop "senderChainKey" st)
  && isNumber (prop "iteration" (prop "senderChainKey" st))
  && truthy (prop "seed" (prop "senderChainKey" st))
  && truthy (prop "senderSigningKey" st)
  && truthy (prop "public" (prop "senderSigningKey" st)).

(** [keysToUpdate] and [hasChanges]; a [None] value is [null], which the
    key store reads as a deletion. *)
Definition Updates : Type := gmap string (option bytes) * bool.

Definition markDelete (keyId : string) (u : Updates) : Updates :=
  (<[keyId := None]> (fst u), true).

Definition markRewrite (lib : JsonLib) (keyId : string) (states : list json)
    (u : Updates) : Updates :=
  (<[keyId := Some (utf8_encode lib (JSON_stringify lib (JArr states)))]> (fst u),
   true).

(** The parsing prologue of the loop body; [None] when [JSON.parse]
    throws. *)
Definition parseKeyData (lib : JsonLib) (keyData : json) : option json :=
  match keyData with
  | JStr s => JSON_parse lib s                       (* typeof keyData === 'string' *)
  | JBytes b => JSON_parse lib (utf8_decode lib b)   (* keyData instanceof Uint8Array *)
  | _ => Some keyData
  end.

(** One iteration of [for (const [keyId, keyData] of Object.entries(...))]. *)
Definition cleanupEntry (lib : JsonLib) (maxStatesPerGroup : Z)
    (u : Updates) (entry : string * json) : Updates :=
  let '(keyId, keyData) := entry in
  if keyDataTruthy keyData then
    match parseKeyData lib keyData with
    | None => markDelete keyId u                       (* catch *)
    | Some (JArr parsed) =>
        if Nat.eqb (length parsed) 0 then markDelete keyId u
        else
          let u1 :=
            if maxStatesPerGroup <? Z.of_nat (length parsed)
            then markRewrite lib keyId (slice (- maxStatesPerGroup) parsed) u
            else u in
          let validStates := List.filter stateLooksValid parsed in
          if negb (Nat.eqb (length validStates) (length parsed)) then
            if Nat.eqb (length validStates) 0
            then markDelete keyId u1
            else markRewrite lib keyId validStates u1
          else u1
    | Some _ => markDelete keyId u                     (* not an array *)
    end
  else u.

(** [cleanupCorruptedSenderKeys]: the argument of the one
    [keys.set({'sender-key': keysToUpdate})] it performs, or [None] when
    it performs none.  [allSenderKeys] is
    [Object.entries(await keys.get('sender-key', []))]. *)
Definition cleanupCorruptedSenderKeys (lib : JsonLib)
    (allSenderKeys : list (string * json)) (maxStatesPerGroup : Z)
  : option (gmap string (option bytes)) :=
  let '(keysToUpdate, hasChanges) :=
    fold_left (cleanupEntry lib maxStatesPerGroup) allSenderKeys (∅, false) in
  if hasChanges then Some keysToUpdate else None.

(** What one entry alone contributes to [keysToUpdate], if anything. *)
Definition entryVerdict (lib : JsonLib) (maxStatesPerGroup : Z)
    (keyId : string) (keyData : json) : option (option bytes) :=
  fst (cleanupEntry lib maxStatesPerGroup (∅, false) (keyId, keyData)) !! keyId.

(** [maxStatesPerGroup = 5] in the destructuring of the options. *)
Definition default_maxStatesPerGroup : Z := 5.

(** Modelled from the spec: the serialized form of one state (section 6),
    a byte string being written as [{type: "Buffer", data: [...]}]. *)
Definition bytesToJSON (b : bytes) : json :=
  JObj (<["type" := JStr "Buffer"]>
        (<["data" := JArr (map (fun x => JNum (Z.of_N (Byte.to_N x))) b)]> ∅)).

Definition chainKeyToJSON (c : SKRecord.ChainKeyStructure) : json :=
  JObj (<["iteration" := JNum (SKRecord.iteration c)]>
        (<["seed" := bytesToJSON (SKRecord.seed c)]> ∅)).

Definition structureToJSON (s : SKRecord.SenderKeyStateStructure) : json :=
  let signing := SKRecord.senderSigningKey s in
  let signingFields :=
    match SKRecord.private signing with
    | Some priv => <["private" := bytesToJSON priv]> ∅
    | None => ∅
    end in
  JObj (<["senderKeyId" := JNum (SKRecord.senderKeyId s)]>
        (<["senderChainKey" := chainKeyToJSON (SKRecord.senderChainKey s)]>
         (<["senderSigningKey" :=
              JObj (<["public" := bytesToJSON (SKRecord.public signing)]> signingFields)]>
          (<["senderMessageKeys" :=
               JArr (map chainKeyToJSON (SKRecord.senderMessageKeys s))]> ∅)))).

End Cleanup.

(* ===================================================================== *)
(** * The message socket ([makeMessagesSocket]) *)
(* ===================================================================== *)

Module MessagesSend.
Import JS.

(** ** Data *)

(** Attribute values are strings; [participant!] can store [undefined]
    under a key, which is [Some None] on lookup. *)
Definition Attrs : Type := gmap string (option string).

(** [BinaryNode]: [{ tag, attrs, content?: Uint8Array | BinaryNode[] }] *)
Inductive BinaryNode :=
| Node (tag : string) (attrs : gmap string (option string)) (content : NodeContent)
with NodeContent :=
| NoContent
| Data (b : bytes)
| Children (nodes : list BinaryNode).

Definition tag (n : BinaryNode) : string := let 'Node t _ _ := n in t.
Definition attrs (n : BinaryNode) : Attrs := let 'Node _ a _ := n in a.
Definition content (n : BinaryNode) : NodeContent := let 'Node _ _ c := n in c.

(** [JidWithDevice]: [{ user: string; device?: number }] *)
Record JidWithDevice := mkDevice {
  user : string;
  device : option Z
}.

(** The fields of a decoded JID that the file reads. *)
Record FullJid := mkFullJid {
  jid_user : string;
  jid_server : string;
  jid_device : option Z
}.

(** Of a group's metadata only the participant ids are read:
    [participants] is [None] when the field is not an array. *)
Record GroupMetadata := mkGroupMetadata {
  participants : option (list string)
}.

(** [MediaConnInfo] *)
Record MediaConnInfo := mkMediaConnInfo {
  hosts : list (option string * Z);
  auth : option string;
  ttl : Z;
  fetchDate : Z
}.

(** A protobuf message object, [proto.IMessage]. *)
Definition IMessage : Type := gmap string json.

(** [MessageRelayOptions]; [participant] carries the [jid] of the
    override. *)
Record MessageRelayOptions := mkRelayOptions {
  messageId : option string;
  participant : option string;
  additionalAttributes : option Attrs;
  additionalNodes : option (list BinaryNode);
  useUserDevicesCache : option bool;
  useCachedGroupMetadata : option bool;
  statusJidList : option (list string)
}.

(** ** Effects and state *)

(** What an execution does to the outside world, in program order. *)
Inductive Effect :=
| EQuery (node : BinaryNode)                    (* [query(node)] *)
| ESendNode (stanza : BinaryNode)               (* [sendNode(stanza)] *)
| ETransactionBegin                             (* [authState.keys.transaction] entered *)
| ETransactionEnd                               (* ... and its body completed *)
| EKeysGet (category : string) (ids : list string)
| EKeysSetSenderKeyMemory (jid : string) (memory : gmap string bool)
| EInjectSessions (addrs : list string)         (* [parseAndInjectE2ESessions] *)
| EUSyncQuery (jids : list string)              (* [sock.executeUSyncQuery] *)
| EGroupMetadata (cached : bool) (jid : string) (* [cachedGroupMetadata] / [groupMetadata] *)
| EPatchMessage (message : gmap string json) (jids : list string)
                                                (* [patchMessageBeforeSending] *)
| EEncrypt (jid : string) (data : bytes)        (* [signalRepository.encryptMessage] *)
| EEncryptGroup (group : string) (data : bytes). (* [signalRepository.encryptGroupMessage] *)

(** The closure state of [makeMessagesSocket], the key store, and the
    effects performed so far.  A promise is named by a number. *)
Record State := mkState {
  (* closure variables *)
  userDevicesCache : gmap string (list JidWithDevice);
  mediaTypeCache : gmap (list string) string;
  verifiedSessionsCache : gset string;
  pendingMediaQueries : option nat;      (* the entry ['mediaConn'] of the map *)
  mediaConn : option nat;
  lastMediaConnRefresh : Z;
  (* promises created for media connections: how many, and how the
     settled ones ended ([None] for a rejection) *)
  promiseCount : nat;
  settledPromises : gmap nat (option MediaConnInfo);
  (* key store *)
  sessions : gset string;                           (* category [session] *)
  senderKeyMemory : gmap string (gmap string bool); (* category [sender-key-memory] *)
  (* history *)
  trace : list Effect
}.

(** The collaborators of the file: helpers of [WABinary] and [Utils],
    the credentials and configuration, and the network, cryptography,
    clock and randomness.  Everything that can depend on the outside
    world reads the current state (which includes the history); an
    answer [None] is a thrown exception. *)
Record Env := mkEnv {
  (* WABinary *)
  S_WHATSAPP_NET : string;
  jidDecode : string -> option FullJid;
  jidEncode : string -> string -> option Z -> string;
  jidNormalizedUser : string -> string;
  isJidGroup : string -> bool;
  isJidUser : string -> bool;
  areJidsSameUser : string -> string -> bool;
  (* Utils *)
  encodeWAMessage : IMessage -> bytes;
  normalizeMessageContent : IMessage -> option IMessage;
  toNumber : option string -> Z;                     (* unary [+] *)
  generateMessageIDV2 : State -> string;
  unixTimestampSeconds : State -> Z;
  dateNow : State -> Z;
  (* credentials and configuration *)
  meId : string;                                     (* [authState.creds.me!.id] *)
  meLid : option string;                             (* [authState.creds.me.lid] *)
  signedDeviceIdentity : bytes;   (* [encodeSignedDeviceIdentity(creds.account!, true)] *)
  config_participantBlockSize : option number;      (* [undefined] when not set *)
  cachedGroupMetadata : option (State -> string -> option (option GroupMetadata));
  patchMessageBeforeSending : State -> IMessage -> list string -> option IMessage;
  (* socket and signal repository *)
  query : State -> BinaryNode -> option BinaryNode;
  sendNode : State -> BinaryNode -> bool;
  groupMetadata : State -> string -> option GroupMetadata;
  executeUSyncQuery :
    State -> list string -> bool -> option (option (list JidWithDevice));
  jidToSignalProtocolAddress : string -> string;
  encryptMessage : State -> string -> bytes -> option (string * bytes);
  encryptGroupMessage : State -> string -> bytes -> string -> option (bytes * bytes);
  parseAndInjectE2ESessions : State -> BinaryNode -> list string * bool
}.

(** ** The monad of the file: state passing with exceptions *)

Inductive Result (A : Type) :=
| Ok (a : A) (st : State)
| Throw (st : State).
Arguments Ok {A} a st.
Arguments Throw {A} st.

Definition M (A : Type) : Type := State -> Result A.

Definition ret {A} (a : A) : M A := fun st => Ok a st.

Definition bind {A B} (m : M A) (f : A -> M B) : M B :=
  fun st =>
    match m st with
    | Ok a st' => f a st'
    | Throw st' => Throw st'
    end.

Definition throw {A} : M A := fun st => Throw st.

Definition getState : M State := fun st => Ok st st.

Definition resultState {A} (r : Result A) : State :=
  match r with
  | Ok _ st => st
  | Throw st => st
  end.

Declare Scope relay_scope.
Delimit Scope relay_scope with relay.
Notation "'let!' x ':=' m 'in' k" := (bind m (fun x => k))
  (at level 10, x name, m at level 100, k at level 200, only parsing)
  : relay_scope.
Notation "'let!' ' pat ':=' m 'in' k" := (bind m (fun x => let 'pat := x in k))
  (at level 10, pat pattern, m at level 100, k at level 200, only parsing)
  : relay_scope.
Notation "'do!' m 'in' k" := (bind m (fun _ => k))
  (at level 10, m at level 100, k at level 200, only parsing)
  : relay_scope.
Local Open Scope relay_scope.

Definition setTrace (t : list Effect) (st : State) : State :=
  mkState (userDevicesCache st) (mediaTypeCache st) (verifiedSessionsCache st)
          (pendingMediaQueries st) (mediaConn st) (lastMediaConnRefresh st)
          (promiseCount st) (settledPromises st)
          (sessions st) (senderKeyMemory st) t.

(** Record one effect. *)
Definition emit (e : Effect) : M unit :=
  fun st => Ok tt (setTrace (trace st ++ [e]) st).

(** Ask a collaborator that may throw. *)
Definition ask {A} (oracle : State -> option A) : M A :=
  fun st =>
    match oracle st with
    | Some a => Ok a st
    | None => Throw st
    end.

(** Ask a collaborator that always answers. *)
Definition consult {A} (oracle : State -> A) : M A :=
  fun st => Ok (oracle st) st.

(** [for (const x of l) { ... }] with an accumulator. *)
Fixpoint forM {A S} (l : list A) (acc : S) (body : S -> A -> M S) : M S :=
  match l with
  | [] => ret acc
  | x :: l' => let! acc' := body acc x in forM l' acc' body
  end.

(** A list of calls made one after the other, each awaited before the
    next is made: the first failure ends the run. *)
Fixpoint mapM {A B} (f : A -> M B) (l : list A) : M (list B) :=
  match l with
  | [] => ret []
  | x :: l' => let! y := f x in let! ys := mapM f l' in ret (y :: ys)
  end.

(** [await Promise.all(l.map(async x => ...))] for a callback that awaits
    one call: [map] makes the call for every element, in list order,
    before any answer is awaited, so a call that fails does not keep the
    later ones from being made; the whole is rejected when one of them
    is. *)
Fixpoint callAll {A B} (f : A -> M B) (l : list A) : M (list B) :=
  match l with
  | [] => ret []
  | x :: l' =>
      fun st =>
        match f x st with
        | Ok y st1 => (let! ys := callAll f l' in ret (y :: ys)) st1
        | Throw st1 => Throw (resultState (callAll f l' st1))
        end
  end.

(** [await Promise.all([p, q])] for two calls that have both been
    started: each runs to its end whatever becomes of the other, and the
    whole is rejected when one of them is. *)
Definition both {A B} (p : M A) (q : M B) : M (A * B) :=
  fun st =>
    match p st with
    | Ok a st1 =>
        match q st1 with
        | Ok b st2 => Ok (a, b) st2
        | Throw st2 => Throw st2
        end
    | Throw st1 => Throw (resultState (q st1))
    end.

(** A call that never returns.  The model has no outcome of its own for
    it: the run is reported as not completed, in the state reached. *)
Definition hang {A} : M A := fun st => Throw st.

Definition updTrace (f : list Effect -> list Effect) (st : State) : State :=
  setTrace (f (trace st)) st.

Definition setUserDevicesCache (c : gmap string (list JidWithDevice)) (st : State) :=
  mkState c (mediaTypeCache st) (verifiedSessionsCache st)
          (pendingMediaQueries st) (mediaConn st) (lastMediaConnRefresh st)
          (promiseCount st) (settledPromises st)
          (sessions st) (senderKeyMemory st) (trace st).

Definition setMediaTypeCache (c : gmap (list string) string) (st : State) :=
  mkState (userDevicesCache st) c (verifiedSessionsCache st)
          (pendingMediaQueries st) (mediaConn st) (lastMediaConnRefresh st)
          (promiseCount st) (settledPromises st)
          (sessions st) (senderKeyMemory st) (trace st).

Definition setVerifiedSessionsCache (c : gset string) (st : State) :=
  mkState (userDevicesCache st) (mediaTypeCache st) c
          (pendingMediaQueries st) (mediaConn st) (lastMediaConnRefresh st)
          (promiseCount st) (settledPromises st)
          (sessions st) (senderKeyMemory st) (trace st).

Definition setMediaConnState (pending current : option nat) (last : Z)
    (count : nat) (settled : gmap nat (option MediaConnInfo)) (st : State) :=
  mkState (userDevicesCache st) (mediaTypeCache st) (verifiedSessionsCache st)
          pending current last count settled
          (sessions st) (senderKeyMemory st) (trace st).

Definition setSessions (s : gset string) (st : State) :=
  mkState (userDevicesCache st) (mediaTypeCache st) (verifiedSessionsCache st)
          (pendingMediaQueries st) (mediaConn st) (lastMediaConnRefresh st)
          (promiseCount st) (settledPromises st)
          s (senderKeyMemory st) (trace st).

Definition setSenderKeyMemory (m : gmap string (gmap string bool)) (st : State) :=
  mkState (userDevicesCache st) (mediaTypeCache st) (verifiedSessionsCache st)
          (pendingMediaQueries st) (mediaConn st) (lastMediaConnRefresh st)
          (promiseCount st) (settledPromises st)
          (sessions st) m (trace st).

Definition modify (f : State -> State) : M unit := fun st => Ok tt (f st).

(** The effects performed between two states of one execution. *)
Definition effectsSince (before after : State) : list Effect :=
  drop (length (trace before)) (trace after).

(** ** The key store *)

(** [authState.keys.get('sender-key-memory', [jid])[jid] || {}] *)
Definition keysGetSenderKeyMemory (jid : string) : M (gmap string bool) :=
  do! emit (EKeysGet "sender-key-memory" [jid]) in
  let! st := getState in
  ret (default ∅ (senderKeyMemory st !! jid)).

(** [authState.keys.set({ 'sender-key-memory': { [jid]: senderKeyMap } })] *)
Definition keysSetSenderKeyMemory (jid : string) (senderKeyMap : gmap string bool)
  : M unit :=
  do! emit (EKeysSetSenderKeyMemory jid senderKeyMap) in
  modify (fun st => setSenderKeyMemory (<[jid := senderKeyMap]> (senderKeyMemory st)) st).

Definition rollbackStore (before after : State) : State :=
  setSenderKeyMemory (senderKeyMemory before) (setSessions (sessions before) after).

(** Modelled from the spec: [authState.keys.transaction(body)] of the key
    store (4.B), which lies outside the sources: writes made in [body]
    are visible to its reads and are kept when [body] completes; they are
    dropped when it throws. *)
Definition transaction {A} (body : M A) : M A :=
  fun st =>
    match (do! emit ETransactionBegin in body) st with
    | Ok a st' => Ok a (updTrace (fun t => t ++ [ETransactionEnd]) st')
    | Throw st' => Throw (rollbackStore st st')
    end.

(** ** Small helpers *)

Definition isNil {A} (l : list A) : bool :=
  match l with
  | [] => true
  | _ => false
  end.

Definition inList (x : string) (l : list string) : bool :=
  existsb (String.eqb x) l.

(** [[...new Set(jids)]]: the first occurrence of each element, in order. *)
Fixpoint dedupeFrom (seen l : list string) : list string :=
  match l with
  | [] => []
  | x :: l' =>
      if inList x seen then dedupeFrom seen l'
      else x :: dedupeFrom (x :: seen) l'
  end.

Definition dedupe (l : list string) : list string := dedupeFrom [] l.

(** [s.split(':')[0]] *)
Fixpoint beforeColon (s : string) : string :=
  match s with
  | EmptyString => EmptyString
  | String c s' =>
      if Ascii.eqb c (Ascii.ascii_of_nat 58) then EmptyString else String c (beforeColon s')
  end.

(** Modelled from the spec: [getBinaryNodeChild] and
    [getBinaryNodeChildren] of [WABinary], which lie outside the sources:
    the first child, and all the children, with the given tag (section 6
    describes the response as [media_conn] with [host] children). *)
Definition getBinaryNodeChildren (node : BinaryNode) (childTag : string)
  : list BinaryNode :=
  match content node with
  | Children nodes => List.filter (fun n => String.eqb (tag n) childTag) nodes
  | _ => []
  end.

Definition getBinaryNodeChild (node : BinaryNode) (childTag : string)
  : option BinaryNode :=
  head (getBinaryNodeChildren node childTag).

(** An attribute read: [attrs.name], [undefined] when absent. *)
Definition attr (name : string) (a : Attrs) : option string :=
  default None (a !! name).

(** ** Constants *)

Definition DEFAULT_PARTICIPANT_BLOCK_SIZE : number := Finite 200.
Definition MEDIA_CONN_CHECK_INTERVAL : Z := 60000.

(** [config.participantBlockSize || DEFAULT_PARTICIPANT_BLOCK_SIZE]: the
    configured number is kept unless it is falsy, whatever its sign and
    whether or not it is whole. *)
Definition participantBlockSize (E : Env) : number :=
  match config_participantBlockSize E with
  | Some size => if truthyNum size then size else DEFAULT_PARTICIPANT_BLOCK_SIZE
  | None => DEFAULT_PARTICIPANT_BLOCK_SIZE
  end.

(** ** [refreshMediaConn] *)

(** The stanza of the media connection query. *)
Definition mediaConnQuery (E : Env) : BinaryNode :=
  Node "iq"
       (<["type" := Some "set"]>
        (<["xmlns" := Some "w:m"]>
         (<["to" := Some (S_WHATSAPP_NET E)]> ∅)))
       (Children [Node "media_conn" ∅ NoContent]).

(** One call of [refreshMediaConn(forceGet)], up to the point where it
    returns its promise.  A new fetch runs the inner [async] body up to
    [await query(...)]: the stanza is sent, then the promise is stored
    in [pendingMediaQueries] and in [mediaConn].  The result is the
    promise whose outcome the caller receives. *)
Definition refreshMediaConn (E : Env) (forceGet : bool) : M (option nat) :=
  fun st =>
    let now := dateNow E st in
    match pendingMediaQueries st with
    | Some pending => Ok (Some pending) st
    | None =>
        if negb (bool_decide (is_Some (mediaConn st)))
           || forceGet
           || (MEDIA_CONN_CHECK_INTERVAL <? now - lastMediaConnRefresh st)
        then
          let queryPromise := promiseCount st in
          Ok (Some queryPromise)
             (setMediaConnState (Some queryPromise) (Some queryPromise)
                (lastMediaConnRefresh st) (S queryPromise) (settledPromises st)
                (updTrace (fun t => t ++ [EQuery (mediaConnQuery E)]) st))
        else Ok (mediaConn st) st
    end.

(** The part of the inner [async] body after [await query(...)]:
    [response] is the answer of the server ([None] when [query] rejects)
    and [now] is the time read by the call that created [queryPromise]. *)
Definition mediaConnSettled (E : Env) (queryPromise : nat) (now : Z)
    (response : option BinaryNode) : M unit :=
  fun st =>
    let outcome : option MediaConnInfo :=
      match response with
      | None => None
      | Some result =>
          match getBinaryNodeChild result "media_conn" with
          | None => None          (* throw new Error(...) *)
          | Some mediaConnNode =>
              Some (mkMediaConnInfo
                      (map (fun host =>
                              (attr "hostname" (attrs host),
                               toNumber E (attr "maxContentLengthBytes" (attrs host))))
                           (getBinaryNodeChildren mediaConnNode "host"))
                      (attr "auth" (attrs mediaConnNode))
                      (toNumber E (attr "ttl" (attrs mediaConnNode)))
                      (dateNow E st))
          end
      end in
    let last :=
      match outcome with
      | Some _ => now
      | None => lastMediaConnRefresh st
      end in
    (* finally: pendingMediaQueries.delete('mediaConn') *)
    Ok tt (setMediaConnState None (mediaConn st) last (promiseCount st)
             (<[queryPromise := outcome]> (settledPromises st)) st).

(** ** [sendReceipt] *)

Definition sendNodeM (E : Env) (stanza : BinaryNode) : M unit :=
  do! emit (ESendNode stanza) in
  fun st => if sendNode E st stanza then Ok tt st else Throw st.

(** The receipt stanza built by [sendReceipt] for a first id [id0] and
    the remaining ids [rest]; [t] is [unixTimestampSeconds().toString()]. *)
Definition receiptNode (E : Env) (t : string) (jid : string)
    (participant : option string) (id0 : string) (rest : list string)
    (type : option string) : BinaryNode :=
  let attrs0 : Attrs := <["id" := Some id0]> ∅ in
  let attrs1 :=
    if bool_decide (type = Some "read") || bool_decide (type = Some "read-self")
    then <["t" := Some t]> attrs0
    else attrs0 in
  let attrs2 :=
    if bool_decide (type = Some "sender") && isJidUser E jid
    then <["to" := participant]> (<["recipient" := Some jid]> attrs1)
    else
      let a := <["to" := Some jid]> attrs1 in
      if truthyStr participant then <["participant" := participant]> a else a in
  let attrs3 :=
    if truthyStr type then <["type" := type]> attrs2 else attrs2 in
  (* messageIds.length > 1 ? messageIds.slice(1) : null *)
  let remainingMessageIds := if isNil rest then None else Some rest in
  match remainingMessageIds with
  | Some ((_ :: _) as remaining) =>
      Node "receipt" attrs3
           (Children
              [Node "list" ∅
                    (Children
                       (map (fun id => Node "item" (<["id" := Some id]> ∅) NoContent)
                            remaining))])
  | _ => Node "receipt" attrs3 NoContent
  end.

Definition sendReceipt (E : Env) (jid : string) (participant : option string)
    (messageIds : list string) (type : option string) : M unit :=
  match messageIds with
  | [] => ret tt
  | id0 :: rest =>
      let! st := getState in
      let t := pretty (unixTimestampSeconds E st) in
      sendNodeM E (receiptNode E t jid participant id0 rest type)
  end.

(** ** [getUSyncDevices] *)

(** The loop over [jids]: cache hits extend [deviceResults], the other
    users are collected in [toFetch].  ([processUserFromCache] has no
    [await], so it runs to its end when called.) *)
Definition splitCached (E : Env) (cache : gmap string (list JidWithDevice))
    (useCache : bool) (jids : list string)
  : list JidWithDevice * list string :=
  fold_left
    (fun '(deviceResults, toFetch) jid =>
       match jidDecode E jid with
       | Some decoded =>
           if String.eqb (jid_user decoded) "" then (deviceResults, toFetch)
           else
             let normalizedJid := jidNormalizedUser E jid in
             if useCache then
               match cache !! jid_user decoded with
               | Some devices => (deviceResults ++ devices, toFetch)
               | None => (deviceResults, toFetch ++ [normalizedJid])
               end
             else (deviceResults, toFetch ++ [normalizedJid])
       | None => (deviceResults, toFetch)
       end)
    jids ([], []).

(** [deviceMap]: the extracted devices grouped by user. *)
Definition groupByUser (extracted : list JidWithDevice)
  : gmap string (list JidWithDevice) :=
  fold_left
    (fun deviceMap item =>
       <[user item := default [] (deviceMap !! user item) ++ [item]]> deviceMap)
    extracted ∅.

(** [executeUSyncQuery E st toFetch ignoreZeroDevices] stands for
    [extractDeviceJids(result.list, meId, ignoreZeroDevices)] of the
    query's result, [Some None] when the result is falsy. *)
Definition getUSyncDevices (E : Env) (jids : list string)
    (useCache ignoreZeroDevices : bool) : M (list JidWithDevice) :=
  if isNil jids then ret [] else
  let jids := dedupe jids in
  let! st := getState in
  let '(deviceResults, toFetch) :=
    splitCached E (userDevicesCache st) useCache jids in
  if isNil toFetch then ret deviceResults else
  do! emit (EUSyncQuery toFetch) in
  let! result := ask (fun st => executeUSyncQuery E st toFetch ignoreZeroDevices) in
  match result with
  | Some extracted =>
      do! modify (fun st =>
                    setUserDevicesCache
                      (groupByUser extracted ∪ userDevicesCache st) st) in
      ret (deviceResults ++ extracted)
  | None => ret deviceResults
  end.

(** ** [assertSessions] *)

Definition addVerified (jid : string) : M unit :=
  modify (fun st => setVerifiedSessionsCache ({[jid]} ∪ verifiedSessionsCache st) st).

(** The stanza asking for the prekey bundles of [jids]. *)
Definition prekeyQuery (E : Env) (jids : list string) : BinaryNode :=
  Node "iq"
       (<["xmlns" := Some "encrypt"]>
        (<["type" := Some "get"]>
         (<["to" := Some (S_WHATSAPP_NET E)]> ∅)))
       (Children
          [Node "key" ∅
                (Children
                   (map (fun jid => Node "user" (<["jid" := Some jid]> ∅) NoContent)
                        jids))]).

(** Modelled from the spec: [parseAndInjectE2ESessions] of [Utils],
    which lies outside the sources, installs the bundles of the response
    one by one (4.E).  [parseAndInjectE2ESessions E st result] is the
    list of the addresses whose sessions the call has stored, and whether
    it then returned ([true]) or threw ([false]): a failure need not undo
    what was stored before it. *)
Definition assertSessions (E : Env) (jids : list string) (force : bool) : M bool :=
  if isNil jids then ret false else
  let jids := dedupe jids in
  let! st := getState in
  let jids :=
    if force then jids
    else List.filter (fun jid => negb (bool_decide (jid ∈ verifiedSessionsCache st)))
                     jids in
  if negb force && isNil jids then ret false else
  let! jidsRequiringFetch :=
    if force then ret jids
    else
      let addrs := map (jidToSignalProtocolAddress E) jids in
      do! emit (EKeysGet "session" addrs) in
      let! st := getState in
      let found := sessions st in
      forM (zip jids addrs) []
           (fun jidsRequiringFetch '(jid, signalId) =>
              if bool_decide (signalId ∈ found)
              then do! addVerified jid in ret jidsRequiringFetch
              else ret (jidsRequiringFetch ++ [jid])) in
  if isNil jidsRequiringFetch then ret false else
  do! emit (EQuery (prekeyQuery E jidsRequiringFetch)) in
  let! result := ask (fun st => query E st (prekeyQuery E jidsRequiringFetch)) in
  let! '(injected, completed) :=
    consult (fun st => parseAndInjectE2ESessions E st result) in
  do! emit (EInjectSessions injected) in
  do! modify (fun st => setSessions (list_to_set injected ∪ sessions st) st) in
  if negb completed then throw else
  do! forM jidsRequiringFetch tt (fun _ jid => addVerified jid) in
  ret true.

(** ** [createParticipantNodes] *)

(** The start of a call with a non-empty list, up to its first
    [await]: [patchMessageBeforeSending] is called. *)
Definition callPatch (message : IMessage) (jids : list string) : M unit :=
  emit (EPatchMessage message jids).

(** The rest of the call: the answer of the patch callback, then one
    encryption per jid under [Promise.all]. *)
Definition encryptForAll (E : Env) (jids : list string)
    (message : IMessage) (extraAttrs : option Attrs)
  : M (list BinaryNode * bool) :=
  let! patched := ask (fun st => patchMessageBeforeSending E st message jids) in
  let data := encodeWAMessage E patched in
  let! results :=
    callAll (fun jid =>
               do! emit (EEncrypt jid data) in
               let! '(type, ciphertext) :=
                 ask (fun st => encryptMessage E st jid data) in
               ret (String.eqb type "pkmsg",
                    Node "to" (<["jid" := Some jid]> ∅)
                         (Children
                            [Node "enc"
                                  (default ∅ extraAttrs
                                     ∪ <["v" := Some "2"]> (<["type" := Some type]> ∅))
                                  (Data ciphertext)])))
            jids in
  ret (map snd results, existsb fst results).

Definition createParticipantNodes (E : Env) (jids : list string)
    (message : IMessage) (extraAttrs : option Attrs)
  : M (list BinaryNode * bool) :=
  if isNil jids then ret ([], false) else
  do! callPatch message jids in
  encryptForAll E jids message extraAttrs.

(** ** [getMessageType] and [getMediaType] *)

Definition has (message : IMessage) (field : string) : bool :=
  truthy (message !! field).

Definition getMessageType (message : IMessage) : string :=
  if has message "pollCreationMessage"
     || has message "pollCreationMessageV2"
     || has message "pollCreationMessageV3"
  then "poll" else "text".

Definition getMediaType (message : IMessage) : option string :=
  if has message "imageMessage" then Some "image"
  else if has message "videoMessage" then
    Some (if truthy (prop "gifPlayback" (message !! "videoMessage"))
          then "gif" else "video")
  else if has message "audioMessage" then
    Some (if truthy (prop "ptt" (message !! "audioMessage"))
          then "ptt" else "audio")
  else if has message "documentMessage" then Some "document"
  else if has message "stickerMessage" then Some "sticker"
  else if has message "contactMessage" then Some "vcard"
  else if has message "contactsArrayMessage" then Some "contact_array"
  else if has message "liveLocationMessage" then Some "livelocation"
  else if has message "listMessage" then Some "list"
  else if has message "listResponseMessage" then Some "list_response"
  else if has message "buttonsResponseMessage" then Some "buttons_response"
  else if has message "orderMessage" then Some "order"
  else if has message "productMessage" then Some "product"
  else if has message "interactiveResponseMessage" then Some "native_flow_response"
  else if has message "groupInviteMessage" then Some "url"
  else None.

(** ** [relayMessage] *)

(** The constants of one call of [relayMessage], fixed before the
    first dispatch. *)
Record RelayCtx := mkRelayCtx {
  ctx_jid : string;
  ctx_message : IMessage;
  ctx_msgId : string;
  ctx_isGroup : bool;
  ctx_isStatus : bool;
  ctx_isLid : bool;
  ctx_destinationJid : string;
  ctx_participant : option string;
  ctx_additionalAttributes : option Attrs;
  ctx_additionalNodes : option (list BinaryNode);
  ctx_useCachedGroupMetadata : bool
}.

(** The variables of [relayMessage] that [sendToParticipants] assigns;
    they are shared by all the dispatches of one call. *)
Record RelayLocals := mkRelayLocals {
  shouldIncludeDeviceIdentity : bool;
  extraAttrs : Attrs
}.

(** [msgId || generateMessageIDV2(sock.user?.id)] *)
Definition orGenerate (E : Env) (msgId : option string) : M string :=
  match msgId with
  | Some id =>
      if String.eqb id "" then fun st => Ok (generateMessageIDV2 E st) st
      else ret id
  | None => fun st => Ok (generateMessageIDV2 E st) st
  end.

(** [JSON.stringify(Object.keys(message).sort())]: the sorted list of the
    field names stands for its JSON text. *)
Definition messageHash (message : IMessage) : list string :=
  merge_sort (fun a b => String.leb a b) (map fst (map_to_list message)).

(** The media type and pin attributes at the head of the transaction
    body. *)
Definition stampExtraAttrs (E : Env) (message : IMessage) (extra : Attrs)
  : M Attrs :=
  let! st := getState in
  let! mediaTypeValue :=
    match mediaTypeCache st !! messageHash message with
    | Some cached => ret (Some cached)
    | None =>
        match getMediaType message with
        | Some value =>
            do! modify (fun st =>
                          setMediaTypeCache
                            (<[messageHash message := value]> (mediaTypeCache st)) st) in
            ret (Some value)
        | None => ret None
        end
    end in
  let extra1 :=
    if truthyStr mediaTypeValue then <["mediatype" := mediaTypeValue]> extra
    else extra in
  let pinned :=
    match normalizeMessageContent E message with
    | Some normalized => has normalized "pinInChatMessage"
    | None => false
    end in
  ret (if pinned then <["decrypt-fail" := Some "hide"]> extra1 else extra1).

(** [{ senderKeyDistributionMessage: { axolotl..., groupId } }] *)
Definition senderKeyMsg (skdm : bytes) (destinationJid : string) : IMessage :=
  <["senderKeyDistributionMessage" :=
      JObj (<["axolotlSenderKeyDistributionMessage" := JBytes skdm]>
            (<["groupId" := JStr destinationJid]> ∅))]> ∅.

(** [{ deviceSentMessage: { destinationJid, message } }] *)
Definition meMsg (destinationJid : string) (message : IMessage) : IMessage :=
  <["deviceSentMessage" :=
      JObj (<["destinationJid" := JStr destinationJid]>
            (<["message" := JObj message]> ∅))]> ∅.

Definition deviceServer (isLid : bool) : string :=
  if isLid then "lid" else "s.whatsapp.net".

(** The group and status branch of the transaction body: the content
    nodes, the participant nodes and the updated device-identity flag.
    The two [async] blocks under [Promise.all] run in the order of their
    awaits: the metadata call is issued, then the key store is read,
    then a failed cache lookup falls back to [groupMetadata]. *)
Definition groupBranch (E : Env) (c : RelayCtx) (include : bool) (extra : Attrs)
    (devices : list JidWithDevice) (senderKeyJids : list string)
  : M (list BinaryNode * list BinaryNode * bool) :=
  let jid := ctx_jid c in
  let useCached :=
    negb (ctx_isStatus c) && ctx_useCachedGroupMetadata c
    && bool_decide (is_Some (cachedGroupMetadata E)) in
  do! (if useCached then emit (EGroupMetadata true jid)
       else if ctx_isStatus c then ret tt
       else emit (EGroupMetadata false jid)) in
  let! senderKeyMap :=
    if negb (ctx_isStatus c) then keysGetSenderKeyMemory jid else ret ∅ in
  do! (match cachedGroupMetadata E with
       | Some cached =>
           if useCached then
             let! data := ask (fun st => cached st jid) in
             match data with
             | Some (mkGroupMetadata (Some _)) => ret tt
             | _ =>
                 do! emit (EGroupMetadata false jid) in
                 do! ask (fun st => groupMetadata E st jid) in ret tt
             end
           else if ctx_isStatus c then ret tt
           else do! ask (fun st => groupMetadata E st jid) in ret tt
       | None =>
           if ctx_isStatus c then ret tt
           else do! ask (fun st => groupMetadata E st jid) in ret tt
       end) in
  let deviceJids :=
    map (fun d => jidEncode E (user d) (deviceServer (ctx_isLid c)) (device d))
        devices in
  do! emit (EPatchMessage (ctx_message c) deviceJids) in
  let! patched :=
    ask (fun st => patchMessageBeforeSending E st (ctx_message c) deviceJids) in
  let data := encodeWAMessage E patched in
  do! emit (EEncryptGroup (ctx_destinationJid c) data) in
  let! '(ciphertext, senderKeyDistributionMessage) :=
    ask (fun st => encryptGroupMessage E st (ctx_destinationJid c) data (meId E)) in
  let! '(participantNodes, include') :=
    if isNil senderKeyJids then ret ([], include)
    else
      do! assertSessions E senderKeyJids false in
      let! result :=
        createParticipantNodes E senderKeyJids
          (senderKeyMsg senderKeyDistributionMessage (ctx_destinationJid c))
          (Some extra) in
      ret (fst result, include || snd result) in
  let encNode :=
    Node "enc" (<["v" := Some "2"]> (<["type" := Some "skmsg"]> ∅)) (Data ciphertext) in
  do! keysSetSenderKeyMemory jid senderKeyMap in
  ret ([encNode], participantNodes, include').

(** The classification loop of the direct branch:
    [allJids], [meJids], [otherJids]; [None] when [creds.me.lid] is read
    while undefined. *)
Fixpoint classifyDevices (E : Env) (isLid : bool) (meUser : string)
    (devices : list JidWithDevice)
  : option (list string * list string * list string) :=
  match devices with
  | [] => Some ([], [], [])
  | d :: rest =>
      let isMe := String.eqb (user d) meUser in
      encodedUser ←
        (if isMe && isLid then
           match meLid E with
           | Some lid =>
               Some (if String.eqb (beforeColon lid) "" then user d
                     else beforeColon lid)
           | None => None
           end
         else Some (user d));
      let deviceJid := jidEncode E encodedUser (deviceServer isLid) (device d) in
      '(allJids, meJids, otherJids) ← classifyDevices E isLid meUser rest;
      Some (deviceJid :: allJids,
            (if isMe then deviceJid :: meJids else meJids),
            (if isMe then otherJids else deviceJid :: otherJids))
  end.

(** The direct (user or peer) branch of the transaction body.  The two
    calls of [createParticipantNodes] are both started before
    [Promise.all] awaits them, so both calls of the patch callback come
    first; each call then goes on with its encryptions, the one for the
    own devices first. *)
Definition directBranch (E : Env) (c : RelayCtx) (include : bool) (extra : Attrs)
    (devices : list JidWithDevice)
  : M (list BinaryNode * list BinaryNode * bool) :=
  let! meDecoded := ask (fun _ => jidDecode E (meId E)) in
  let! '(allJids, meJids, otherJids) :=
    ask (fun _ => classifyDevices E (ctx_isLid c) (jid_user meDecoded) devices) in
  do! assertSessions E allJids false in
  let meMessage := meMsg (ctx_destinationJid c) (ctx_message c) in
  do! (if isNil meJids then ret tt else callPatch meMessage meJids) in
  do! (if isNil otherJids then ret tt else callPatch (ctx_message c) otherJids) in
  let! '(mine, others) :=
    both (if isNil meJids then ret ([], false)
          else encryptForAll E meJids meMessage (Some extra))
         (if isNil otherJids then ret ([], false)
          else encryptForAll E otherJids (ctx_message c) (Some extra)) in
  ret ([], fst mine ++ fst others, include || snd mine || snd others).

(** The stanza assembled at the end of the transaction body. *)
Definition assembleStanza (E : Env) (c : RelayCtx)
    (binaryNodeContent participantNodes : list BinaryNode) (include : bool)
  : BinaryNode :=
  let additional := default ∅ (ctx_additionalAttributes c) in
  let content1 :=
    if isNil participantNodes then binaryNodeContent
    else if bool_decide (additional !! "category" = Some (Some "peer")) then
      match participantNodes with
      | Node _ _ (Children (peerNode :: _)) :: _ => binaryNodeContent ++ [peerNode]
      | _ => binaryNodeContent
      end
    else binaryNodeContent ++ [Node "participants" ∅ (Children participantNodes)] in
  let attrs0 : Attrs :=
    additional
      ∪ <["id" := Some (ctx_msgId c)]>
          (<["type" := Some (getMessageType (ctx_message c))]> ∅) in
  let attrs1 :=
    match ctx_participant c with
    | Some participantJid =>
        if isJidGroup E (ctx_destinationJid c) then
          <["participant" := Some participantJid]>
            (<["to" := Some (ctx_destinationJid c)]> attrs0)
        else if areJidsSameUser E participantJid (meId E) then
          <["recipient" := Some (ctx_destinationJid c)]>
            (<["to" := Some participantJid]> attrs0)
        else <["to" := Some participantJid]> attrs0
    | None => <["to" := Some (ctx_destinationJid c)]> attrs0
    end in
  let content2 :=
    if include
    then content1 ++ [Node "device-identity" ∅ (Data (signedDeviceIdentity E))]
    else content1 in
  let content3 :=
    match ctx_additionalNodes c with
    | Some ((_ :: _) as nodes) => content2 ++ nodes
    | _ => content2
    end in
  Node "message" attrs1 (Children content3).

(** The transaction body of [sendToParticipants] up to the stanza it
    is about to send. *)
Definition buildStanza (E : Env) (c : RelayCtx) (l : RelayLocals)
    (devices : list JidWithDevice) (senderKeyJids : list string)
  : M (BinaryNode * RelayLocals) :=
  let! extra := stampExtraAttrs E (ctx_message c) (extraAttrs l) in
  let! '(binaryNodeContent, participantNodes, include) :=
    if ctx_isGroup c || ctx_isStatus c
    then groupBranch E c (shouldIncludeDeviceIdentity l) extra devices senderKeyJids
    else directBranch E c (shouldIncludeDeviceIdentity l) extra devices in
  ret (assembleStanza E c binaryNodeContent participantNodes include,
       mkRelayLocals include extra).

(** [sendToParticipants(devices, senderKeyJids)] *)
Definition sendToParticipants (E : Env) (c : RelayCtx) (l : RelayLocals)
    (devices : list JidWithDevice) (senderKeyJids : list string)
  : M (string * RelayLocals) :=
  if isNil devices then
    let! id := orGenerate E (Some (ctx_msgId c)) in ret (id, l)
  else
    let! l' :=
      transaction
        (let! '(stanza, l') := buildStanza E c l devices senderKeyJids in
         do! sendNodeM E stanza in
         ret l') in
    let! id := orGenerate E (Some (ctx_msgId c)) in
    ret (id, l').

(** The loop that finds the devices without the sender key and marks
    them in [senderKeyMap]: the new targets and the updated map. *)
Definition markSenderKeyJids (E : Env) (isLid : bool)
    (senderKeyMap : gmap string bool) (devices : list JidWithDevice)
  : list string * gmap string bool :=
  fold_left
    (fun '(senderKeyJids, map) d =>
       let deviceJid := jidEncode E (user d) (deviceServer isLid) (device d) in
       if negb (default false (map !! deviceJid))
       then (senderKeyJids ++ [deviceJid], <[deviceJid := true]> map)
       else (senderKeyJids, map))
    devices ([], senderKeyMap).

(** [list.slice(a, b)] for [0 <= a <= b]: the bounds are truncated to
    whole numbers and cut at the length of the list. *)
Definition sliceBetween {A} (a b : Q) (l : list A) : list A :=
  let from := Z.to_nat (Qfloor a) in
  let to := Z.to_nat (Qfloor b) in
  take (to - from) (drop from l).

(** [for (; i < list.length; i += size) blocks.push(list.slice(i, i + size))]:
    [fuel] bounds the number of turns, and the result is [None] when the
    loop has not ended within them. *)
Fixpoint blocksFrom {A} (fuel : nat) (size i : Q) (l : list A)
  : option (list (list A)) :=
  if Qle_bool (inject_Z (Z.of_nat (length l))) i then Some []
  else
    match fuel with
    | O => None
    | S fuel' =>
        blocks ← blocksFrom fuel' size (i + size) l;
        Some (sliceBetween i (i + size) l :: blocks)
    end.

(** The number of turns the loop is given:
    [Math.ceil(participantsList.length / participantBlockSize)], the
    number of blocks that the log line announces. *)
Definition blockCount (size : Q) (n : nat) : nat :=
  Z.to_nat (Qceiling (inject_Z (Z.of_nat n) / size)).

(** The blocks of a split send, [None] when the loop never ends: a step
    that is not positive leaves [i] below the length of a non-empty list
    for ever.  With an infinite or undefined step the loop makes one
    turn. *)
Definition participantBlocks (E : Env) (participantsList : list string)
  : option (list (list string)) :=
  match participantBlockSize E with
  | Finite size =>
      blocksFrom (blockCount size (length participantsList)) size 0 participantsList
  | PlusInfinity =>
      Some (if isNil participantsList then [] else [participantsList])
  | MinusInfinity => if isNil participantsList then Some [] else None
  | NaN => Some (if isNil participantsList then [] else [[]])
  end.

(** The participant list of a group or status destination; a failure of
    the metadata lookup is caught and leaves the list empty. *)
Definition resolveParticipants (E : Env) (c : RelayCtx)
    (statusJidList : option (list string)) : M (list string) :=
  let! fromGroup :=
    if ctx_isGroup c then
      let cachedCall :=
        match cachedGroupMetadata E with
        | Some cached => if ctx_useCachedGroupMetadata c then Some cached else None
        | None => None
        end in
      do! emit (EGroupMetadata (bool_decide (is_Some cachedCall)) (ctx_jid c)) in
      fun st =>
        let groupData :=
          match cachedCall with
          | Some cached => cached st (ctx_jid c)
          | None => Some <$> groupMetadata E st (ctx_jid c)
          end in
        match groupData with
        | Some (Some (mkGroupMetadata (Some (p :: ps)))) => Ok (p :: ps) st
        | Some _ => Ok [] st
        | None => Ok [] st              (* catch: logger.warn *)
        end
    else ret [] in
  ret (if ctx_isStatus c
       then match statusJidList with
            | Some (j :: js) => fromGroup ++ j :: js
            | _ => fromGroup
            end
       else fromGroup).

(** One block of a split group send. *)
Definition sendBlock (E : Env) (c : RelayCtx) (useCache : bool)
    (acc : gmap string bool * RelayLocals) (blockParticipants : list string)
  : M (gmap string bool * RelayLocals) :=
  let '(senderKeyMap, l) := acc in
  let! additionalDevices := getUSyncDevices E blockParticipants useCache false in
  let '(blockSenderKeyJids, senderKeyMap') :=
    markSenderKeyJids E (ctx_isLid c) senderKeyMap additionalDevices in
  let! '(_, l') := sendToParticipants E c l additionalDevices blockSenderKeyJids in
  ret (senderKeyMap', l').

(** The group and status branch of [relayMessage].  The blocks of a
    split send run under [Promise.all], where their awaits interleave as
    the answers arrive; the key-store transactions of concurrent blocks
    are outside the sources.  The model runs the blocks one after the
    other in list order and stops at the first that fails: of a split
    send it is used for what does not depend on the order of the blocks
    (what a completed send has emitted, marked and encrypted, and each
    stanza by itself), not for the order of their effects. *)
Definition relayToGroup (E : Env) (c : RelayCtx) (l : RelayLocals)
    (useCache : bool) (statusJidList : option (list string)) : M string :=
  let! participantsList := resolveParticipants E c statusJidList in
  if exceeds (length participantsList) (participantBlockSize E) then
    match participantBlocks E participantsList with
    | None => hang
    | Some blocks =>
        let! senderKeyMap :=
          if ctx_isStatus c then ret ∅ else keysGetSenderKeyMemory (ctx_jid c) in
        let! '(senderKeyMap', _) :=
          forM blocks (senderKeyMap, l) (sendBlock E c useCache) in
        do! (if negb (ctx_isStatus c)
             then keysSetSenderKeyMemory (ctx_jid c) senderKeyMap'
             else ret tt) in
        ret (ctx_msgId c)
    end
  else
    let! additionalDevices := getUSyncDevices E participantsList useCache false in
    let! senderKeyJids :=
      if negb (ctx_isStatus c) then
        let! senderKeyMap := keysGetSenderKeyMemory (ctx_jid c) in
        let '(senderKeyJids, senderKeyMap') :=
          markSenderKeyJids E (ctx_isLid c) senderKeyMap additionalDevices in
        do! (if negb (isNil senderKeyJids)
             then keysSetSenderKeyMemory (ctx_jid c) senderKeyMap'
             else ret tt) in
        ret senderKeyJids
      else ret [] in
    let! '(id, _) := sendToParticipants E c l additionalDevices senderKeyJids in
    ret id.

(** The direct branch of [relayMessage]. *)
Definition relayToUser (E : Env) (c : RelayCtx) (l : RelayLocals)
    (user : string) (useCache : bool) : M string :=
  let! meDecoded := ask (fun _ => jidDecode E (meId E)) in
  let meUser := jid_user meDecoded in
  let devices0 :=
    if String.eqb user meUser then [mkDevice user None]
    else [mkDevice user None; mkDevice meUser None] in
  let! devices :=
    if bool_decide (default ∅ (ctx_additionalAttributes c) !! "category"
                    = Some (Some "peer"))
    then ret devices0
    else
      let! additionalDevices :=
        getUSyncDevices E [meId E; ctx_jid c] useCache true in
      ret (devices0 ++ additionalDevices) in
  let! '(id, _) := sendToParticipants E c l devices [] in
  ret id.

(** [relayMessage(jid, message, options)] *)
Definition relayMessage (E : Env) (jid : string) (message : IMessage)
    (o : MessageRelayOptions) : M string :=
  let! decoded := ask (fun _ => jidDecode E jid) in
  let user := jid_user decoded in
  let server := jid_server decoded in
  let statusJid := "status@broadcast" in
  let isGroup := String.eqb server "g.us" in
  let isStatus := String.eqb jid statusJid in
  let isLid := String.eqb server "lid" in
  let! msgId := orGenerate E (messageId o) in
  let useCache := negb (bool_decide (useUserDevicesCache o = Some false)) in
  let useCachedMetadata :=
    negb (bool_decide (useCachedGroupMetadata o = Some false)) && negb isStatus in
  let destinationJid :=
    if negb isStatus
    then jidEncode E user
           (if isLid then "lid" else if isGroup then "g.us" else "s.whatsapp.net")
           None
    else statusJid in
  let locals := mkRelayLocals false ∅ in
  let ctx additional :=
    mkRelayCtx jid message msgId isGroup isStatus isLid destinationJid
               (participant o) additional (additionalNodes o) useCachedMetadata in
  match participant o with
  | Some participantJid =>
      let additional :=
        if negb isGroup && negb isStatus
        then Some (<["device_fanout" := Some "false"]>
                     (default ∅ (additionalAttributes o)))
        else additionalAttributes o in
      let! d := ask (fun _ => jidDecode E participantJid) in
      let! '(id, _) :=
        sendToParticipants E (ctx additional) locals
          [mkDevice (jid_user d) (jid_device d)] [] in
      ret id
  | None =>
      if isGroup || isStatus
      then relayToGroup E (ctx (additionalAttributes o)) locals useCache
             (statusJidList o)
      else relayToUser E (ctx (additionalAttributes o)) locals user useCache
  end.

End MessagesSend.

(* ===================================================================== *)
(** * Observations on executions *)
(* ===================================================================== *)

Module Observations.
Import MessagesSend.



(** An effect allowed inside a transaction body before the emission:
    anything but an emission or a transaction boundary, with the
    encryptions and the patch callbacks restricted to given recipients. *)
Definition bodyEffect (encryptTo : string -> Prop) (patchTo : list string -> Prop)
    (e : Effect) : Prop :=
  match e with
  | ESendNode _ | ETransactionBegin | ETransactionEnd => False
  | EEncrypt jid _ => encryptTo jid
  | EPatchMessage _ jids => patchTo jids
  | _ => True
  end.

(** An effect of a whole relay with the same restrictions: emissions
    and transaction boundaries are allowed. *)
Definition relayEffect (encryptTo : string -> Prop) (patchTo : list string -> Prop)
    (e : Effect) : Prop :=
  match e with
  | EEncrypt jid _ => encryptTo jid
  | EPatchMessage _ jids => patchTo jids
  | _ => True
  end.


(** No effect at all. *)
Definition silent : Effect -> Prop := fun _ => False.

(** [st'] continues [st] with effects that all satisfy [P]. *)
Definition extends (P : Effect -> Prop) (st st' : State) : Prop :=
  exists effects, trace st' = (trace st ++ effects)%list /\ Forall P effects.

(** Every outcome of [m], completed or thrown, is related to its start. *)
Definition preserves {A} (R : State -> State -> Prop) (m : M A) : Prop :=
  forall st, R st (resultState (m st)).




(** On completion the sender-key memory is what it was. *)
Definition keepsMemory {A} (m : M A) : Prop :=
  forall st a st', m st = Ok a st' -> senderKeyMemory st' = senderKeyMemory st.

(** The devices marked in the sender-key memory of a group. *)
Definition hasSenderKey (st : State) (group deviceJid : string) : Prop :=
  default ∅ (senderKeyMemory st !! group) !! deviceJid = Some true.

(** The sender-key memory read with [|| {}] is the same in both states. *)
Definition sameMemory (st st' : State) : Prop :=
  forall group,
    default ∅ (senderKeyMemory st' !! group)
    = default ∅ (senderKeyMemory st !! group).

End Observations.

(* ===================================================================== *)
(** * A concrete environment for the examples *)
(* ===================================================================== *)

Module Scenario.
Import JS MessagesSend Observations.

(** A small address book: one group, three users. *)
Definition decodeTable : list (string * FullJid) :=
  [ ("family@g.us", mkFullJid "family" "g.us" None);
    ("status@broadcast", mkFullJid "status" "broadcast" None);
    ("me@s.whatsapp.net", mkFullJid "me" "s.whatsapp.net" None);
    ("ana@s.whatsapp.net", mkFullJid "ana" "s.whatsapp.net" None);
    ("bob@s.whatsapp.net", mkFullJid "bob" "s.whatsapp.net" None);
    ("bob:2@s.whatsapp.net", mkFullJid "bob" "s.whatsapp.net" (Some 2)) ].

Definition lookupJid (jid : string) : option FullJid :=
  snd <$> List.find (fun entry => String.eqb (fst entry) jid) decodeTable.

Definition encodeJid (user server : string) (device : option Z) : string :=
  match device with
  | Some d => if d =? 0 then user +:+ "@" +:+ server
              else user +:+ ":" +:+ pretty d +:+ "@" +:+ server
  | None => user +:+ "@" +:+ server
  end.

(** Every requested user has one device, its primary one. *)
Definition primaryDevices (jids : list string) : list JidWithDevice :=
  omap (fun jid => (fun d => mkDevice (jid_user d) None) <$> lookupJid jid) jids.

(** The server answers every query, every encryption succeeds with a
    prekey message, the group has two members, and blocks hold one
    participant. *)
Definition env : Env :=
  {| S_WHATSAPP_NET := "@s.whatsapp.net";
     jidDecode := lookupJid;
     jidEncode := encodeJid;
     jidNormalizedUser := fun jid => jid;
     isJidGroup := fun jid => String.eqb jid "family@g.us";
     isJidUser := fun jid => negb (String.eqb jid "family@g.us")
                             && negb (String.eqb jid "status@broadcast");
     areJidsSameUser := fun a b =>
       bool_decide (jid_user <$> lookupJid a = jid_user <$> lookupJid b);
     encodeWAMessage := fun _ => [];
     normalizeMessageContent := fun m => Some m;
     toNumber := fun _ => 0;
     generateMessageIDV2 := fun st => "ID" +:+ pretty (length (trace st));
     unixTimestampSeconds := fun st => 1700000000 + Z.of_nat (length (trace st));
     dateNow := fun st => 1700000000000 + Z.of_nat (length (trace st));
     meId := "me@s.whatsapp.net";
     meLid := None;
     signedDeviceIdentity := [];
     config_participantBlockSize := Some (Finite 1);
     cachedGroupMetadata := None;
     patchMessageBeforeSending := fun _ m _ => Some m;
     query := fun _ _ => Some (Node "iq" ∅ NoContent);
     sendNode := fun _ _ => true;
     groupMetadata := fun _ jid =>
       if String.eqb jid "family@g.us"
       then Some (mkGroupMetadata (Some ["ana@s.whatsapp.net"; "bob@s.whatsapp.net"]))
       else Some (mkGroupMetadata None);
     executeUSyncQuery := fun _ jids _ => Some (Some (primaryDevices jids));
     jidToSignalProtocolAddress := fun jid => jid +:+ ".0";
     encryptMessage := fun _ _ _ => Some ("pkmsg", []);
     encryptGroupMessage := fun _ _ _ _ => Some ([], []);
     parseAndInjectE2ESessions := fun _ _ => ([], true) |}.

(** The same environment with room for 200 participants per block. *)
Definition envDefaultBlocks : Env :=
  {| S_WHATSAPP_NET := S_WHATSAPP_NET env;
     jidDecode := jidDecode env;
     jidEncode := jidEncode env;
     jidNormalizedUser := jidNormalizedUser env;
     isJidGroup := isJidGroup env;
     isJidUser := isJidUser env;
     areJidsSameUser := areJidsSameUser env;
     encodeWAMessage := encodeWAMessage env;
     normalizeMessageContent := normalizeMessageContent env;
     toNumber := toNumber env;
     generateMessageIDV2 := generateMessageIDV2 env;
     unixTimestampSeconds := unixTimestampSeconds env;
     dateNow := dateNow env;
     meId := meId env;
     meLid := meLid env;
     signedDeviceIdentity := signedDeviceIdentity env;
     config_participantBlockSize := None;
     cachedGroupMetadata := cachedGroupMetadata env;
     patchMessageBeforeSending := patchMessageBeforeSending env;
     query := query env;
     sendNode := sendNode env;
     groupMetadata := groupMetadata env;
     executeUSyncQuery := executeUSyncQuery env;
     jidToSignalProtocolAddress := jidToSignalProtocolAddress env;
     encryptMessage := encryptMessage env;
     encryptGroupMessage := encryptGroupMessage env;
     parseAndInjectE2ESessions := parseAndInjectE2ESessions env |}.

(** A fresh socket: empty caches, empty key store, nothing done yet. *)
Definition fresh : State :=
  mkState ∅ ∅ ∅ None None 0 0 ∅ ∅ ∅ [].

(** The state after a first [assertSessions] for [ana]. *)
Definition afterFirstAssert : State :=
  resultState (assertSessions env ["ana@s.whatsapp.net"] false fresh).

Definition textMessage : IMessage := <["conversation" := JStr "hi"]> ∅.

Definition noOptions : MessageRelayOptions :=
  mkRelayOptions (Some "MSG1") None None None None None None.

(** The options of a relay to the second device of [bob] only. *)
Definition overrideOptions : MessageRelayOptions :=
  mkRelayOptions (Some "MSG1") (Some "bob:2@s.whatsapp.net") None None None None None.





(** A stand-in for the JSON library that prints an array of states as
    the list of their key ids; strings are not parsed. *)
Definition showKeyIds (j : json) : string :=
  match j with
  | JArr items =>
      String.concat ","
        (map (fun item =>
                match prop "senderKeyId" (Some item) with
                | Some (JNum n) => pretty n
                | _ => "?"
                end) items)
  | _ => ""
  end.

Definition jsonLib : Cleanup.JsonLib :=
  Cleanup.mkJsonLib (fun _ => None) showKeyIds (fun _ => "")
                    String.list_byte_of_string.

(** A stored state with the given key id and non-empty keys. *)
Definition structureWithId (id : Z) : SKRecord.SenderKeyStateStructure :=
  SKRecord.mkStructure id
    (SKRecord.mkChainKey 0 [Byte.x01])
    (SKRecord.mkSigningKey [Byte.x02] None) [].

Definition senderKeyName : string := "family@g.us::me::0".

(** An entry whose only state has key id 0. *)
Definition zeroIdEntry : list (string * json) :=
  [(senderKeyName, JArr [Cleanup.structureToJSON (structureWithId 0)])].

(** An entry with six well-formed states, key ids 1 to 6. *)
Definition sixStates : list json :=
  map (fun id => Cleanup.structureToJSON (structureWithId id)) [1; 2; 3; 4; 5; 6].

Definition sixStatesEntry : list (string * json) :=
  [(senderKeyName, JArr sixStates)].

(** An entry with seven states, the first of which has lost its signing
    key. *)
Definition sevenStatesOneBroken : list (string * json) :=
  [(senderKeyName,
    JArr (JObj (<["senderKeyId" := JNum 1]> ∅)
          :: map (fun id => Cleanup.structureToJSON (structureWithId id))
                 [2; 3; 4; 5; 6; 7]))].

End Scenario.

(* ===================================================================== *)
(** * Further operations *)
(* ===================================================================== *)

Module RecordMore.
Import JS SKRecord.

(** The state that one [addSenderKeyState] call pushes. *)
Definition pushedState (call : Z * Z * bytes * bytes) : SenderKeyState :=
  let '(id, iteration, chainKey, signatureKey) := call in
  SenderKeyState_new id iteration chainKey None (Some signatureKey).

(** The last [n] elements of a list. *)
Definition lastN {A} (n : nat) (l : list A) : list A := drop (length l - n) l.

(** Seven serialized states, key ids 1 to 7. *)
Definition sevenStructures : list SenderKeyStateStructure :=
  map Scenario.structureWithId [1; 2; 3; 4; 5; 6; 7].




End RecordMore.

(** [cleanupSenderKeyMemory], [cleanupSenderKeys] and the two [clear...]
    helpers of the cleanup module. *)
Module CleanupMemory.
Import JS Cleanup.

(** [memory && typeof memory === 'object'] *)
Definition isObject (memory : jsval) : bool :=
  match memory with
  | Some (JObj _) | Some (JArr _) | Some (JBytes _) => true
  | _ => false
  end.

(** The entries of an array-like value: its indices as strings. *)
Definition indexed (items : list json) : list (string * json) :=
  imap (fun i item => (pretty i, item)) items.

(** [Object.entries(memory)] for a value that passed [isObject] (the
    code calls it on no other). *)
Definition objectEntries (memory : jsval) : list (string * json) :=
  match memory with
  | Some (JObj fields) => map_to_list fields
  | Some (JArr items) => indexed items
  | Some (JBytes b) => indexed (map (fun x => JNum (Z.of_N (Byte.to_N x))) b)
  | _ => []
  end.

(** [typeof value === 'boolean' && value === true] *)
Definition isTrue (value : json) : bool :=
  match value with
  | JBool true => true
  | _ => false
  end.

(** One iteration of the inner loop, on [validEntries],
    [hasValidEntries] and [hasChanges]. *)
Definition keepTrue (acc : gmap string bool * bool * bool)
    (entry : string * json) : gmap string bool * bool * bool :=
  let '(validEntries, hasValidEntries, hasChanges) := acc in
  let '(key, value) := entry in
  if isTrue value
  then (<[key := true]> validEntries, true, hasChanges)
  else (validEntries, hasValidEntries, true).

(** One iteration of the outer loop, on [cleanedMemory] and
    [hasChanges]. *)
Definition memoryEntry (acc : gmap string (gmap string bool) * bool)
    (entry : string * jsval) : gmap string (gmap string bool) * bool :=
  let '(cleanedMemory, hasChanges) := acc in
  let '(jid, memory) := entry in
  if isObject memory then
    let '(validEntries, hasValidEntries, hasChanges) :=
      fold_left keepTrue (objectEntries memory) (∅, false, hasChanges) in
    if hasValidEntries
    then (<[jid := validEntries]> cleanedMemory, hasChanges)
    else (cleanedMemory, true)
  else
    match memory with
    | Some JNull => (cleanedMemory, hasChanges)
    | _ => (cleanedMemory, true)                       (* memory !== null *)
    end.

(** [cleanupSenderKeyMemory]: the argument of the one
    [keys.set({'sender-key-memory': cleanedMemory})] it performs, or
    [None] when it performs none.  [allMemory] is
    [Object.entries(await keys.get('sender-key-memory', []))]; [maxAge]
    is not read.  (A failure of the store is caught and logged; the
    model covers the runs in which the store answers.) *)
Definition cleanupSenderKeyMemory (allMemory : list (string * jsval))
    (maxAge : Z) : option (gmap string (gmap string bool)) :=
  let '(cleanedMemory, hasChanges) :=
    fold_left memoryEntry allMemory (∅, false) in
  if hasChanges then Some cleanedMemory else None.

(** [SenderKeyCleanupOptions]; an absent field takes its default. *)
Record SenderKeyCleanupOptions := mkOptions {
  maxMemoryAge : option Z;
  maxStatesPerGroup : option Z;
  aggressive : option bool
}.

(** The writes the cleanup functions make to the key store. *)
Inductive StoreWrite :=
| SetSenderKeyMemory (cleaned : gmap string (option (gmap string bool)))
| SetSenderKey (patch : gmap string (option bytes)).

(** [cleanupSenderKeys]: the [keys.set] calls it makes, in order. *)
Definition cleanupSenderKeys (lib : JsonLib)
    (allMemory : list (string * jsval)) (allSenderKeys : list (string * json))
    (options : SenderKeyCleanupOptions) : list StoreWrite :=
  let maxMemoryAge := default (24 * 60 * 60 * 1000) (maxMemoryAge options) in
  let maxStatesPerGroup :=
    default default_maxStatesPerGroup (maxStatesPerGroup options) in
  let aggressive := default false (aggressive options) in
  match cleanupSenderKeyMemory allMemory maxMemoryAge with
  | Some cleaned => [SetSenderKeyMemory (Some <$> cleaned)]
  | None => []
  end
  ++ (if aggressive then
        match cleanupCorruptedSenderKeys lib allSenderKeys maxStatesPerGroup with
        | Some patch => [SetSenderKey patch]
        | None => []
        end
      else []).

(** [clearGroupSenderKeyMemory] *)
Definition clearGroupSenderKeyMemory (groupJid : string) : StoreWrite :=
  SetSenderKeyMemory {[ groupJid := None ]}.

(** [clearGroupSenderKey] *)
Definition clearGroupSenderKey (groupJid meId : string) : StoreWrite :=
  SetSenderKey {[ groupJid +:+ "::" +:+ meId +:+ "::0" := None ]}.

(** The written object read back: what [Object.entries] gives for it. *)
Definition writtenEntries (cleaned : gmap string (gmap string bool))
  : list (string * jsval) :=
  map (fun '(jid, validEntries) =>
         (jid, Some (JObj (JBool <$> (validEntries : gmap string bool)))))
      (map_to_list cleaned).

(** A store with a clean group, a group holding one stale flag, a group
    with no flag left and a garbage value. *)
Definition memoryStore : list (string * jsval) :=
  [("g1@g.us", Some (JObj (<["a:0@s.whatsapp.net" := JBool true]> ∅)));
   ("g2@g.us", Some (JObj (<["a:0@s.whatsapp.net" := JBool true]>
                           (<["b:0@s.whatsapp.net" := JBool false]> ∅))));
   ("g3@g.us", Some (JObj (<["a:0@s.whatsapp.net" := JNum 1]> ∅)));
   ("g4@g.us", Some (JStr "x"))].

End CleanupMemory.

(** The remaining operations of the message socket that need nothing
    beyond its collaborators. *)
Module SocketMore.
Import JS MessagesSend.
Local Open Scope relay_scope.

(** The callback of [setInterval(..., 3600000)]. *)
Definition clearCaches (st : State) : State :=
  let st1 :=
    if (500 <? size (mediaTypeCache st))%nat then setMediaTypeCache ∅ st else st in
  if (1000 <? size (verifiedSessionsCache st1))%nat
  then setVerifiedSessionsCache ∅ st1
  else st1.

(** [await Promise.all(calls)] for calls that reach their only [await]
    at once: every call is started, in order, and the whole rejects when
    one of them does. *)
Fixpoint startAll (calls : list (M unit)) : M unit :=
  match calls with
  | [] => ret tt
  | call :: rest =>
      fun st =>
        match call st with
        | Ok _ st' => startAll rest st'
        | Throw st' => Throw (resultState (startAll rest st'))
        end
  end.

(** [sendReceipts]; [aggregateMessageKeysNotFromMe] of [Utils] lies
    outside the sources and is a parameter: it gives the [jid], the
    [participant] and the [messageIds] of each receipt. *)
Definition sendReceipts {Key} (E : Env)
    (aggregateMessageKeysNotFromMe :
       list Key -> list (string * option string * list string))
    (keys : list Key) (type : option string) : M unit :=
  if isNil keys then ret tt else
  let recps := aggregateMessageKeysNotFromMe keys in
  startAll (map (fun '(jid, participant, messageIds) =>
                   sendReceipt E jid participant messageIds type)
                recps).

(** [readMessages]; [fetchPrivacySettings st] stands for the
    [readreceipts] field of the settings the socket fetches, [None] when
    the fetch fails. *)
Definition readMessages {Key} (E : Env)
    (aggregateMessageKeysNotFromMe :
       list Key -> list (string * option string * list string))
    (fetchPrivacySettings : State -> option (option string))
    (keys : list Key) : M unit :=
  if isNil keys then ret tt else
  let! readreceipts := ask fetchPrivacySettings in
  let readType :=
    if bool_decide (readreceipts = Some "all") then "read" else "read-self" in
  sendReceipts E aggregateMessageKeysNotFromMe keys (Some readType).



End SocketMore.

(** Further observations on executions. *)
Module ObservationsMore.
Import MessagesSend Observations.

(** The stanzas handed to [sendNode], in order. *)
Definition sentStanzas (effects : list Effect) : list BinaryNode :=
  omap (fun e => match e with ESendNode stanza => Some stanza | _ => None end)
       effects.

(** Neither a device lookup nor a group metadata lookup. *)
Definition noLookup (e : Effect) : Prop :=
  match e with
  | EUSyncQuery _ | EGroupMetadata _ _ => False
  | _ => True
  end.

(** Every cached device list is filed under the user of its devices. *)
Definition cacheConsistent (cache : gmap string (list JidWithDevice)) : Prop :=
  forall u devices,
    cache !! u = Some devices -> Forall (fun d => user d = u) devices.


(** [destinationJid] as [relayMessage] computes it from [jid]. *)
Definition destinationOf (E : Env) (jid : string) (decoded : FullJid) : string :=
  if negb (String.eqb jid "status@broadcast")
  then jidEncode E (jid_user decoded)
         (if String.eqb (jid_server decoded) "lid" then "lid"
          else if String.eqb (jid_server decoded) "g.us" then "g.us"
          else "s.whatsapp.net")
         None
  else "status@broadcast".

End ObservationsMore.

(** Concrete values for the examples of the further properties. *)
Module ScenarioMore.
Import JS MessagesSend Observations SocketMore Scenario.

(** A looping video and a plain one: the same field names. *)
Definition gifMessage : IMessage :=
  <["videoMessage" := JObj (<["gifPlayback" := JBool true]> ∅)]> ∅.

Definition videoMessage : IMessage :=
  <["videoMessage" := JObj (<["url" := JStr "https://example.org/v"]> ∅)]> ∅.

(** Three message keys already grouped per chat; the aggregation is the
    identity. *)
Definition receiptGroups : list (string * option string * list string) :=
  [("ana@s.whatsapp.net", None, ["A1"; "A2"]);
   ("family@g.us", Some "bob@s.whatsapp.net", ["B1"])].

(** The environment of a socket whose transport is down. *)
Definition envOffline : Env :=
  {| S_WHATSAPP_NET := S_WHATSAPP_NET env;
     jidDecode := jidDecode env;
     jidEncode := jidEncode env;
     jidNormalizedUser := jidNormalizedUser env;
     isJidGroup := isJidGroup env;
     isJidUser := isJidUser env;
     areJidsSameUser := areJidsSameUser env;
     encodeWAMessage := encodeWAMessage env;
     normalizeMessageContent := normalizeMessageContent env;
     toNumber := toNumber env;
     generateMessageIDV2 := generateMessageIDV2 env;
     unixTimestampSeconds := unixTimestampSeconds env;
     dateNow := dateNow env;
     meId := meId env;
     meLid := meLid env;
     signedDeviceIdentity := signedDeviceIdentity env;
     config_participantBlockSize := None;
     cachedGroupMetadata := cachedGroupMetadata env;
     patchMessageBeforeSending := patchMessageBeforeSending env;
     query := query env;
     sendNode := fun _ _ => false;
     groupMetadata := groupMetadata env;
     executeUSyncQuery := executeUSyncQuery env;
     jidToSignalProtocolAddress := jidToSignalProtocolAddress env;
     encryptMessage := encryptMessage env;
     encryptGroupMessage := encryptGroupMessage env;
     parseAndInjectE2ESessions := parseAndInjectE2ESessions env |}.





End ScenarioMore.

Module BlockChunks.


End BlockChunks.


(** Concrete media-connection runs for the examples. *)
Module ScenarioMedia.
Import JS MessagesSend Scenario.

(** The answer of the server to the media connection query. *)
Definition mediaConnAnswer : BinaryNode :=
  Node "iq" ∅
       (Children
          [Node "media_conn"
                (<["auth" := Some "token"]> (<["ttl" := Some "300"]> ∅))
                (Children
                   [Node "host" (<["hostname" := Some "mmg.whatsapp.net"]> ∅)
                         NoContent])]).

(** A first refresh on a fresh socket, answered by the server. *)
Definition afterRefresh : State :=
  resultState (refreshMediaConn env false fresh).

Definition afterAnswer : State :=
  resultState
    (mediaConnSettled env 0 (dateNow env fresh) (Some mediaConnAnswer) afterRefresh).

(** A forced refresh right after, whose query fails. *)
Definition afterForcedRefresh : State :=
  resultState (refreshMediaConn env true afterAnswer).

Definition afterFailure : State :=
  resultState
    (mediaConnSettled env 1 (dateNow env afterAnswer) None afterForcedRefresh).

End ScenarioMedia.

(** Concrete lookups and relays for the examples. *)
Module ScenarioRuns.
Import JS MessagesSend Scenario ScenarioMore.

(** The state after a first device lookup for [ana]. *)
Definition afterDeviceLookup : State :=
  resultState (getUSyncDevices env ["ana@s.whatsapp.net"] true false fresh).

(** The state after a relay to the group that fails at the transport. *)
Definition afterFailedRelay : State :=
  resultState (relayMessage envOffline "family@g.us" textMessage noOptions fresh).

(** The options of a relay in the [peer] category. *)
Definition peerRelayOptions : MessageRelayOptions :=
  mkRelayOptions (Some "MSG1") None (Some (<["category" := Some "peer"]> ∅))
                 None None None None.

End ScenarioRuns.
Module RelayContext.
Import JS MessagesSend ObservationsMore.

(** The constants [relayMessage] fixes for its dispatches, given the
    decoded destination and the message id. *)
Definition contextOf (E : Env) (jid : string) (message : IMessage)
    (o : MessageRelayOptions) (decoded : FullJid) (msgId : string) : RelayCtx :=
  let isGroup := String.eqb (jid_server decoded) "g.us" in
  let isStatus := String.eqb jid "status@broadcast" in
  let isLid := String.eqb (jid_server decoded) "lid" in
  mkRelayCtx jid message msgId isGroup isStatus isLid
    (destinationOf E jid decoded)
    (participant o)
    (match participant o with
     | Some _ =>
         if negb isGroup && negb isStatus
         then Some (<["device_fanout" := Some "false"]>
                      (default ∅ (additionalAttributes o)))
         else additionalAttributes o
     | None => additionalAttributes o
     end)
    (additionalNodes o)
    (negb (bool_decide (useCachedGroupMetadata o = Some false)) && negb isStatus).


End RelayContext.

(** What a relay with a participant override addresses, and what it
    takes for a run to complete. *)
Module Override.
Import JS MessagesSend Observations ObservationsMore.

(** The calls that name recipients, and the emissions. *)
Definition outgoing (e : Effect) : bool :=
  match e with
  | EPatchMessage _ _ | EEncrypt _ _ | EEncryptGroup _ _ | ESendNode _ => true
  | _ => false
  end.

(** The device jid that a relay with the participant override [d]
    addresses.  For a group or the status list it is the jid of the
    device; for a user it is the one jid that the classification loop of
    the direct branch computes for the device, which reads
    [creds.me.lid] when the device belongs to the own account and the
    destination is a [lid] ([None] when that fails). *)
Definition overrideTarget (E : Env) (jid : string) (decoded d : FullJid)
  : option string :=
  let isLid := String.eqb (jid_server decoded) "lid" in
  if String.eqb (jid_server decoded) "g.us" || String.eqb jid "status@broadcast"
  then Some (jidEncode E (jid_user d) (deviceServer isLid) (jid_device d))
  else
    match jidDecode E (meId E) with
    | Some meDecoded =>
        match classifyDevices E isLid (jid_user meDecoded)
                              [mkDevice (jid_user d) (jid_device d)] with
        | Some (allJids, _, _) => head allJids
        | None => None
        end
    | None => None
    end.

(** The message handed to the patch callback for that device: the
    message itself, wrapped as a [deviceSentMessage] when a user is the
    destination and the device belongs to the own account. *)
Definition overrideMessage (E : Env) (jid : string) (message : IMessage)
    (decoded d : FullJid) : IMessage :=
  if String.eqb (jid_server decoded) "g.us" || String.eqb jid "status@broadcast"
  then message
  else
    match jidDecode E (meId E) with
    | Some meDecoded =>
        if String.eqb (jid_user d) (jid_user meDecoded)
        then meMsg (destinationOf E jid decoded) message
        else message
    | None => message
    end.

(** [st'] continues [st], and [xs] are the outgoing effects added. *)
Definition outgoingSince (xs : list Effect) (st st' : State) : Prop :=
  exists effects,
    trace st' = (trace st ++ effects)%list /\ List.filter outgoing effects = xs.

(** [m] completes from every state. *)
Definition completes {A} (m : M A) : Prop :=
  forall st, exists a st', m st = Ok a st'.

(** An environment in which the network, the callbacks and the
    cryptography always answer. *)
Record responsive (E : Env) : Prop := mkResponsive {
  patch_answers : forall st message jids,
      is_Some (patchMessageBeforeSending E st message jids);
  query_answers : forall st node, is_Some (query E st node);
  injection_completes : forall st node,
      snd (parseAndInjectE2ESessions E st node) = true;
  sendNode_accepts : forall st stanza, sendNode E st stanza = true;
  groupMetadata_answers : forall st jid, is_Some (groupMetadata E st jid);
  cachedGroupMetadata_answers : forall cached st jid,
      cachedGroupMetadata E = Some cached -> is_Some (cached st jid);
  encryptMessage_answers : forall st jid data,
      is_Some (encryptMessage E st jid data);
  encryptGroupMessage_answers : forall st group data me,
      is_Some (encryptGroupMessage E st group data me)
}.

End Override.

(** The options of a status update for two contacts. *)
Module ScenarioStatus.
Import JS MessagesSend Scenario.

Definition statusOptions : MessageRelayOptions :=
  mkRelayOptions (Some "MSG1") None None None None None
                 (Some ["ana@s.whatsapp.net"; "bob@s.whatsapp.net"]).

End ScenarioStatus.

(* ===================================================================== *)
(** * Properties of [SenderKeyRecord] *)
(* ===================================================================== *)

Section SenderKeyRecordProperties.
Import SKRecord.

Implicit Types (r : SenderKeyRecord) (state : SenderKeyState).

Lemma addSenderKeyState_length id iteration chainKey signatureKey r :
  (length (senderKeyStates r) <= MAX_STATES)%nat ->
  (length (senderKeyStates
             (addSenderKeyState id iteration chainKey signatureKey r))
   <= MAX_STATES)%nat.
Proof.
  intros Hcap. unfold addSenderKeyState.
  set (pushed := (senderKeyStates r ++ _)%list).
  assert (Hlen : length pushed = S (length (senderKeyStates r))).
  { subst pushed. rewrite length_app. simpl. lia. }
  destruct (Nat.ltb_spec MAX_STATES (length pushed)) as [Hover | Hfits]; simpl.
  - destruct pushed; simpl in *; lia.
  - exact Hfits.
Qed.

Lemma addSenderKeyStates_length calls :
  forall r,
    (length (senderKeyStates r) <= MAX_STATES)%nat ->
    (length (senderKeyStates (addSenderKeyStates calls r)) <= MAX_STATES)%nat.
Proof.
  induction calls as [| [[[id iteration] chainKey] signatureKey] calls IH];
    intros r Hcap; simpl.
  - exact Hcap.
  - apply IH. now apply addSenderKeyState_length.
Qed.

Lemma addSenderKeyState_full id iteration chainKey signatureKey r :
  length (senderKeyStates r) = MAX_STATES ->
  senderKeyStates (addSenderKeyState id iteration chainKey signatureKey r)
  = (tail (senderKeyStates r)
       ++ [SenderKeyState_new id iteration chainKey None (Some signatureKey)])%list.
Proof.
  intros Hfull. unfold addSenderKeyState.
  rewrite length_app, Hfull. simpl.
  destruct (senderKeyStates r) as [| oldest others]; [discriminate Hfull |].
  reflexivity.
Qed.

(** C3. Starting from a record within the cap (in particular from a new,
    empty record), no sequence of [addSenderKeyState] calls brings the
    number of stored states above 5; and a call on a record that holds
    5 states drops the oldest state, at the head, and appends the new
    one at the tail. *)
Theorem addSenderKeyState_cap r :
  (length (senderKeyStates r) <= 5)%nat ->
  (forall calls,
      (length (senderKeyStates (addSenderKeyStates calls r)) <= 5)%nat)
  /\ (forall id iteration chainKey signatureKey,
         length (senderKeyStates r) = 5%nat ->
         senderKeyStates (addSenderKeyState id iteration chainKey signatureKey r)
         = (tail (senderKeyStates r)
              ++ [SenderKeyState_new id iteration chainKey None
                                     (Some signatureKey)])%list).
Proof.
  intros Hcap. split.
  - intros calls. now apply addSenderKeyStates_length.
  - intros. now apply addSenderKeyState_full.
Qed.

(** Six calls on a new record: five states remain, and the sixth call,
    made on a record of five states, has dropped the state of the first. *)
Lemma addSenderKeyState_cap_witness :
  (length (senderKeyStates (addSenderKeyStates sixCalls (SenderKeyRecord_new None)))
   <= 5)%nat
  /\ senderKeyStates
       (addSenderKeyState 6 0 [Byte.x06] [Byte.x16]
          (addSenderKeyStates fiveCalls (SenderKeyRecord_new None)))
     = (tail (senderKeyStates (addSenderKeyStates fiveCalls (SenderKeyRecord_new None)))
          ++ [SenderKeyState_new 6 0 [Byte.x06] None (Some [Byte.x16])])%list.
Proof.
  split.
  - apply (addSenderKeyState_cap (SenderKeyRecord_new None)). simpl. lia.
  - apply (addSenderKeyState_cap
             (addSenderKeyStates fiveCalls (SenderKeyRecord_new None))).
    + simpl. lia.
    + reflexivity.
Defined.

(** The backward scan returns the valid state of largest index. *)
Lemma scanBackward_Some states n state :
  scanBackward states n = Some state ->
  exists i,
    (i < n)%nat /\ states !! i = Some state
    /\ isValidSenderKeyState state = true
    /\ forall j other,
        (i < j < n)%nat -> states !! j = Some other ->
        isValidSenderKeyState other = false.
Proof.
  induction n as [| n IH]; simpl; [discriminate |].
  assert (Hstep :
            scanBackward states n = Some state ->
            (forall other, states !! n = Some other ->
                           isValidSenderKeyState other = false) ->
            exists i,
              (i < S n)%nat /\ states !! i = Some state
              /\ isValidSenderKeyState state = true
              /\ forall j other,
                  (i < j < S n)%nat -> states !! j = Some other ->
                  isValidSenderKeyState other = false).
  { intros Hscan Hlast.
    destruct (IH Hscan) as (i & Hi & Hlook & Hv & Hnewer).
    exists i. split; [lia |]. split; [assumption |]. split; [assumption |].
    intros j other Hj Hother.
    destruct (decide (j = n)) as [-> | Hne].
    - now apply Hlast.
    - apply (Hnewer j); [lia | assumption]. }
  destruct (states !! n) as [st |] eqn:Hn.
  - destruct (isValidSenderKeyState st) eqn:Hvalid.
    + intros [= <-]. exists n.
      split; [lia |]. split; [assumption |]. split; [assumption |].
      intros j other Hj. lia.
    + intros Hscan. apply Hstep; [assumption |]. now intros other [= <-].
  - intros Hscan. apply Hstep; [assumption |]. intros other. discriminate.
Qed.

Lemma scanBackward_None states n :
  scanBackward states n = None ->
  forall j other,
    (j < n)%nat -> states !! j = Some other ->
    isValidSenderKeyState other = false.
Proof.
  induction n as [| n IH]; simpl; intros Hscan j other Hj Hother; [lia |].
  destruct (states !! n) as [st |] eqn:Hn.
  - destruct (isValidSenderKeyState st) eqn:Hvalid; [discriminate |].
    destruct (decide (j = n)) as [-> | Hne]; [congruence |].
    apply (IH Hscan j); [lia | assumption].
  - destruct (decide (j = n)) as [-> | Hne]; [congruence |].
    apply (IH Hscan j); [lia | assumption].
Qed.

(** The test of the most recent state is the first step of the scan. *)
Lemma getSenderKeyState_scan r :
  senderKeyStates r <> [] ->
  getSenderKeyState None r
  = match scanBackward (senderKeyStates r) (length (senderKeyStates r)) with
    | Some state => (Some state, r)
    | None => (None, mkRecord [])
    end.
Proof.
  intros Hne. unfold getSenderKeyState.
  destruct (senderKeyStates r) as [| s0 rest] eqn:Hstates; [congruence |].
  cbn [length Nat.eqb negb].
  replace (S (length rest) - 1)%nat with (length rest) by lia.
  cbn [scanBackward].
  destruct ((s0 :: rest) !! length rest) as [recent |] eqn:Hrecent.
  - destruct (isValidSenderKeyState recent); reflexivity.
  - reflexivity.
Qed.

(** C4. Without a key id, [getSenderKeyState] returns the newest valid
    state: the stored states split into the older ones, the result, and
    newer ones that are all invalid, and the record is unchanged.  When
    no stored state is valid the result is absent and the record is
    empty afterwards. *)
Theorem getSenderKeyState_newest_valid r :
  match getSenderKeyState None r with
  | (Some state, r') =>
      r' = r
      /\ isValidSenderKeyState state = true
      /\ exists older newer,
          senderKeyStates r = (older ++ state :: newer)%list
          /\ Forall (fun s => isValidSenderKeyState s = false) newer
  | (None, r') =>
      Forall (fun s => isValidSenderKeyState s = false) (senderKeyStates r)
      /\ senderKeyStates r' = []
  end.
Proof.
  destruct (senderKeyStates r) as [| s0 rest] eqn:Hstates.
  - unfold getSenderKeyState. rewrite Hstates. simpl.
    split; [constructor | assumption].
  - rewrite getSenderKeyState_scan by (rewrite Hstates; discriminate).
    rewrite Hstates.
    destruct (scanBackward (s0 :: rest) (length (s0 :: rest)))
      as [state |] eqn:Hscan.
    + destruct (scanBackward_Some _ _ _ Hscan) as (i & Hi & Hlook & Hv & Hnewer).
      split; [reflexivity |]. split; [assumption |].
      exists (take i (s0 :: rest)), (drop (S i) (s0 :: rest)). split.
      * symmetry. now apply take_drop_middle.
      * apply Forall_forall. intros other Hin.
        apply list_elem_of_lookup in Hin as [k Hk].
        rewrite lookup_drop in Hk.
        apply (Hnewer (S i + k)%nat); [| assumption].
        split; [lia |]. now apply lookup_lt_Some in Hk.
    + split; [| reflexivity].
      apply Forall_forall. intros other Hin.
      apply list_elem_of_lookup in Hin as [k Hk].
      apply (scanBackward_None _ _ Hscan k); [| assumption].
      now apply lookup_lt_Some in Hk.
Qed.

Lemma ofStructure_getStructure states :
  map SenderKeyState_ofStructure (map getStructure states) = states.
Proof.
  induction states as [| [structure] states IH]; simpl; [reflexivity |].
  now rewrite IH.
Qed.

(** C5. Deserializing what [serialize] returns gives back the record:
    the same states in the same order, with equal key ids, iterations,
    seeds and signing keys. *)
Theorem deserialize_serialize parse utf8 r :
  deserialize parse utf8 (DataParsed (serialize r)) = Returns r.
Proof.
  unfold deserialize, serialize, SenderKeyRecord_new.
  rewrite ofStructure_getStructure. now destruct r.
Qed.

(** The constructor copies every serialized state: a record rebuilt from
    more than 5 states is outside the cap, and [addSenderKeyState] then
    keeps its length. *)
Lemma constructor_ignores_cap structures id iteration chainKey signatureKey :
  (MAX_STATES < length structures)%nat ->
  length (senderKeyStates
            (addSenderKeyState id iteration chainKey signatureKey
               (SenderKeyRecord_new (Some structures))))
  = length structures.
Proof.
  intros Hover. unfold addSenderKeyState, SenderKeyRecord_new.
  cbn [senderKeyStates]. rewrite length_app, length_map. cbn [length].
  destruct (Nat.ltb_spec MAX_STATES (length structures + 1)) as [_ | Hle]; [| lia].
  cbn [senderKeyStates].
  destruct structures as [| s0 structures]; [cbn in Hover; lia |].
  cbn. rewrite length_app, length_map. cbn. lia.
Qed.

End SenderKeyRecordProperties.

(* ===================================================================== *)
(** * Properties of the sender-key cleanup *)
(* ===================================================================== *)

Section CleanupProperties.
Import JS Cleanup.

Variable lib : JsonLib.
Variable maxStatesPerGroup : Z.

Implicit Types (u : Updates) (d : json).

Local Abbreviation verdict := (entryVerdict lib maxStatesPerGroup).

Lemma filter_length_all {A} (f : A -> bool) (l : list A) :
  Nat.eqb (length (List.filter f l)) (length l) = forallb f l.
Proof.
  assert (Hle : forall l', (length (List.filter f l') <= length l')%nat).
  { induction l' as [| y l' IH']; simpl; [lia |]. destruct (f y); simpl; lia. }
  induction l as [| x l IH]; simpl; [reflexivity |].
  destruct (f x); simpl; [exact IH |].
  specialize (Hle l).
  destruct (length (List.filter f l)) eqn:Hlen; [reflexivity |].
  apply Nat.eqb_neq. lia.
Qed.

Lemma filter_length_none {A} (f : A -> bool) (l : list A) :
  Nat.eqb (length (List.filter f l)) 0 = forallb (fun x => negb (f x)) l.
Proof.
  induction l as [| x l IH]; simpl; [reflexivity |].
  destruct (f x); simpl; [reflexivity | exact IH].
Qed.

Lemma slice_tail {A} (l : list A) :
  0 < maxStatesPerGroup ->
  slice (- maxStatesPerGroup) l
  = drop (length l - Z.to_nat maxStatesPerGroup) l.
Proof.
  intros Hpos. unfold slice.
  destruct (Z.ltb_spec (- maxStatesPerGroup) 0) as [_ | Hge]; [| lia].
  f_equal. lia.
Qed.

(** An iteration touches only the key of its own entry... *)
Lemma cleanupEntry_other u k d k' :
  k <> k' ->
  fst (cleanupEntry lib maxStatesPerGroup u (k, d)) !! k' = fst u !! k'.
Proof.
  intros Hne. unfold cleanupEntry, markDelete, markRewrite.
  repeat (match goal with
          | |- context [match ?x with _ => _ end] => destruct x
          end; simpl; rewrite ?lookup_insert_ne by assumption;
          try reflexivity).
Qed.

(** ... writes there what the entry alone decides ... *)
Lemma cleanupEntry_same u k d :
  fst (cleanupEntry lib maxStatesPerGroup u (k, d)) !! k
  = match verdict k d with
    | Some v => Some v
    | None => fst u !! k
    end.
Proof.
  unfold entryVerdict, cleanupEntry, markDelete, markRewrite.
  repeat (match goal with
          | |- context [match ?x with _ => _ end] => destruct x
          end; simpl; rewrite ?lookup_insert_eq, ?lookup_empty;
          try reflexivity).
Qed.

(** ... and raises [hasChanges] whenever it writes. *)
Lemma cleanupEntry_flag u k d :
  snd (cleanupEntry lib maxStatesPerGroup u (k, d))
  = snd u || bool_decide (is_Some (verdict k d)).
Proof.
  unfold entryVerdict, cleanupEntry, markDelete, markRewrite.
  repeat (match goal with
          | |- context [match ?x with _ => _ end] => destruct x
          end; simpl; rewrite ?lookup_insert_eq, ?lookup_empty;
          rewrite ?orb_true_r, ?orb_false_r; try reflexivity).
Qed.

Lemma cleanup_fold entries :
  forall u k d,
    NoDup (map fst entries) -> (k, d) ∈ entries ->
    let result := fold_left (cleanupEntry lib maxStatesPerGroup) entries u in
    fst result !! k
    = match verdict k d with
      | Some v => Some v
      | None => fst u !! k
      end
    /\ (is_Some (verdict k d) -> snd result = true).
Proof.
  assert (Hkeep : forall entries u k,
             k ∉ map fst entries ->
             fst (fold_left (cleanupEntry lib maxStatesPerGroup) entries u) !! k
             = fst u !! k).
  { intros entries'. induction entries' as [| [k0 d0] entries' IH];
      intros u k Hnotin; cbn [fold_left]; [reflexivity |].
    cbn [map fst] in Hnotin. apply not_elem_of_cons in Hnotin as [Hne Hnotin].
    rewrite IH by assumption. apply cleanupEntry_other. congruence. }
  assert (Hflag : forall entries u,
             snd u = true ->
             snd (fold_left (cleanupEntry lib maxStatesPerGroup) entries u) = true).
  { intros entries'. induction entries' as [| [k0 d0] entries' IH];
      intros u Hu; cbn [fold_left]; [assumption |].
    apply IH. rewrite cleanupEntry_flag, Hu. reflexivity. }
  induction entries as [| [k0 d0] entries IH]; intros u k d Hnodup Hin;
    cbn [fold_left].
  - now apply elem_of_nil in Hin.
  - cbn [map fst] in Hnodup. apply NoDup_cons in Hnodup as [Hfresh Hnodup].
    apply elem_of_cons in Hin as [[= -> ->] | Hin].
    + split.
      * rewrite Hkeep by assumption. apply cleanupEntry_same.
      * intros Hsome. apply Hflag. rewrite cleanupEntry_flag.
        rewrite (bool_decide_eq_true_2 _ Hsome). apply orb_true_r.
    + assert (Hne : k0 <> k).
      { intros ->. apply Hfresh. apply list_elem_of_fmap. now exists (k, d). }
      destruct (IH (cleanupEntry lib maxStatesPerGroup u (k0, d0)) k d Hnodup Hin)
        as [Hlook Hset].
      split; [| assumption].
      rewrite Hlook. now rewrite cleanupEntry_other by assumption.
Qed.

(** The argument of the one [keys.set] of the pass, empty when the pass
    makes no call. *)
Lemma cleanup_patch entries k d :
  NoDup (map fst entries) -> (k, d) ∈ entries ->
  default ∅ (cleanupCorruptedSenderKeys lib entries maxStatesPerGroup) !! k
  = verdict k d.
Proof.
  intros Hnodup Hin. unfold cleanupCorruptedSenderKeys.
  destruct (cleanup_fold entries (∅, false) k d Hnodup Hin) as [Hlook Hset].
  destruct (fold_left (cleanupEntry lib maxStatesPerGroup) entries (∅, false))
    as [keysToUpdate hasChanges].
  simpl in *. rewrite lookup_empty in Hlook.
  destruct hasChanges; simpl.
  - rewrite Hlook. now destruct (verdict k d).
  - rewrite lookup_empty. destruct (verdict k d) as [v |]; [| reflexivity].
    discriminate Hset. eauto.
Qed.

(** C6 (amended). For a stored entry with truthy data and a positive
    [maxStatesPerGroup]: the key is deleted when the data fails to decode
    or does not decode to a non-empty array; the states are tested with
    the structural predicate of the pass; when all pass, only the tail
    [maxStatesPerGroup] states are kept if there are more, and the entry
    is left alone otherwise; when none passes, the key is deleted; when
    only some pass, the entry is rewritten with states that pass.  An
    entry with falsy data is left alone. *)
Theorem cleanupCorruptedSenderKeys_entry entries k d :
  NoDup (map fst entries) -> (k, d) ∈ entries -> 0 < maxStatesPerGroup ->
  let patch :=
    default ∅ (cleanupCorruptedSenderKeys lib entries maxStatesPerGroup) in
  let rewritten states :=
    Some (Some (utf8_encode lib (JSON_stringify lib (JArr states)))) in
  if keyDataTruthy d then
    match parseKeyData lib d with
    | Some (JArr (s :: rest)) =>
        let states := s :: rest in
        if forallb stateLooksValid states then
          if maxStatesPerGroup <? Z.of_nat (length states)
          then patch !! k
               = rewritten (drop (length states - Z.to_nat maxStatesPerGroup) states)
          else patch !! k = None
        else if forallb (fun st => negb (stateLooksValid st)) states
        then patch !! k = Some None
        else exists kept,
            patch !! k = rewritten kept /\ kept <> []
            /\ Forall (fun st => stateLooksValid st = true /\ st ∈ states) kept
    | _ => patch !! k = Some None
    end
  else patch !! k = None.
Proof.
  intros Hnodup Hin Hpos patch rewritten. subst patch rewritten.
  rewrite (cleanup_patch entries k d Hnodup Hin).
  unfold entryVerdict, cleanupEntry.
  assert (Hdel : fst (markDelete k (∅, false)) !! k = Some None)
    by apply lookup_insert_eq.
  assert (Hdel' : forall states,
             fst (markDelete k (markRewrite lib k states (∅, false))) !! k
             = Some None) by (intros; apply lookup_insert_eq).
  assert (Hrew : forall states,
             fst (markRewrite lib k states (∅, false)) !! k
             = Some (Some (utf8_encode lib (JSON_stringify lib (JArr states)))))
    by (intros; apply lookup_insert_eq).
  assert (Hrew' : forall states states',
             fst (markRewrite lib k states (markRewrite lib k states' (∅, false)))
               !! k
             = Some (Some (utf8_encode lib (JSON_stringify lib (JArr states)))))
    by (intros; apply lookup_insert_eq).
  destruct (keyDataTruthy d); [| apply lookup_empty].
  destruct (parseKeyData lib d) as [[| | | | | items |] |]; try exact Hdel.
  destruct items as [| s rest]; [exact Hdel |].
  cbv beta iota zeta.
  change (Nat.eqb (length (s :: rest)) 0) with false. cbv iota.
  rewrite filter_length_all, filter_length_none.
  destruct (forallb stateLooksValid (s :: rest)) eqn:Hall; cbn [negb].
  - destruct (maxStatesPerGroup <? Z.of_nat (length (s :: rest))).
    + rewrite Hrew, slice_tail by assumption. reflexivity.
    + apply lookup_empty.
  - destruct (forallb (fun st => negb (stateLooksValid st)) (s :: rest)) eqn:Hnone.
    + destruct (maxStatesPerGroup <? Z.of_nat (length (s :: rest)));
        [apply Hdel' | apply Hdel].
    + exists (List.filter stateLooksValid (s :: rest)). split; [| split].
      * destruct (maxStatesPerGroup <? Z.of_nat (length (s :: rest)));
          [apply Hrew' | apply Hrew].
      * intros Hnil. rewrite <- filter_length_none, Hnil in Hnone. discriminate.
      * apply List.Forall_forall. intros st Hst.
        apply List.filter_In in Hst as [Hst Hv]. split; [assumption |].
        now apply list_elem_of_In.
Qed.

End CleanupProperties.

Section CleanupExamples.
Import JS Cleanup Scenario.

(** C6 (counterexample). A state with key id 0 fails the validity
    predicate of [SenderKeyState], yet the pass accepts it: the entry is
    neither rewritten nor deleted, and no write is made at all. *)
Lemma cleanup_keeps_invalid_state :
  SKRecord.isValidSenderKeyState
    (SKRecord.SenderKeyState_ofStructure (structureWithId 0)) = false
  /\ stateLooksValid (structureToJSON (structureWithId 0)) = true
  /\ cleanupCorruptedSenderKeys jsonLib zeroIdEntry default_maxStatesPerGroup
     = None.
Proof. vm_compute. repeat split. Qed.

(** Six well-formed states under the default bound: the five newest stay. *)
Lemma cleanupCorruptedSenderKeys_entry_witness :
  default ∅ (cleanupCorruptedSenderKeys jsonLib sixStatesEntry 5) !! senderKeyName
  = Some (Some (String.list_byte_of_string "2,3,4,5,6")).
Proof.
  assert (Hnodup : NoDup (map fst sixStatesEntry)).
  { apply NoDup_cons. split; [apply not_elem_of_nil | apply NoDup_nil_2]. }
  assert (Hin : (senderKeyName, JArr sixStates) ∈ sixStatesEntry)
    by apply list_elem_of_here.
  assert (Hpos : 0 < 5) by reflexivity.
  exact (cleanupCorruptedSenderKeys_entry jsonLib 5 sixStatesEntry senderKeyName
           (JArr sixStates) Hnodup Hin Hpos).
Defined.

(** When some states fail the test, the entry is rewritten with all the
    states that pass: here six of them, one more than the bound, since
    the trimmed array written first is overwritten. *)
Lemma cleanup_rewrite_not_trimmed :
  default ∅ (cleanupCorruptedSenderKeys jsonLib sevenStatesOneBroken 5)
    !! senderKeyName
  = Some (Some (String.list_byte_of_string "2,3,4,5,6,7")).
Proof. vm_compute. reflexivity. Qed.

End CleanupExamples.

(* ===================================================================== *)
(** * Properties of the message socket *)
(* ===================================================================== *)

Section MonadFacts.
Import MessagesSend.
Local Open Scope relay_scope.

Lemma bind_Ok {A B} (m : M A) (f : A -> M B) st b st2 :
  bind m f st = Ok b st2 ->
  exists a st1, m st = Ok a st1 /\ f a st1 = Ok b st2.
Proof.
  unfold bind. destruct (m st) as [a st1 |]; [| discriminate].
  intros Hf. now exists a, st1.
Qed.

Lemma bind_run_Ok {A B} (m : M A) (f : A -> M B) st a st1 :
  m st = Ok a st1 -> bind m f st = f a st1.
Proof. intros Hm. unfold bind. now rewrite Hm. Qed.

Lemma bind_run_Throw {A B} (m : M A) (f : A -> M B) st st1 :
  m st = Throw st1 -> bind m f st = Throw st1.
Proof. intros Hm. unfold bind. now rewrite Hm. Qed.

Lemma effectsSince_app st st' effects :
  trace st' = (trace st ++ effects)%list -> effectsSince st st' = effects.
Proof.
  intros Htrace. unfold effectsSince. rewrite Htrace. apply drop_app_length.
Qed.

Lemma effectsSince_refl st : effectsSince st st = [].
Proof. apply effectsSince_app. now rewrite app_nil_r. Qed.

(** A loop establishes what each of its iterations preserves. *)
Lemma forM_invariant {A S} (Inv : list A -> S -> State -> Prop)
    (body : S -> A -> M S) :
  (forall seen x acc st acc' st',
      Inv seen acc st -> body acc x st = Ok acc' st' ->
      Inv (seen ++ [x])%list acc' st') ->
  forall l seen acc st acc' st',
    Inv seen acc st -> forM l acc body st = Ok acc' st' ->
    Inv (seen ++ l)%list acc' st'.
Proof.
  intros Hstep l. induction l as [| x l IH]; intros seen acc st acc' st' Hinv Hrun.
  - injection Hrun as <- <-. now rewrite app_nil_r.
  - cbn [forM] in Hrun. apply bind_Ok in Hrun as (acc1 & st1 & Hbody & Hrest).
    replace (seen ++ x :: l)%list with ((seen ++ [x]) ++ l)%list
      by now rewrite <- app_assoc.
    eapply IH; [| exact Hrest]. eapply Hstep; eassumption.
Qed.

End MonadFacts.

Section ReceiptProperties.
Import JS MessagesSend.

Variable E : Env.

Local Ltac attr_lookup :=
  repeat first
    [ rewrite lookup_insert_eq
    | rewrite lookup_insert_ne by discriminate
    | rewrite lookup_empty ].

(** The attributes of the receipt, one by one. *)
Lemma receiptNode_attrs t jid participant id0 rest type :
  let node := receiptNode E t jid participant id0 rest type in
  tag node = "receipt"
  /\ attrs node !! "id" = Some (Some id0)
  /\ attrs node !! "t"
     = (if bool_decide (type = Some "read") || bool_decide (type = Some "read-self")
        then Some (Some t) else None)
  /\ (if bool_decide (type = Some "sender") && isJidUser E jid
      then attrs node !! "recipient" = Some (Some jid)
           /\ attrs node !! "to" = Some participant
           /\ attrs node !! "participant" = None
      else attrs node !! "to" = Some (Some jid)
           /\ attrs node !! "recipient" = None
           /\ attrs node !! "participant"
              = (if truthyStr participant then Some participant else None))
  /\ content node
     = match rest with
       | [] => NoContent
       | _ :: _ =>
           Children
             [Node "list" ∅
                   (Children
                      (map (fun id => Node "item" (<["id" := Some id]> ∅) NoContent)
                           rest))]
       end.
Proof.
  unfold receiptNode.
  destruct rest as [| id1 rest]; cbn [isNil];
    destruct (bool_decide (type = Some "read") || bool_decide (type = Some "read-self"));
    destruct (bool_decide (type = Some "sender") && isJidUser E jid);
    destruct (truthyStr type);
    destruct (truthyStr participant);
    cbn [tag attrs content]; attr_lookup; repeat split; reflexivity.
Qed.

(** C9. A call with no ids does nothing.  Otherwise exactly one stanza
    is emitted, a [receipt] whose [id] is the first id; it has a [t]
    attribute, the time in seconds, exactly for the types [read] and
    [read-self]; for type
    [sender] and a user JID it has [recipient = jid] and [to = participant],
    and otherwise [to = jid] and a [participant] attribute only when a
    participant is given; its content is a [list] of [item]s for the
    remaining ids exactly when there is more than one id. *)
Theorem sendReceipt_stanza jid participant messageIds type st :
  match messageIds with
  | [] => sendReceipt E jid participant messageIds type st = Ok tt st
  | id0 :: rest =>
      exists node,
        effectsSince st
          (resultState (sendReceipt E jid participant messageIds type st))
        = [ESendNode node]
        /\ tag node = "receipt"
        /\ attrs node !! "id" = Some (Some id0)
        /\ (is_Some (attrs node !! "t")
            <-> type = Some "read" \/ type = Some "read-self")
        /\ (is_Some (attrs node !! "t")
            -> attrs node !! "t" = Some (Some (pretty (unixTimestampSeconds E st))))
        /\ (if bool_decide (type = Some "sender") && isJidUser E jid
            then attrs node !! "recipient" = Some (Some jid)
                 /\ attrs node !! "to" = Some participant
            else attrs node !! "to" = Some (Some jid)
                 /\ (is_Some (attrs node !! "participant")
                     -> is_Some participant
                        /\ attrs node !! "participant" = Some participant))
        /\ (match content node with
            | NoContent => rest = []
            | Children [Node "list" _ (Children items)] =>
                rest <> []
                /\ items
                   = map (fun id => Node "item" (<["id" := Some id]> ∅) NoContent) rest
            | _ => False
            end)
  end.
Proof.
  destruct messageIds as [| id0 rest]; [reflexivity |].
  set (t := pretty (unixTimestampSeconds E st)).
  exists (receiptNode E t jid participant id0 rest type).
  destruct (receiptNode_attrs t jid participant id0 rest type)
    as (Htag & Hid & Ht & Hto & Hcontent).
  split; [| split; [assumption | split; [assumption | split; [| split; [| split]]]]].
  - apply effectsSince_app.
    unfold sendReceipt, bind, getState, sendNodeM, bind, emit. fold t.
    cbn [trace setTrace].
    destruct (sendNode E _ _); reflexivity.
  - rewrite Ht. split.
    + intros Hsome.
      destruct (bool_decide_reflect (type = Some "read")) as [-> | _];
        [now left |].
      destruct (bool_decide_reflect (type = Some "read-self")) as [-> | _];
        [now right |].
      now destruct Hsome.
    + intros [-> | ->]; simpl; eauto.
  - rewrite Ht.
    destruct (bool_decide (type = Some "read") || bool_decide (type = Some "read-self"));
      [reflexivity | intros Hsome; now destruct Hsome].
  - destruct (bool_decide (type = Some "sender") && isJidUser E jid).
    + now destruct Hto as (Hr & Hp & _).
    + destruct Hto as (Hj & _ & Hp). split; [assumption |].
      rewrite Hp. destruct participant as [p |]; simpl.
      * destruct (negb (String.eqb p "")); intros Hsome; [eauto | now destruct Hsome].
      * intros Hsome. now destruct Hsome.
  - rewrite Hcontent. destruct rest; [reflexivity |]. split; [discriminate | reflexivity].
Qed.

End ReceiptProperties.

Section MediaConnProperties.
Import MessagesSend.

Variable E : Env.

(** While a refresh is in flight every call returns its promise and
    changes nothing. *)
Lemma refreshMediaConn_inflight forces st inflight :
  pendingMediaQueries st = Some inflight ->
  mapM (refreshMediaConn E) forces st
  = Ok (map (fun _ => Some inflight) forces) st.
Proof.
  intros Hpending. induction forces as [| force forces IH]; [reflexivity |].
  cbn [mapM map]. unfold bind at 1. unfold refreshMediaConn at 1.
  rewrite Hpending. unfold bind at 1. rewrite IH. reflexivity.
Qed.

(** C7. With a refresh in flight, every caller (whatever it passes and
    whenever it calls) is handed the promise in flight and no query is
    made.  Without one, a fetch is started exactly when there is no
    current value, or the call is forced, or more than 60 seconds lie
    between the last refresh and now: one query is sent, its promise
    becomes the one in flight, and the callers that follow are handed that
    same promise.  In the remaining case the current value is returned
    and nothing changes. *)
Theorem refreshMediaConn_single_flight forceGet st :
  match pendingMediaQueries st with
  | Some inflight =>
      forall forces,
        mapM (refreshMediaConn E) forces st
        = Ok (map (fun _ => Some inflight) forces) st
  | None =>
      if negb (bool_decide (is_Some (mediaConn st)))
         || forceGet
         || (60000 <? dateNow E st - lastMediaConnRefresh st)
      then
        exists started st',
          refreshMediaConn E forceGet st = Ok (Some started) st'
          /\ effectsSince st st' = [EQuery (mediaConnQuery E)]
          /\ pendingMediaQueries st' = Some started
          /\ mediaConn st' = Some started
          /\ forall forces,
              mapM (refreshMediaConn E) forces st'
              = Ok (map (fun _ => Some started) forces) st'
      else
        refreshMediaConn E forceGet st = Ok (mediaConn st) st
        /\ is_Some (mediaConn st)
  end.
Proof.
  destruct (pendingMediaQueries st) as [inflight |] eqn:Hpending.
  - intros forces. now apply refreshMediaConn_inflight.
  - destruct (negb (bool_decide (is_Some (mediaConn st))) || forceGet
              || (60000 <? dateNow E st - lastMediaConnRefresh st)) eqn:Hstart.
    + eexists (promiseCount st), _. split.
      * unfold refreshMediaConn. rewrite Hpending.
        change MEDIA_CONN_CHECK_INTERVAL with 60000. rewrite Hstart. reflexivity.
      * split; [now apply effectsSince_app |]. split; [reflexivity |].
        split; [reflexivity |].
        intros forces. now apply refreshMediaConn_inflight.
    + split.
      * unfold refreshMediaConn. rewrite Hpending.
        change MEDIA_CONN_CHECK_INTERVAL with 60000. rewrite Hstart. reflexivity.
      * apply orb_false_elim in Hstart as [Hstart _].
        apply orb_false_elim in Hstart as [Hcurrent _].
        apply negb_false_iff in Hcurrent. now apply bool_decide_eq_true in Hcurrent.
Qed.

(** When the query settles, nothing is in flight any more: the next
    caller is served by the three-way test again. *)
Lemma mediaConnSettled_clears queryPromise now response st :
  exists st',
    mediaConnSettled E queryPromise now response st = Ok tt st'
    /\ pendingMediaQueries st' = None
    /\ mediaConn st' = mediaConn st
    /\ trace st' = trace st.
Proof. eexists. split; [reflexivity |]. repeat split. Qed.

End MediaConnProperties.

Section SessionProperties.
Import MessagesSend.
Local Open Scope relay_scope.

Variable E : Env.

Lemma filter_nil_iff {A} (f : A -> bool) (l : list A) :
  List.filter f l = [] <-> forall x, x ∈ l -> f x = false.
Proof.
  induction l as [| y l IH]; simpl.
  - split; [intros _ x Hx; now apply elem_of_nil in Hx | reflexivity].
  - destruct (f y) eqn:Hy; split.
    + discriminate.
    + intros Hall. specialize (Hall y (list_elem_of_here _ _)). congruence.
    + intros Hnil x Hx. apply elem_of_cons in Hx as [-> | Hx]; [assumption |].
      now apply IH.
    + intros Hall. apply IH. intros x Hx. apply Hall. now apply list_elem_of_further.
Qed.

Lemma addVerified_spec jid st :
  exists st',
    addVerified jid st = Ok tt st'
    /\ verifiedSessionsCache st' = {[jid]} ∪ verifiedSessionsCache st.
Proof. eexists. split; reflexivity. Qed.

(** The loop over the store's answer: every jid ends up verified or in
    the fetch list, and nothing leaves the verified set. *)
Lemma sessionLoop_spec (found : gset string) (pairs : list (string * string)) :
  forall (acc : list string) st acc' st',
    forM pairs acc
         (fun jidsRequiringFetch '(jid, signalId) =>
            if bool_decide (signalId ∈ found)
            then do! addVerified jid in ret jidsRequiringFetch
            else ret (jidsRequiringFetch ++ [jid])%list) st
    = Ok acc' st' ->
    verifiedSessionsCache st ⊆ verifiedSessionsCache st'
    /\ (forall jid, jid ∈ acc -> jid ∈ acc')
    /\ (forall jid signalId,
           (jid, signalId) ∈ pairs ->
           jid ∈ verifiedSessionsCache st' \/ jid ∈ acc').
Proof.
  induction pairs as [| [jid0 addr0] pairs IH]; intros acc st acc' st' Hrun.
  - injection Hrun as <- <-. split; [reflexivity |]. split; [tauto |].
    intros jid signalId Hin. now apply elem_of_nil in Hin.
  - cbn [forM] in Hrun. apply bind_Ok in Hrun as (acc1 & st1 & Hbody & Hrest).
    destruct (IH _ _ _ _ Hrest) as (Hmono & Hacc & Hall).
    destruct (bool_decide (addr0 ∈ found)).
    + unfold bind, addVerified, modify, ret in Hbody.
      injection Hbody as <- <-. cbn [verifiedSessionsCache setVerifiedSessionsCache] in *.
      split; [set_solver |]. split; [assumption |].
      intros jid signalId Hin. apply elem_of_cons in Hin as [[= -> ->] | Hin].
      * left. set_solver.
      * now apply (Hall jid signalId).
    + injection Hbody as <- <-.
      split; [assumption |]. split; [intros jid Hj; apply Hacc; set_solver |].
      intros jid signalId Hin. apply elem_of_cons in Hin as [[= -> ->] | Hin].
      * right. apply Hacc. set_solver.
      * now apply (Hall jid signalId).
Qed.

Lemma verifyAll_spec jids :
  forall st u st',
    forM jids tt (fun _ jid => addVerified jid) st = Ok u st' ->
    verifiedSessionsCache st' = list_to_set jids ∪ verifiedSessionsCache st.
Proof.
  induction jids as [| jid jids IH]; intros st u st' Hrun.
  - injection Hrun as <- <-. set_solver.
  - cbn [forM] in Hrun. apply bind_Ok in Hrun as (u1 & st1 & Hbody & Hrest).
    injection Hbody as <- <-. rewrite (IH _ _ _ Hrest).
    cbn [verifiedSessionsCache setVerifiedSessionsCache]. set_solver.
Qed.

(** A completed call without [force] leaves every requested jid in the
    verified set. *)
Lemma assertSessions_verifies jids st fetched st' :
  assertSessions E jids false st = Ok fetched st' ->
  forall jid, jid ∈ dedupe jids -> jid ∈ verifiedSessionsCache st'.
Proof.
  unfold assertSessions. destruct (isNil jids) eqn:Hempty.
  { destruct jids; [| discriminate]. intros _ jid Hin. now apply elem_of_nil in Hin. }
  cbn [negb andb]. unfold bind at 1. unfold getState at 1. cbv beta iota.
  set (todo := List.filter (fun jid => negb (bool_decide (jid ∈ verifiedSessionsCache st)))
                           (dedupe jids)).
  assert (Hskipped : forall jid, jid ∈ dedupe jids -> jid ∉ todo ->
                                 jid ∈ verifiedSessionsCache st).
  { intros jid Hin Hnot. destruct (decide (jid ∈ verifiedSessionsCache st)) as [| Hout];
      [assumption |].
    exfalso. apply Hnot. apply list_elem_of_In, List.filter_In. split.
    - now apply list_elem_of_In.
    - now rewrite bool_decide_eq_false_2. }
  destruct (isNil todo) eqn:Hnil.
  { unfold ret. intros [= <- <-] jid Hin. apply Hskipped; [assumption |].
    destruct todo; [apply not_elem_of_nil | discriminate]. }
  intros Hrun. apply bind_Ok in Hrun as (required & st2 & Hloop & Hrest).
  apply bind_Ok in Hloop as ([] & st1 & Hemit & Hloop).
  injection Hemit as <-.
  unfold bind at 1, getState at 1 in Hloop.
  apply sessionLoop_spec in Hloop as (Hmono & _ & Hall).
  cbn [verifiedSessionsCache setTrace] in Hmono.
  assert (Hcovered : forall jid, jid ∈ dedupe jids ->
                                 jid ∈ verifiedSessionsCache st2 \/ jid ∈ required).
  { intros jid Hin. destruct (decide (jid ∈ todo)) as [Htodo | Hnot].
    - apply (Hall jid (jidToSignalProtocolAddress E jid)).
      apply list_elem_of_lookup in Htodo as [i Hi].
      apply list_elem_of_lookup. exists i.
      apply lookup_zip_with_Some. exists jid, (jidToSignalProtocolAddress E jid).
      split; [reflexivity |]. split; [assumption |].
      now rewrite list_lookup_fmap, Hi.
    - left. apply Hmono. now apply Hskipped. }
  destruct (isNil required) eqn:Hnone.
  { injection Hrest as <- <-. intros jid Hin.
    destruct (Hcovered jid Hin) as [| Hreq]; [assumption |].
    destruct required; [now apply elem_of_nil in Hreq | discriminate]. }
  apply bind_Ok in Hrest as ([] & st3 & Hemit & Hrest). injection Hemit as <-.
  apply bind_Ok in Hrest as (result & st4 & Hquery & Hrest).
  unfold ask in Hquery. destruct (query E _ _); [| discriminate].
  injection Hquery as <- <-.
  apply bind_Ok in Hrest as ([injected completed] & st5 & Hinject & Hrest).
  injection Hinject as _ <-.
  apply bind_Ok in Hrest as ([] & st6 & Hemit & Hrest). injection Hemit as <-.
  apply bind_Ok in Hrest as ([] & st7 & Hmod & Hrest). injection Hmod as <-.
  destruct completed; [| discriminate]. cbn [negb] in Hrest.
  apply bind_Ok in Hrest as ([] & st8 & Hverify & Hrest). injection Hrest as <- <-.
  apply verifyAll_spec in Hverify. rewrite Hverify.
  cbn [verifiedSessionsCache setSessions setTrace].
  intros jid Hin. destruct (Hcovered jid Hin); set_solver.
Qed.

(** With every requested jid verified, a call without [force] returns
    [false] at once. *)
Lemma assertSessions_skips jids st :
  (forall jid, jid ∈ dedupe jids -> jid ∈ verifiedSessionsCache st) ->
  assertSessions E jids false st = Ok false st.
Proof.
  intros Hall. unfold assertSessions.
  destruct (isNil jids); [reflexivity |].
  cbn [negb andb]. unfold bind, getState.
  replace (List.filter _ (dedupe jids)) with (@nil string); [reflexivity |].
  symmetry. apply filter_nil_iff. intros jid Hin.
  now rewrite bool_decide_eq_true_2 by now apply Hall.
Qed.

(** C8. After a completed [assertSessions(J, false)], a second
    [assertSessions(J, false)] made while the verified set has lost no
    entry returns [false] and does nothing: no store read, no prekey
    query, no state change. *)
Theorem assertSessions_twice jids st fetched st1 st2 :
  assertSessions E jids false st = Ok fetched st1 ->
  verifiedSessionsCache st1 ⊆ verifiedSessionsCache st2 ->
  assertSessions E jids false st2 = Ok false st2
  /\ effectsSince st2 (resultState (assertSessions E jids false st2)) = [].
Proof.
  intros Hfirst Hkept.
  assert (Hsecond : assertSessions E jids false st2 = Ok false st2).
  { apply assertSessions_skips. intros jid Hin. apply Hkept.
    eapply assertSessions_verifies; eassumption. }
  split; [assumption |]. rewrite Hsecond. apply effectsSince_refl.
Qed.

End SessionProperties.

Section SessionExamples.
Import MessagesSend Scenario.

(** A first call fetches the session of [ana]; the second call on the
    state it leaves returns [false] and does nothing. *)
Lemma assertSessions_twice_witness :
  assertSessions env ["ana@s.whatsapp.net"] false fresh = Ok true afterFirstAssert
  /\ assertSessions env ["ana@s.whatsapp.net"] false afterFirstAssert
     = Ok false afterFirstAssert.
Proof.
  assert (Hfirst : assertSessions env ["ana@s.whatsapp.net"] false fresh
                   = Ok true afterFirstAssert).
  { vm_compute. reflexivity. }
  split; [exact Hfirst |].
  exact (proj1 (assertSessions_twice env ["ana@s.whatsapp.net"] fresh true
                  afterFirstAssert afterFirstAssert Hfirst (reflexivity _))).
Defined.

End SessionExamples.

(* ===================================================================== *)
(** * The effects of the relay, operation by operation *)
(* ===================================================================== *)

Section Footprints.
Import JS MessagesSend Observations.
Local Open Scope relay_scope.

Variable E : Env.

Implicit Types (P Q : Effect -> Prop) (st : State).

Lemma extends_refl P st : extends P st st.
Proof. exists []. split; [now rewrite app_nil_r | constructor]. Qed.

Lemma extends_trans P st1 st2 st3 :
  extends P st1 st2 -> extends P st2 st3 -> extends P st1 st3.
Proof.
  intros (e1 & H1 & F1) (e2 & H2 & F2). exists (e1 ++ e2)%list. split.
  - now rewrite H2, H1, app_assoc.
  - now apply Forall_app.
Qed.

Lemma extends_weaken P Q st st' :
  (forall e, P e -> Q e) -> extends P st st' -> extends Q st st'.
Proof.
  intros HPQ (effects & Htrace & HP). exists effects. split; [assumption |].
  eapply Forall_impl; eassumption.
Qed.

Lemma extends_effects P st st' :
  extends P st st' ->
  trace st' = (trace st ++ effectsSince st st')%list
  /\ Forall P (effectsSince st st').
Proof.
  intros (effects & Htrace & HP).
  rewrite (effectsSince_app _ _ _ Htrace). now split.
Qed.

Lemma extends_one P st st' e :
  trace st' = (trace st ++ [e])%list -> P e -> extends P st st'.
Proof. intros Htrace He. exists [e]. split; [assumption | now constructor]. Qed.

Lemma extends_same P st st' : trace st' = trace st -> extends P st st'.
Proof. intros Htrace. exists []. split; [now rewrite app_nil_r | constructor]. Qed.

Lemma preserves_weaken {A} P Q (m : M A) :
  (forall e, P e -> Q e) -> preserves (extends P) m -> preserves (extends Q) m.
Proof. intros HPQ Hm st. eapply extends_weaken; [exact HPQ | apply Hm]. Qed.

Lemma preserves_ret {A} P (a : A) : preserves (extends P) (ret a).
Proof. intros st. apply extends_refl. Qed.

Lemma preserves_throw {A} P : preserves (extends P) (@throw A).
Proof. intros st. apply extends_refl. Qed.

Lemma preserves_getState P : preserves (extends P) getState.
Proof. intros st. apply extends_refl. Qed.

Lemma preserves_ask {A} P (oracle : State -> option A) :
  preserves (extends P) (ask oracle).
Proof. intros st. unfold ask. destruct (oracle st); apply extends_refl. Qed.

Lemma preserves_consult {A} P (oracle : State -> A) :
  preserves (extends P) (consult oracle).
Proof. intros st. apply extends_refl. Qed.

Lemma preserves_modify P (f : State -> State) :
  (forall st, trace (f st) = trace st) -> preserves (extends P) (modify f).
Proof. intros Hf st. apply extends_same. apply Hf. Qed.

Lemma preserves_emit P e : P e -> preserves (extends P) (emit e).
Proof. intros He st. apply (extends_one P st _ e); [reflexivity | exact He]. Qed.

(** Sequencing, with what is known of the first part when it completes. *)
Lemma extends_bind {A B} P (m : M A) (f : A -> M B) st :
  extends P st (resultState (m st)) ->
  (forall a st', m st = Ok a st' -> extends P st' (resultState (f a st'))) ->
  extends P st (resultState (bind m f st)).
Proof.
  intros Hm Hf. unfold bind. destruct (m st) as [a st' | st'].
  - eapply extends_trans; [exact Hm | now apply Hf].
  - exact Hm.
Qed.

Lemma preserves_bind {A B} P (m : M A) (f : A -> M B) :
  preserves (extends P) m -> (forall a, preserves (extends P) (f a)) ->
  preserves (extends P) (bind m f).
Proof.
  intros Hm Hf st. apply extends_bind; [apply Hm |]. intros a st' _. apply Hf.
Qed.

Lemma preserves_forM {A S} P (l : list A) (body : S -> A -> M S) :
  (forall acc x, x ∈ l -> preserves (extends P) (body acc x)) ->
  forall acc, preserves (extends P) (forM l acc body).
Proof.
  induction l as [| x l IH]; intros Hbody acc; cbn [forM].
  - apply preserves_ret.
  - apply preserves_bind.
    + apply Hbody. apply list_elem_of_here.
    + intros acc'. apply IH. intros acc0 y Hy. apply Hbody.
      now apply list_elem_of_further.
Qed.

Lemma preserves_mapM {A B} P (f : A -> M B) (l : list A) :
  (forall x, x ∈ l -> preserves (extends P) (f x)) ->
  preserves (extends P) (mapM f l).
Proof.
  induction l as [| x l IH]; intros Hf; cbn [mapM].
  - apply preserves_ret.
  - apply preserves_bind; [apply Hf, list_elem_of_here |].
    intros y. apply preserves_bind; [| intros ys; apply preserves_ret].
    apply IH. intros z Hz. apply Hf. now apply list_elem_of_further.
Qed.

Lemma preserves_callAll {A B} P (f : A -> M B) (l : list A) :
  (forall x, x ∈ l -> preserves (extends P) (f x)) ->
  preserves (extends P) (callAll f l).
Proof.
  induction l as [| x l IH]; intros Hf; cbn [callAll].
  - apply preserves_ret.
  - assert (Hrest : preserves (extends P) (callAll f l)).
    { apply IH. intros z Hz. apply Hf. now apply list_elem_of_further. }
    intros st. pose proof (Hf x (list_elem_of_here _ _) st) as Hx.
    destruct (f x st) as [y st1 | st1]; cbn [resultState] in *.
    + eapply extends_trans; [exact Hx |].
      apply (preserves_bind P (callAll f l) (fun ys => ret (y :: ys)));
        [exact Hrest | intros ys; apply preserves_ret].
    + eapply extends_trans; [exact Hx | apply Hrest].
Qed.

Lemma preserves_both {A B} P (p : M A) (q : M B) :
  preserves (extends P) p -> preserves (extends P) q ->
  preserves (extends P) (both p q).
Proof.
  intros Hp Hq st. unfold both. pose proof (Hp st) as H1.
  destruct (p st) as [a st1 | st1]; cbn [resultState] in *.
  - pose proof (Hq st1) as H2.
    destruct (q st1) as [b st2 | st2]; cbn [resultState] in *;
      eapply extends_trans; eassumption.
  - eapply extends_trans; [exact H1 | apply Hq].
Qed.

Lemma preserves_orGenerate P msgId : preserves (extends P) (orGenerate E msgId).
Proof.
  intros st. unfold orGenerate.
  destruct msgId as [id |]; [destruct (String.eqb id "") |]; apply extends_refl.
Qed.

(** The steps shared by all footprint proofs. *)
Ltac footprint :=
  repeat first
    [ apply preserves_ret
    | apply preserves_throw
    | apply preserves_ask
    | apply preserves_consult
    | apply preserves_getState
    | apply preserves_orGenerate
    | apply preserves_modify; intros ?; reflexivity
    | apply preserves_emit; solve [exact I | simpl; tauto]
    | apply preserves_bind; [| intros ?]
    | apply preserves_forM; intros ? ? _
    | apply preserves_mapM; intros ? _
    | apply preserves_callAll; intros ? _
    | match goal with
      | |- preserves _ (if ?b then _ else _) => destruct b
      | |- preserves _ (match ?x with _ => _ end) => destruct x
      | |- preserves _ (let '(_, _) := ?x in _) => destruct x
      end ].

Section Body.
Variables (encryptTo : string -> Prop) (patchTo : list string -> Prop).

Local Abbreviation inBody := (extends (bodyEffect encryptTo patchTo)).

Lemma stampExtraAttrs_footprint message extra :
  preserves inBody (stampExtraAttrs E message extra).
Proof. unfold stampExtraAttrs. footprint. Qed.

Lemma keysGetSenderKeyMemory_footprint jid :
  preserves inBody (keysGetSenderKeyMemory jid).
Proof. unfold keysGetSenderKeyMemory. footprint. Qed.

Lemma keysSetSenderKeyMemory_footprint jid senderKeyMap :
  preserves inBody (keysSetSenderKeyMemory jid senderKeyMap).
Proof. unfold keysSetSenderKeyMemory. footprint. Qed.

Lemma getUSyncDevices_footprint jids useCache ignoreZeroDevices :
  preserves inBody (getUSyncDevices E jids useCache ignoreZeroDevices).
Proof. unfold getUSyncDevices. footprint. Qed.

Lemma assertSessions_footprint jids force :
  preserves inBody (assertSessions E jids force).
Proof.
  unfold assertSessions, addVerified. footprint.
Qed.

Lemma encryptForAll_footprint jids message extra :
  (forall jid, jid ∈ jids -> encryptTo jid) ->
  preserves inBody (encryptForAll E jids message extra).
Proof.
  intros Hencrypt. unfold encryptForAll.
  apply preserves_bind; [apply preserves_ask |]. intros patched.
  apply preserves_bind; [| intros results; apply preserves_ret].
  apply preserves_callAll. intros jid Hjid.
  apply preserves_bind; [apply preserves_emit; now apply Hencrypt |]. intros _.
  footprint.
Qed.

Lemma createParticipantNodes_footprint jids message extra :
  patchTo jids -> (forall jid, jid ∈ jids -> encryptTo jid) ->
  preserves inBody (createParticipantNodes E jids message extra).
Proof.
  intros Hpatch Hencrypt. unfold createParticipantNodes, callPatch.
  destruct (isNil jids); [apply preserves_ret |].
  apply preserves_bind; [now apply preserves_emit |]. intros _.
  now apply encryptForAll_footprint.
Qed.

Lemma ask_Ok {A} (oracle : State -> option A) st a st' :
  ask oracle st = Ok a st' -> oracle st = Some a /\ st' = st.
Proof.
  unfold ask. destruct (oracle st); [| discriminate].
  intros [= -> ->]. now split.
Qed.

(** The group and status branch: the patch callback sees the device
    list, and only the sender-key targets are encrypted to. *)
Lemma groupBranch_footprint c include extra devices senderKeyJids :
  patchTo (map (fun d => jidEncode E (user d) (deviceServer (ctx_isLid c)) (device d))
               devices) ->
  (senderKeyJids <> [] -> patchTo senderKeyJids) ->
  (forall jid, jid ∈ senderKeyJids -> encryptTo jid) ->
  preserves inBody (groupBranch E c include extra devices senderKeyJids).
Proof.
  intros Hdevices Htargets Hencrypt. unfold groupBranch.
  apply preserves_bind; [footprint |]. intros _.
  apply preserves_bind; [footprint; apply keysGetSenderKeyMemory_footprint |].
  intros senderKeyMap.
  apply preserves_bind; [footprint |]. intros _.
  apply preserves_bind; [now apply preserves_emit |]. intros _.
  apply preserves_bind; [apply preserves_ask |]. intros patched.
  apply preserves_bind; [now apply preserves_emit |]. intros _.
  apply preserves_bind; [apply preserves_ask |]. intros [ciphertext skdm].
  apply preserves_bind.
  - destruct senderKeyJids as [| j0 rest] eqn:Hjids; cbn [isNil];
      [apply preserves_ret |].
    apply preserves_bind; [apply assertSessions_footprint |]. intros _.
    apply preserves_bind; [| intros result; apply preserves_ret].
    apply createParticipantNodes_footprint; [now apply Htargets | assumption].
  - intros [participantNodes include'].
    apply preserves_bind; [apply keysSetSenderKeyMemory_footprint |].
    intros _. apply preserves_ret.
Qed.

(** The direct branch: the two lists of the classification are the
    recipients. *)
Lemma directBranch_footprint c include extra devices :
  (forall meDecoded allJids meJids otherJids,
      jidDecode E (meId E) = Some meDecoded ->
      classifyDevices E (ctx_isLid c) (jid_user meDecoded) devices
      = Some (allJids, meJids, otherJids) ->
      (meJids <> [] -> patchTo meJids)
      /\ (otherJids <> [] -> patchTo otherJids)
      /\ (forall jid, jid ∈ meJids \/ jid ∈ otherJids -> encryptTo jid)) ->
  preserves inBody (directBranch E c include extra devices).
Proof.
  intros Hclass st. unfold directBranch.
  apply extends_bind; [apply preserves_ask |]. intros meDecoded st1 Hme.
  apply ask_Ok in Hme as [Hme ->].
  apply extends_bind; [apply preserves_ask |].
  intros [[allJids meJids] otherJids] st2 Hcls.
  apply ask_Ok in Hcls as [Hcls ->].
  destruct (Hclass _ _ _ _ Hme Hcls) as (Hmine & Hothers & Hencrypt).
  apply preserves_bind; [apply assertSessions_footprint |]. intros _.
  apply preserves_bind.
  { destruct meJids as [| j0 rest] eqn:Hjids; cbn [isNil]; [apply preserves_ret |].
    apply preserves_emit. now apply Hmine. }
  intros _. apply preserves_bind.
  { destruct otherJids as [| j0 rest] eqn:Hjids; cbn [isNil]; [apply preserves_ret |].
    apply preserves_emit. now apply Hothers. }
  intros _. apply preserves_bind; [| intros [mine others]; apply preserves_ret].
  apply preserves_both.
  - destruct meJids as [| j0 rest] eqn:Hjids; cbn [isNil]; [apply preserves_ret |].
    apply encryptForAll_footprint. intros jid Hjid. apply Hencrypt. now left.
  - destruct otherJids as [| j0 rest] eqn:Hjids; cbn [isNil]; [apply preserves_ret |].
    apply encryptForAll_footprint. intros jid Hjid. apply Hencrypt. now right.
Qed.

End Body.


End Footprints.

(* ===================================================================== *)
(** * The sender-key memory across the operations *)
(* ===================================================================== *)

Section MemoryFrames.
Import JS MessagesSend Observations.
Local Open Scope relay_scope.

Variable E : Env.

Lemma keepsMemory_ret {A} (a : A) : keepsMemory (ret a).
Proof. intros st a' st' [= _ <-]. reflexivity. Qed.

Lemma keepsMemory_getState : keepsMemory getState.
Proof. intros st a' st' [= _ <-]. reflexivity. Qed.

Lemma keepsMemory_ask {A} (oracle : State -> option A) : keepsMemory (ask oracle).
Proof. intros st a st' Hask. now apply ask_Ok in Hask as [_ ->]. Qed.

Lemma keepsMemory_emit e : keepsMemory (emit e).
Proof. intros st [] st' [= <-]. reflexivity. Qed.

Lemma keepsMemory_modify (f : State -> State) :
  (forall st, senderKeyMemory (f st) = senderKeyMemory st) ->
  keepsMemory (modify f).
Proof. intros Hf st [] st' [= <-]. apply Hf. Qed.

Lemma keepsMemory_bind {A B} (m : M A) (f : A -> M B) :
  keepsMemory m -> (forall a, keepsMemory (f a)) -> keepsMemory (bind m f).
Proof.
  intros Hm Hf st b st2 Hrun. apply bind_Ok in Hrun as (a & st1 & H1 & H2).
  rewrite (Hf a _ _ _ H2). now apply (Hm _ _ _ H1).
Qed.

Lemma keepsMemory_forM {A S} (l : list A) (body : S -> A -> M S) :
  (forall acc x, keepsMemory (body acc x)) ->
  forall acc, keepsMemory (forM l acc body).
Proof.
  intros Hbody. induction l as [| x l IH]; intros acc; cbn [forM].
  - apply keepsMemory_ret.
  - apply keepsMemory_bind; [apply Hbody | intros acc'; apply IH].
Qed.

Lemma keepsMemory_mapM {A B} (f : A -> M B) (l : list A) :
  (forall x, keepsMemory (f x)) -> keepsMemory (mapM f l).
Proof.
  intros Hf. induction l as [| x l IH]; cbn [mapM].
  - apply keepsMemory_ret.
  - apply keepsMemory_bind; [apply Hf |]. intros y.
    apply keepsMemory_bind; [apply IH |]. intros ys. apply keepsMemory_ret.
Qed.

Lemma callAll_Ok {A B} (f : A -> M B) (l : list A) st ys st' :
  callAll f l st = Ok ys st' -> mapM f l st = Ok ys st'.
Proof.
  revert st ys st'. induction l as [| x l IH]; intros st ys st'; cbn [callAll mapM].
  - trivial.
  - unfold bind at 2. destruct (f x st) as [y st1 | st1]; [| discriminate].
    intros Hrest. apply bind_Ok in Hrest as (ys' & st2 & Hrest & Hret).
    unfold bind. now rewrite (IH _ _ _ Hrest).
Qed.

Lemma both_Ok {A B} (p : M A) (q : M B) st r st' :
  both p q st = Ok r st' ->
  exists st1, p st = Ok (fst r) st1 /\ q st1 = Ok (snd r) st'.
Proof.
  unfold both. destruct (p st) as [a st1 | st1]; [| discriminate].
  destruct (q st1) as [b st2 | st2] eqn:Hq; [| discriminate].
  intros [= <- <-]. now exists st1.
Qed.

Lemma keepsMemory_consult {A} (oracle : State -> A) : keepsMemory (consult oracle).
Proof. intros st a st' [= _ <-]. reflexivity. Qed.

Lemma keepsMemory_throw {A} : keepsMemory (@throw A).
Proof. intros st a st'. discriminate. Qed.

Lemma keepsMemory_callAll {A B} (f : A -> M B) (l : list A) :
  (forall x, keepsMemory (f x)) -> keepsMemory (callAll f l).
Proof.
  intros Hf st ys st' Hrun. apply callAll_Ok in Hrun.
  revert Hrun. now apply keepsMemory_mapM.
Qed.

Lemma keepsMemory_both {A B} (p : M A) (q : M B) :
  keepsMemory p -> keepsMemory q -> keepsMemory (both p q).
Proof.
  intros Hp Hq st r st' Hrun. apply both_Ok in Hrun as (st1 & H1 & H2).
  rewrite (Hq _ _ _ H2). now apply (Hp _ _ _ H1).
Qed.

Lemma keepsMemory_orGenerate msgId : keepsMemory (orGenerate E msgId).
Proof.
  intros st a st'. unfold orGenerate, ret.
  destruct msgId as [id |]; [destruct (String.eqb id "") |];
    intros [= _ <-]; reflexivity.
Qed.

Ltac memory_frame :=
  repeat first
    [ apply keepsMemory_ret
    | apply keepsMemory_throw
    | apply keepsMemory_ask
    | apply keepsMemory_consult
    | apply keepsMemory_getState
    | apply keepsMemory_emit
    | apply keepsMemory_orGenerate
    | apply keepsMemory_modify; intros ?; reflexivity
    | apply keepsMemory_bind; [| intros ?]
    | apply keepsMemory_forM; intros ? ?
    | apply keepsMemory_mapM; intros ?
    | apply keepsMemory_callAll; intros ?
    | match goal with
      | |- keepsMemory (if ?b then _ else _) => destruct b
      | |- keepsMemory (match ?x with _ => _ end) => destruct x
      | |- keepsMemory (let '(_, _) := ?x in _) => destruct x
      end ].

Lemma stampExtraAttrs_memory message extra :
  keepsMemory (stampExtraAttrs E message extra).
Proof. unfold stampExtraAttrs. memory_frame. Qed.

Lemma getUSyncDevices_memory jids useCache ignoreZeroDevices :
  keepsMemory (getUSyncDevices E jids useCache ignoreZeroDevices).
Proof. unfold getUSyncDevices. memory_frame. Qed.

Lemma assertSessions_memory jids force : keepsMemory (assertSessions E jids force).
Proof. unfold assertSessions, addVerified. memory_frame. Qed.

Lemma createParticipantNodes_memory jids message extra :
  keepsMemory (createParticipantNodes E jids message extra).
Proof. unfold createParticipantNodes, callPatch, encryptForAll. memory_frame. Qed.

(** Conclude from a completed run [H : m st = Ok a st'] of a
    memory-keeping [m]. *)
Ltac keeps_from H :=
  match type of H with
  | ?m ?st = Ok _ _ =>
      let K := fresh "K" in
      assert (K : keepsMemory m)
        by (memory_frame;
            first [ apply stampExtraAttrs_memory
                  | apply getUSyncDevices_memory
                  | apply assertSessions_memory
                  | apply createParticipantNodes_memory ]);
      exact (K _ _ _ H)
  end.


(** Reading the memory returns the stored map, or the empty one. *)
Lemma keysGetSenderKeyMemory_Ok jid st senderKeyMap st' :
  keysGetSenderKeyMemory jid st = Ok senderKeyMap st' ->
  senderKeyMap = default ∅ (senderKeyMemory st !! jid)
  /\ senderKeyMemory st' = senderKeyMemory st
  /\ trace st' = (trace st ++ [EKeysGet "sender-key-memory" [jid]])%list.
Proof. intros [= <- <-]. repeat split. Qed.

Lemma keysSetSenderKeyMemory_Ok jid senderKeyMap st u st' :
  keysSetSenderKeyMemory jid senderKeyMap st = Ok u st' ->
  senderKeyMemory st' = <[jid := senderKeyMap]> (senderKeyMemory st)
  /\ trace st' = (trace st ++ [EKeysSetSenderKeyMemory jid senderKeyMap])%list.
Proof. destruct u. intros [= <-]. split; reflexivity. Qed.

Lemma sameMemory_refl st : sameMemory st st.
Proof. intros group. reflexivity. Qed.

Lemma sameMemory_eq st st' :
  senderKeyMemory st' = senderKeyMemory st -> sameMemory st st'.
Proof. intros Heq group. now rewrite Heq. Qed.

Lemma sameMemory_trans st1 st2 st3 :
  sameMemory st1 st2 -> sameMemory st2 st3 -> sameMemory st1 st3.
Proof. intros H12 H23 group. now rewrite H23, H12. Qed.

(** Writing back the map that was read changes no reading. *)
Lemma sameMemory_write_back jid st st' :
  senderKeyMemory st'
  = <[jid := default ∅ (senderKeyMemory st !! jid)]> (senderKeyMemory st) ->
  sameMemory st st'.
Proof.
  intros Heq group. rewrite Heq.
  destruct (decide (jid = group)) as [-> | Hne].
  - now rewrite lookup_insert_eq.
  - now rewrite lookup_insert_ne.
Qed.

(** A completed group branch for a group that is not the status list
    leaves every reading of the memory as it was. *)
Lemma groupBranch_memory c include extra devices senderKeyJids st r st' :
  ctx_isStatus c = false ->
  groupBranch E c include extra devices senderKeyJids st = Ok r st' ->
  sameMemory st st'.
Proof.
  intros Hstatus Hrun. unfold groupBranch in Hrun. rewrite Hstatus in Hrun.
  cbn [negb andb] in Hrun.
  apply bind_Ok in Hrun as ([] & st1 & H1 & Hrun).
  assert (M1 : senderKeyMemory st1 = senderKeyMemory st) by keeps_from H1.
  apply bind_Ok in Hrun as (senderKeyMap & st2 & H2 & Hrun).
  apply keysGetSenderKeyMemory_Ok in H2 as (Hmap & M2 & _).
  apply bind_Ok in Hrun as ([] & st3 & H3 & Hrun).
  assert (M3 : senderKeyMemory st3 = senderKeyMemory st2) by keeps_from H3.
  apply bind_Ok in Hrun as ([] & st4 & H4 & Hrun).
  apply keepsMemory_emit in H4 as M4.
  apply bind_Ok in Hrun as (patched & st5 & H5 & Hrun).
  apply keepsMemory_ask in H5 as M5.
  apply bind_Ok in Hrun as ([] & st6 & H6 & Hrun).
  apply keepsMemory_emit in H6 as M6.
  apply bind_Ok in Hrun as ([ciphertext skdm] & st7 & H7 & Hrun).
  apply keepsMemory_ask in H7 as M7.
  apply bind_Ok in Hrun as ([participantNodes include'] & st8 & H8 & Hrun).
  assert (M8 : senderKeyMemory st8 = senderKeyMemory st7) by keeps_from H8.
  apply bind_Ok in Hrun as ([] & st9 & H9 & Hrun).
  apply keysSetSenderKeyMemory_Ok in H9 as (M9 & _).
  injection Hrun as _ <-.
  apply (sameMemory_write_back (ctx_jid c)).
  rewrite M9, M8, M7, M6, M5, M4, M3, M2, Hmap, M1. reflexivity.
Qed.

End MemoryFrames.

(* ===================================================================== *)
(** * One dispatch *)
(* ===================================================================== *)

Section Dispatch.
Import JS MessagesSend Observations.
Local Open Scope relay_scope.

Variable E : Env.

Lemma orGenerate_Ok msgId st id st' : orGenerate E msgId st = Ok id st' -> st' = st.
Proof.
  unfold orGenerate, ret.
  destruct msgId as [m |]; [destruct (String.eqb m "") |]; now intros [= _ <-].
Qed.

Lemma orGenerate_total msgId st : exists id, orGenerate E msgId st = Ok id st.
Proof.
  unfold orGenerate.
  destruct msgId as [m |]; [destruct (String.eqb m "") |]; eexists; reflexivity.
Qed.

Lemma sendNodeM_Ok stanza st u st' :
  sendNodeM E stanza st = Ok u st' ->
  st' = setTrace (trace st ++ [ESendNode stanza]) st.
Proof.
  unfold sendNodeM, bind, emit. destruct (sendNode E _ stanza); [| discriminate].
  now intros [= _ <-].
Qed.

Lemma sendNodeM_footprint P stanza :
  P (ESendNode stanza) -> preserves (extends P) (sendNodeM E stanza).
Proof.
  intros HP. unfold sendNodeM.
  apply preserves_bind; [now apply preserves_emit |]. intros _ st.
  destruct (sendNode E st stanza); apply extends_refl.
Qed.

Lemma transaction_Ok {A} (body : M A) st a st' :
  transaction body st = Ok a st' ->
  exists st1,
    body (setTrace (trace st ++ [ETransactionBegin]) st) = Ok a st1
    /\ st' = updTrace (fun t => (t ++ [ETransactionEnd])%list) st1.
Proof.
  unfold transaction, bind, emit.
  destruct (body _) as [a1 st1 |]; [| discriminate].
  intros [= <- <-]. now exists st1.
Qed.

Lemma transaction_footprint {A} P (body : M A) :
  P ETransactionBegin -> P ETransactionEnd ->
  preserves (extends P) body -> preserves (extends P) (transaction body).
Proof.
  intros Hbegin Hend Hbody st. unfold transaction.
  pose proof (preserves_bind P (emit ETransactionBegin) (fun _ => body)
                (preserves_emit P _ Hbegin) (fun _ => Hbody) st) as Hrun.
  destruct (bind (emit ETransactionBegin) (fun _ => body) st) as [a st1 | st1];
    cbn [resultState] in *.
  - eapply extends_trans; [exact Hrun |].
    now apply (extends_one P st1 _ ETransactionEnd).
  - eapply extends_trans; [exact Hrun |]. now apply extends_same.
Qed.

(** Whatever its outcome, a dispatch encrypts and patches only what its
    transaction body does. *)
Lemma sendToParticipants_footprint encryptTo patchTo c l devices senderKeyJids :
  preserves (extends (bodyEffect encryptTo patchTo))
            (buildStanza E c l devices senderKeyJids) ->
  preserves (extends (relayEffect encryptTo patchTo))
            (sendToParticipants E c l devices senderKeyJids).
Proof.
  intros Hbody. unfold sendToParticipants.
  destruct (isNil devices).
  - apply preserves_bind; [apply preserves_orGenerate |]. intros id.
    apply preserves_ret.
  - apply preserves_bind.
    + apply transaction_footprint; [exact I | exact I |].
      apply preserves_bind.
      * eapply preserves_weaken; [| exact Hbody].
        intros []; simpl; tauto.
      * intros [stanza l'].
        apply preserves_bind; [now apply sendNodeM_footprint |].
        intros _. apply preserves_ret.
    + intros l'. apply preserves_bind; [apply preserves_orGenerate |].
      intros id. apply preserves_ret.
Qed.


(** A completed dispatch to a group leaves the readings of the memory
    as they were. *)
Lemma sendToParticipants_memory c l devices senderKeyJids st r st' :
  ctx_isGroup c || ctx_isStatus c = true -> ctx_isStatus c = false ->
  sendToParticipants E c l devices senderKeyJids st = Ok r st' ->
  sameMemory st st'.
Proof.
  intros Hgroup Hstatus. unfold sendToParticipants.
  destruct (isNil devices).
  - intros Hrun. apply bind_Ok in Hrun as (id & st1 & Hid & Hret).
    apply orGenerate_Ok in Hid as ->. injection Hret as _ <-.
    apply sameMemory_refl.
  - intros Hrun.
    apply bind_Ok in Hrun as (l' & st1 & Htx & Hrun).
    apply bind_Ok in Hrun as (id & st2 & Hid & Hret).
    apply orGenerate_Ok in Hid as ->. injection Hret as _ <-.
    apply transaction_Ok in Htx as (st3 & Hrun & ->).
    apply bind_Ok in Hrun as ([stanza l1] & st4 & Hbuild & Hrun).
    apply bind_Ok in Hrun as ([] & st5 & Hsend & Hret).
    injection Hret as _ <-. apply sendNodeM_Ok in Hsend as ->.
    unfold buildStanza in Hbuild. rewrite Hgroup in Hbuild.
    apply bind_Ok in Hbuild as (extra & st6 & Hstamp & Hbuild).
    apply stampExtraAttrs_memory in Hstamp as Mstamp.
    apply bind_Ok in Hbuild as ([[content0 nodes] include] & st7 & Hbranch & Hret).
    injection Hret as _ _ <-.
    apply groupBranch_memory in Hbranch; [| assumption].
    intros group. cbn [senderKeyMemory updTrace setTrace].
    rewrite (Hbranch group), Mstamp. reflexivity.
Qed.

(** The body of a dispatch to a group or to the status list encrypts
    only to the sender-key targets. *)
Lemma buildStanza_group_footprint encryptTo patchTo c l devices senderKeyJids :
  ctx_isGroup c || ctx_isStatus c = true ->
  patchTo (map (fun d => jidEncode E (user d) (deviceServer (ctx_isLid c)) (device d))
               devices) ->
  (senderKeyJids <> [] -> patchTo senderKeyJids) ->
  (forall jid, jid ∈ senderKeyJids -> encryptTo jid) ->
  preserves (extends (bodyEffect encryptTo patchTo))
            (buildStanza E c l devices senderKeyJids).
Proof.
  intros Hgroup Hdevices Htargets Hencrypt. unfold buildStanza. rewrite Hgroup.
  apply preserves_bind; [apply stampExtraAttrs_footprint |]. intros extra.
  apply preserves_bind; [now apply groupBranch_footprint |].
  intros [[content0 nodes] include]. apply preserves_ret.
Qed.

Lemma buildStanza_direct_footprint encryptTo patchTo c l devices senderKeyJids :
  ctx_isGroup c || ctx_isStatus c = false ->
  (forall meDecoded allJids meJids otherJids,
      jidDecode E (meId E) = Some meDecoded ->
      classifyDevices E (ctx_isLid c) (jid_user meDecoded) devices
      = Some (allJids, meJids, otherJids) ->
      (meJids <> [] -> patchTo meJids)
      /\ (otherJids <> [] -> patchTo otherJids)
      /\ (forall jid, jid ∈ meJids \/ jid ∈ otherJids -> encryptTo jid)) ->
  preserves (extends (bodyEffect encryptTo patchTo))
            (buildStanza E c l devices senderKeyJids).
Proof.
  intros Hdirect Hclass. unfold buildStanza. rewrite Hdirect.
  apply preserves_bind; [apply stampExtraAttrs_footprint |]. intros extra.
  apply preserves_bind; [now apply directBranch_footprint |].
  intros [[content0 nodes] include]. apply preserves_ret.
Qed.

End Dispatch.

(* ===================================================================== *)
(** * The relay with a participant override *)
(* ===================================================================== *)

Section ParticipantOverride.
Import JS MessagesSend Observations ObservationsMore RelayContext Override.
Local Open Scope relay_scope.

Variable E : Env.

(** The classification of a single device yields a single jid. *)
Lemma classifyDevices_single isLid meUser d allJids meJids otherJids :
  classifyDevices E isLid meUser [d] = Some (allJids, meJids, otherJids) ->
  exists deviceJid,
    allJids = [deviceJid]
    /\ ((String.eqb (user d) meUser = true /\ meJids = [deviceJid] /\ otherJids = [])
        \/ (String.eqb (user d) meUser = false
            /\ meJids = [] /\ otherJids = [deviceJid])).
Proof.
  cbn [classifyDevices].
  destruct (if String.eqb (user d) meUser && isLid then _ else _) as [encoded |];
    [| discriminate].
  cbn. destruct (String.eqb (user d) meUser); intros [= <- <- <-];
    eexists; split; try reflexivity; [left | right]; repeat split; reflexivity.
Qed.

(** ** The outgoing effects of completed steps *)

Lemma outgoingSince_refl st : outgoingSince [] st st.
Proof. exists []. split; [now rewrite app_nil_r | reflexivity]. Qed.

Lemma outgoingSince_trans xs ys st1 st2 st3 :
  outgoingSince xs st1 st2 -> outgoingSince ys st2 st3 ->
  outgoingSince (xs ++ ys) st1 st3.
Proof.
  intros (e1 & T1 & F1) (e2 & T2 & F2). exists (e1 ++ e2)%list. split.
  - now rewrite T2, T1, app_assoc.
  - now rewrite List.filter_app, F1, F2.
Qed.

Lemma outgoingSince_emit e st u st' :
  emit e st = Ok u st' -> outgoingSince (if outgoing e then [e] else []) st st'.
Proof.
  destruct u. intros [= <-]. exists [e]. split; [reflexivity |].
  cbn. now destruct (outgoing e).
Qed.

Local Abbreviation inward := (extends (fun e => outgoing e = false)).

Lemma outgoingSince_inward {A} (m : M A) st a st' :
  preserves inward m -> m st = Ok a st' -> outgoingSince [] st st'.
Proof.
  intros Hm Hrun. specialize (Hm st). rewrite Hrun in Hm.
  destruct Hm as (effects & Htrace & Hall). exists effects. split; [assumption |].
  clear Htrace. induction Hall as [| e effects He _ IH]; [reflexivity |].
  cbn [List.filter]. rewrite He. exact IH.
Qed.

Local Ltac walk :=
  repeat first
    [ apply preserves_ret
    | apply preserves_throw
    | apply preserves_ask
    | apply preserves_consult
    | apply preserves_getState
    | apply preserves_orGenerate
    | apply preserves_modify; intros ?; reflexivity
    | apply preserves_emit; reflexivity
    | apply preserves_bind; [| intros ?]
    | apply preserves_forM; intros ? ? _
    | match goal with
      | |- preserves _ (if ?b then _ else _) => destruct b
      | |- preserves _ (match ?x with _ => _ end) => destruct x
      | |- preserves _ (let '(_, _) := ?x in _) => destruct x
      end ].

Lemma stampExtraAttrs_inward message extra :
  preserves inward (stampExtraAttrs E message extra).
Proof. unfold stampExtraAttrs. walk. Qed.

Lemma assertSessions_inward jids force :
  preserves inward (assertSessions E jids force).
Proof. unfold assertSessions, addVerified. walk. Qed.

Lemma keysGetSenderKeyMemory_inward jid : preserves inward (keysGetSenderKeyMemory jid).
Proof. unfold keysGetSenderKeyMemory. walk. Qed.

Lemma keysSetSenderKeyMemory_inward jid senderKeyMap :
  preserves inward (keysSetSenderKeyMemory jid senderKeyMap).
Proof. unfold keysSetSenderKeyMemory. walk. Qed.

(** A completed group branch for one device and no sender-key target:
    one patch call for the device, one group encryption, no participant
    node. *)
Lemma groupBranch_single c include extra dev st r st' :
  groupBranch E c include extra [dev] [] st = Ok r st' ->
  exists data ciphertext,
    outgoingSince
      [EPatchMessage (ctx_message c)
         [jidEncode E (user dev) (deviceServer (ctx_isLid c)) (device dev)];
       EEncryptGroup (ctx_destinationJid c) data] st st'
    /\ r = ([Node "enc" (<["v" := Some "2"]> (<["type" := Some "skmsg"]> ∅))
                  (Data ciphertext)], [], include).
Proof.
  unfold groupBranch. intros Hrun.
  apply bind_Ok in Hrun as ([] & st1 & H1 & Hrun).
  apply outgoingSince_inward in H1; [| walk].
  apply bind_Ok in Hrun as (senderKeyMap & st2 & H2 & Hrun).
  apply outgoingSince_inward in H2;
    [| destruct (negb (ctx_isStatus c));
       [apply keysGetSenderKeyMemory_inward | apply preserves_ret]].
  apply bind_Ok in Hrun as ([] & st3 & H3 & Hrun).
  apply outgoingSince_inward in H3; [| walk].
  apply bind_Ok in Hrun as ([] & st4 & H4 & Hrun).
  apply outgoingSince_emit in H4. cbn [outgoing map] in H4.
  apply bind_Ok in Hrun as (patched & st5 & H5 & Hrun).
  apply ask_Ok in H5 as [_ ->].
  apply bind_Ok in Hrun as ([] & st6 & H6 & Hrun).
  apply outgoingSince_emit in H6. cbn [outgoing] in H6.
  apply bind_Ok in Hrun as ([ciphertext skdm] & st7 & H7 & Hrun).
  apply ask_Ok in H7 as [_ ->].
  cbn [isNil] in Hrun.
  apply bind_Ok in Hrun as ([nodes include'] & st8 & H8 & Hrun).
  injection H8 as <- <- <-.
  apply bind_Ok in Hrun as ([] & st9 & H9 & Hret).
  apply outgoingSince_inward in H9; [| apply keysSetSenderKeyMemory_inward].
  injection Hret as <- <-.
  exists (encodeWAMessage E patched), ciphertext. split; [| reflexivity].
  pose proof (outgoingSince_trans _ _ _ _ _ H1
                (outgoingSince_trans _ _ _ _ _ H2
                   (outgoingSince_trans _ _ _ _ _ H3
                      (outgoingSince_trans _ _ _ _ _ H4
                         (outgoingSince_trans _ _ _ _ _ H6 H9))))) as Hall.
  exact Hall.
Qed.

(** The encryptions of a completed call for one jid. *)
Lemma encryptForAll_single jid message extra st r st' :
  encryptForAll E [jid] message extra st = Ok r st' ->
  exists data enc pk,
    outgoingSince [EEncrypt jid data] st st'
    /\ r = ([Node "to" (<["jid" := Some jid]> ∅) (Children [enc])], pk).
Proof.
  unfold encryptForAll. intros Hrun.
  apply bind_Ok in Hrun as (patched & st1 & H1 & Hrun).
  apply ask_Ok in H1 as [_ ->].
  apply bind_Ok in Hrun as (results & st2 & H2 & Hret).
  injection Hret as <- <-.
  apply callAll_Ok in H2. cbn [mapM] in H2.
  apply bind_Ok in H2 as ([pk node] & st3 & Hone & H2).
  apply bind_Ok in H2 as (rest & st4 & Hrest & Hret).
  injection Hrest as <- <-. injection Hret as <- <-.
  apply bind_Ok in Hone as ([] & st5 & Hemit & Hone).
  apply outgoingSince_emit in Hemit. cbn [outgoing] in Hemit.
  apply bind_Ok in Hone as ([type ciphertext] & st6 & Hask & Hret).
  apply ask_Ok in Hask as [_ ->]. injection Hret as <- <- <-.
  eexists _, _, _. split; [exact Hemit |]. cbn. rewrite orb_false_r. reflexivity.
Qed.

(** A completed direct branch for one device: one patch call and one
    encryption, both for the jid of the classification, and one
    participant node for it. *)
Lemma directBranch_single c include extra dev st r st' :
  directBranch E c include extra [dev] st = Ok r st' ->
  exists meDecoded target meJids otherJids data enc pk,
    jidDecode E (meId E) = Some meDecoded
    /\ classifyDevices E (ctx_isLid c) (jid_user meDecoded) [dev]
       = Some ([target], meJids, otherJids)
    /\ outgoingSince
         [EPatchMessage
            (if String.eqb (user dev) (jid_user meDecoded)
             then meMsg (ctx_destinationJid c) (ctx_message c)
             else ctx_message c) [target];
          EEncrypt target data] st st'
    /\ r = ([], [Node "to" (<["jid" := Some target]> ∅) (Children [enc])],
            include || pk).
Proof.
  unfold directBranch. intros Hrun.
  apply bind_Ok in Hrun as (meDecoded & st1 & H1 & Hrun).
  apply ask_Ok in H1 as [Hme ->].
  apply bind_Ok in Hrun as ([[allJids meJids] otherJids] & st2 & H2 & Hrun).
  apply ask_Ok in H2 as [Hclass ->].
  destruct (classifyDevices_single _ _ _ _ _ _ Hclass)
    as (target & -> & [(Hmine & -> & ->) | (Hmine & -> & ->)]).
  - apply bind_Ok in Hrun as (fetched & st3 & H3 & Hrun).
    apply outgoingSince_inward in H3; [| apply assertSessions_inward].
    cbn [isNil] in Hrun.
    apply bind_Ok in Hrun as ([] & st4 & H4 & Hrun).
    apply outgoingSince_emit in H4. cbn [outgoing] in H4.
    apply bind_Ok in Hrun as ([] & st5 & H5 & Hrun). injection H5 as <-.
    apply bind_Ok in Hrun as ([mine others] & st6 & H6 & Hret).
    apply both_Ok in H6 as (st7 & Hmine' & Hothers). cbn [fst snd] in *.
    injection Hothers as <- <-.
    apply encryptForAll_single in Hmine' as (data & enc & pk & Henc & ->).
    injection Hret as <- <-.
    exists meDecoded, target, [target], [], data, enc, pk.
    split; [exact Hme |]. split; [exact Hclass |]. rewrite Hmine.
    split; [| cbn; now rewrite orb_false_r].
    exact (outgoingSince_trans _ _ _ _ _ H3 (outgoingSince_trans _ _ _ _ _ H4 Henc)).
  - apply bind_Ok in Hrun as (fetched & st3 & H3 & Hrun).
    apply outgoingSince_inward in H3; [| apply assertSessions_inward].
    cbn [isNil] in Hrun.
    apply bind_Ok in Hrun as ([] & st4 & H4 & Hrun). injection H4 as <-.
    apply bind_Ok in Hrun as ([] & st5 & H5 & Hrun).
    apply outgoingSince_emit in H5. cbn [outgoing] in H5.
    apply bind_Ok in Hrun as ([mine others] & st6 & H6 & Hret).
    apply both_Ok in H6 as (st7 & Hmine' & Hothers). cbn [fst snd] in *.
    injection Hmine' as <- <-.
    apply encryptForAll_single in Hothers as (data & enc & pk & Henc & ->).
    injection Hret as <- <-.
    exists meDecoded, target, [], [target], data, enc, pk.
    split; [exact Hme |]. split; [exact Hclass |]. rewrite Hmine.
    split; [| cbn; now rewrite orb_false_r].
    exact (outgoingSince_trans _ _ _ _ _ H3 (outgoingSince_trans _ _ _ _ _ H5 Henc)).
Qed.

(** A completed dispatch to a non-empty device list sends the stanza of
    its body after the outgoing effects of the body. *)
Lemma sendToParticipants_outgoing c l devices senderKeyJids st r st' :
  devices <> [] ->
  sendToParticipants E c l devices senderKeyJids st = Ok r st' ->
  exists stanza l1 stA stB,
    buildStanza E c l devices senderKeyJids stA = Ok (stanza, l1) stB
    /\ forall xs,
        outgoingSince xs stA stB ->
        outgoingSince (xs ++ [ESendNode stanza]) st st'.
Proof.
  intros Hne. unfold sendToParticipants.
  destruct devices as [| d0 devices0] eqn:Hdevices; [congruence |]. cbn [isNil].
  rewrite <- Hdevices in *. intros Hrun.
  apply bind_Ok in Hrun as (l' & st1 & Htx & Hrun).
  apply bind_Ok in Hrun as (id & st2 & Hid & Hret).
  apply orGenerate_Ok in Hid as ->. injection Hret as _ <-.
  apply transaction_Ok in Htx as (st3 & Hrun & ->).
  apply bind_Ok in Hrun as ([stanza l1] & st4 & Hbuild & Hrun).
  apply bind_Ok in Hrun as ([] & st5 & Hsend & Hret).
  injection Hret as _ <-. apply sendNodeM_Ok in Hsend as ->.
  exists stanza, l1, (setTrace (trace st ++ [ETransactionBegin]) st), st4.
  split; [exact Hbuild |].
  intros xs (effects & Htrace & Hfilter).
  exists (ETransactionBegin :: effects ++ [ESendNode stanza; ETransactionEnd])%list.
  split.
  - cbn [trace updTrace setTrace] in *. rewrite Htrace, <- !app_assoc. reflexivity.
  - cbn [List.filter outgoing]. rewrite List.filter_app, Hfilter. reflexivity.
Qed.

(** ** Runs that complete *)

Lemma completes_ret {A} (a : A) : completes (ret a).
Proof. intros st. now exists a, st. Qed.

Lemma completes_bind {A B} (m : M A) (f : A -> M B) :
  completes m -> (forall a, completes (f a)) -> completes (bind m f).
Proof.
  intros Hm Hf st. destruct (Hm st) as (a & st1 & H1).
  destruct (Hf a st1) as (b & st2 & H2). exists b, st2.
  unfold bind. now rewrite H1.
Qed.

Lemma completes_emit e : completes (emit e).
Proof. intros st. now eexists _, _. Qed.

Lemma completes_getState : completes getState.
Proof. intros st. now eexists _, _. Qed.

Lemma completes_modify f : completes (modify f).
Proof. intros st. now eexists _, _. Qed.

Lemma completes_ask {A} (oracle : State -> option A) :
  (forall st, is_Some (oracle st)) -> completes (ask oracle).
Proof.
  intros Hanswers st. destruct (Hanswers st) as [a Ha]. exists a, st.
  unfold ask. now rewrite Ha.
Qed.

Lemma completes_orGenerate msgId : completes (orGenerate E msgId).
Proof.
  intros st. unfold orGenerate, ret.
  destruct msgId as [id |]; [destruct (String.eqb id "") |]; now eexists _, _.
Qed.

Lemma completes_forM {A S} (l : list A) (body : S -> A -> M S) :
  (forall acc x, completes (body acc x)) -> forall acc, completes (forM l acc body).
Proof.
  intros Hbody. induction l as [| x l IH]; intros acc; cbn [forM].
  - apply completes_ret.
  - apply completes_bind; [apply Hbody | intros acc'; apply IH].
Qed.

Lemma completes_callAll {A B} (f : A -> M B) (l : list A) :
  (forall x, completes (f x)) -> completes (callAll f l).
Proof.
  intros Hf. induction l as [| x l IH]; cbn [callAll].
  - apply completes_ret.
  - intros st. destruct (Hf x st) as (y & st1 & H1). rewrite H1.
    apply (completes_bind (callAll f l) (fun ys => ret (y :: ys)));
      [exact IH | intros ys; apply completes_ret].
Qed.

Lemma completes_both {A B} (p : M A) (q : M B) :
  completes p -> completes q -> completes (both p q).
Proof.
  intros Hp Hq st. unfold both. destruct (Hp st) as (a & st1 & H1). rewrite H1.
  destruct (Hq st1) as (b & st2 & H2). rewrite H2. now eexists _, _.
Qed.

Lemma completes_transaction {A} (body : M A) :
  completes body -> completes (transaction body).
Proof.
  intros Hbody st. unfold transaction.
  destruct (completes_bind (emit ETransactionBegin) (fun _ => body)
              (completes_emit _) (fun _ => Hbody) st) as (a & st1 & H1).
  rewrite H1. now eexists _, _.
Qed.

Local Ltac run :=
  repeat first
    [ apply completes_ret
    | apply completes_getState
    | apply completes_emit
    | apply completes_modify
    | apply completes_orGenerate
    | apply completes_bind; [| intros ?]
    | apply completes_forM; intros ? ?
    | match goal with
      | |- completes (if ?b then _ else _) => destruct b
      | |- completes (let '(_, _) := ?x in _) => destruct x
      end ].

Section Responsive.
Hypothesis answers : responsive E.

Lemma stampExtraAttrs_completes message extra :
  completes (stampExtraAttrs E message extra).
Proof.
  unfold stampExtraAttrs.
  apply completes_bind; [apply completes_getState |]. intros st0.
  apply completes_bind; [| intros ?; apply completes_ret].
  destruct (mediaTypeCache st0 !! messageHash message); [apply completes_ret |].
  destruct (getMediaType message); run.
Qed.

Lemma assertSessions_completes jids force : completes (assertSessions E jids force).
Proof.
  unfold assertSessions. destruct (isNil jids); [apply completes_ret |].
  apply completes_bind; [apply completes_getState |]. intros st0.
  match goal with |- completes (if ?b then _ else _) => destruct b end;
    [apply completes_ret |].
  apply completes_bind.
  { destruct force; [apply completes_ret |]. unfold addVerified. run. }
  intros required. destruct (isNil required); [apply completes_ret |].
  apply completes_bind; [apply completes_emit |]. intros _.
  apply completes_bind; [apply completes_ask; intros; apply (query_answers E answers) |].
  intros result st1. unfold bind at 1, consult at 1.
  pose proof (injection_completes E answers st1 result) as Hdone.
  destruct (parseAndInjectE2ESessions E st1 result) as [injected completed].
  cbn [snd] in Hdone. subst completed. cbn [negb].
  revert st1. unfold addVerified. run.
Qed.

Lemma encryptForAll_completes jids message extra :
  completes (encryptForAll E jids message extra).
Proof.
  unfold encryptForAll.
  apply completes_bind; [apply completes_ask; intros; apply (patch_answers E answers) |].
  intros patched. apply completes_bind; [| intros ?; apply completes_ret].
  apply completes_callAll. intros jid.
  apply completes_bind; [apply completes_emit |]. intros _.
  apply completes_bind;
    [apply completes_ask; intros; apply (encryptMessage_answers E answers) |].
  intros [type ciphertext]. apply completes_ret.
Qed.

Lemma createParticipantNodes_completes jids message extra :
  completes (createParticipantNodes E jids message extra).
Proof.
  unfold createParticipantNodes, callPatch. destruct (isNil jids); [apply completes_ret |].
  apply completes_bind; [apply completes_emit |]. intros _.
  apply encryptForAll_completes.
Qed.

Lemma groupBranch_completes c include extra devices senderKeyJids :
  completes (groupBranch E c include extra devices senderKeyJids).
Proof.
  unfold groupBranch.
  apply completes_bind; [run |]. intros _.
  apply completes_bind; [unfold keysGetSenderKeyMemory; run |]. intros senderKeyMap.
  apply completes_bind.
  { destruct (cachedGroupMetadata E) as [cached |] eqn:Hcached.
    - match goal with |- completes (if ?b then _ else _) => destruct b end.
      + apply completes_bind.
        { apply completes_ask. intros st0.
          now apply (cachedGroupMetadata_answers E answers cached). }
        intros [[[ps |]] |]; try apply completes_ret;
          (apply completes_bind; [apply completes_emit |]; intros _;
           apply completes_bind; [| intros ?; apply completes_ret];
           apply completes_ask; intros; apply (groupMetadata_answers E answers)).
      + destruct (ctx_isStatus c); [apply completes_ret |].
        apply completes_bind; [| intros ?; apply completes_ret].
        apply completes_ask; intros; apply (groupMetadata_answers E answers).
    - destruct (ctx_isStatus c); [apply completes_ret |].
      apply completes_bind; [| intros ?; apply completes_ret].
      apply completes_ask; intros; apply (groupMetadata_answers E answers). }
  intros _.
  apply completes_bind; [apply completes_emit |]. intros _.
  apply completes_bind; [apply completes_ask; intros; apply (patch_answers E answers) |].
  intros patched.
  apply completes_bind; [apply completes_emit |]. intros _.
  apply completes_bind;
    [apply completes_ask; intros; apply (encryptGroupMessage_answers E answers) |].
  intros [ciphertext skdm].
  apply completes_bind.
  { destruct (isNil senderKeyJids); [apply completes_ret |].
    apply completes_bind; [apply assertSessions_completes |]. intros _.
    apply completes_bind; [apply createParticipantNodes_completes |].
    intros ?. apply completes_ret. }
  intros [nodes include']. unfold keysSetSenderKeyMemory. run.
Qed.

Lemma directBranch_completes c include extra devices :
  is_Some (jidDecode E (meId E)) ->
  (forall meDecoded,
      jidDecode E (meId E) = Some meDecoded ->
      is_Some (classifyDevices E (ctx_isLid c) (jid_user meDecoded) devices)) ->
  completes (directBranch E c include extra devices).
Proof.
  intros Hme Hclass. unfold directBranch. intros st.
  destruct Hme as [meDecoded Hme].
  unfold bind at 1, ask at 1. rewrite Hme.
  unfold bind at 1, ask at 1.
  destruct (Hclass meDecoded Hme) as [[[allJids meJids] otherJids] ->].
  revert st.
  apply completes_bind; [apply assertSessions_completes |]. intros _.
  apply completes_bind; [unfold callPatch; run |]. intros _.
  apply completes_bind; [unfold callPatch; run |]. intros _.
  apply completes_bind; [| intros [mine others]; apply completes_ret].
  apply completes_both;
    (match goal with |- completes (if ?b then _ else _) => destruct b end;
     [apply completes_ret | apply encryptForAll_completes]).
Qed.

Lemma sendToParticipants_completes c l devices senderKeyJids :
  (ctx_isGroup c || ctx_isStatus c = false ->
   is_Some (jidDecode E (meId E))
   /\ forall meDecoded,
       jidDecode E (meId E) = Some meDecoded ->
       is_Some (classifyDevices E (ctx_isLid c) (jid_user meDecoded) devices)) ->
  completes (sendToParticipants E c l devices senderKeyJids).
Proof.
  intros Hdirect. unfold sendToParticipants.
  destruct (isNil devices); [run |].
  apply completes_bind; [| intros ?; run].
  apply completes_transaction.
  apply completes_bind.
  - unfold buildStanza.
    apply completes_bind; [apply stampExtraAttrs_completes |]. intros extra.
    apply completes_bind; [| intros [[content0 nodes] include]; apply completes_ret].
    destruct (ctx_isGroup c || ctx_isStatus c).
    + apply groupBranch_completes.
    + destruct (Hdirect eq_refl) as [Hme Hclass]. now apply directBranch_completes.
  - intros [stanza l']. apply completes_bind; [| intros ?; apply completes_ret].
    unfold sendNodeM. apply completes_bind; [apply completes_emit |]. intros _ st.
    rewrite (sendNode_accepts E answers). now eexists _, _.
Qed.

End Responsive.

Lemma outgoingSince_effects xs st st' :
  outgoingSince xs st st' -> List.filter outgoing (effectsSince st st') = xs.
Proof. intros (effects & Htrace & Hfilter). now rewrite (effectsSince_app _ _ _ Htrace). Qed.

(** C10. With a participant override the recipient is the one
    overridden device, whatever the destination and whatever the
    sender-key memory holds.  In every run, completed or not, the patch
    callback is handed that device alone, and an encryption for a single
    device is made only when a user is the destination, and then for that
    device.  A run that completes has made exactly one patch call, for
    that device, one encryption (of the group message for a group or the
    status list, for the device otherwise) and then one emission; for a
    group or the status list the stanza holds no participant node, hence
    no sender-key distribution, and for a user it holds the one node of
    the device.  When every collaborator answers and the device jid can
    be computed, the run does complete. *)
Theorem relayMessage_participant_override jid message o st p decoded d :
  participant o = Some p ->
  jidDecode E jid = Some decoded ->
  jidDecode E p = Some d ->
  let run := relayMessage E jid message o st in
  let effects := effectsSince st (resultState run) in
  let toGroup :=
    String.eqb (jid_server decoded) "g.us" || String.eqb jid "status@broadcast" in
  let target := overrideTarget E jid decoded d in
  Forall (relayEffect (fun j => toGroup = false /\ target = Some j)
                      (fun jids => exists j, target = Some j /\ jids = [j]))
         effects
  /\ (forall id st',
         run = Ok id st' ->
         exists j data msgId content nodes include,
           target = Some j
           /\ List.filter outgoing effects
              = [EPatchMessage (overrideMessage E jid message decoded d) [j];
                 (if toGroup
                  then EEncryptGroup (destinationOf E jid decoded) data
                  else EEncrypt j data);
                 ESendNode (assembleStanza E (contextOf E jid message o decoded msgId)
                              content nodes include)]
           /\ (if toGroup then nodes = []
               else content = []
                    /\ exists enc,
                        nodes = [Node "to" (<["jid" := Some j]> ∅) (Children [enc])]))
  /\ (responsive E -> is_Some target -> exists id st', run = Ok id st').
Proof.
  intros Hp Hjid Hd run effects toGroup target.
  set (isLid := String.eqb (jid_server decoded) "lid").
  set (dev := mkDevice (jid_user d) (jid_device d)).
  (* the run, as a dispatch to the one device *)
  assert (Hshape : forall msgId,
             orGenerate E (messageId o) st = Ok msgId st ->
             run = (let! '(id, _) :=
                      sendToParticipants E (contextOf E jid message o decoded msgId)
                        (mkRelayLocals false ∅) [dev] [] in
                    ret id) st).
  { intros msgId Hid. subst run. unfold relayMessage.
    rewrite (bind_run_Ok _ _ st decoded st) by (unfold ask; now rewrite Hjid).
    rewrite (bind_run_Ok _ _ _ _ _ Hid). rewrite Hp.
    rewrite (bind_run_Ok _ _ st d st) by (unfold ask; now rewrite Hd).
    unfold contextOf, destinationOf. rewrite Hp. reflexivity. }
  destruct (orGenerate_total E (messageId o) st) as [msgId Hid].
  specialize (Hshape msgId Hid).
  set (c := contextOf E jid message o decoded msgId) in *.
  assert (Hmode : ctx_isGroup c || ctx_isStatus c = toGroup) by reflexivity.
  assert (Hlid : ctx_isLid c = isLid) by reflexivity.
  split; [| split].
  - (* every run *)
    subst effects. rewrite Hshape.
    assert (Hrun : extends (relayEffect (fun j => toGroup = false /\ target = Some j)
                              (fun jids => exists j, target = Some j /\ jids = [j]))
                     st (resultState
                           ((let! '(id, _) :=
                               sendToParticipants E c (mkRelayLocals false ∅) [dev] [] in
                             ret id) st))).
    { apply preserves_bind; [| intros [id l']; apply preserves_ret].
      apply sendToParticipants_footprint.
      destruct toGroup eqn:Htg.
      - apply buildStanza_group_footprint.
        + exact Hmode.
        + cbn [map]. eexists. split; [| reflexivity].
          subst target. unfold overrideTarget. fold toGroup. rewrite Htg. reflexivity.
        + congruence.
        + intros j Hj. now apply elem_of_nil in Hj.
      - apply buildStanza_direct_footprint; [exact Hmode |].
        rewrite Hlid.
        intros meDecoded allJids meJids otherJids Hme Hclass.
        assert (Htarget : forall j, allJids = [j] -> target = Some j).
        { intros j ->. subst target. unfold overrideTarget. fold toGroup isLid dev.
          now rewrite Htg, Hme, Hclass. }
        apply classifyDevices_single in Hclass as (j & Hall & Hsplit).
        specialize (Htarget j Hall).
        destruct Hsplit as [(_ & -> & ->) | (_ & -> & ->)]; repeat split;
          try congruence; try (intros _; now exists j);
          match goal with
          | H : _ ∈ _ \/ _ ∈ _ |- _ => destruct H as [Hin | Hin]
          end;
          try (now apply elem_of_nil in Hin);
          apply list_elem_of_singleton in Hin as ->; exact Htarget. }
    now apply extends_effects in Hrun as [_ Hrun].
  - (* a completed run *)
    intros id st' Hrun. subst effects. rewrite Hrun. cbn [resultState].
    rewrite Hshape in Hrun.
    apply bind_Ok in Hrun as ([id' l'] & st1 & Hsend & Hret).
    injection Hret as -> <-.
    apply sendToParticipants_outgoing in Hsend
        as (stanza & l1 & stA & stB & Hbuild & Hout); [| discriminate].
    unfold buildStanza in Hbuild.
    apply bind_Ok in Hbuild as (extra & stC & Hstamp & Hbuild).
    apply outgoingSince_inward in Hstamp; [| apply stampExtraAttrs_inward].
    apply bind_Ok in Hbuild as ([[content0 nodes] include] & stD & Hbranch & Hret).
    injection Hret as <- <- <-.
    rewrite Hmode in Hbranch. destruct toGroup eqn:Htg.
    + apply groupBranch_single in Hbranch as (data & ciphertext & Hgroup & [= -> -> ->]).
      exists (jidEncode E (user dev) (deviceServer isLid) (device dev)),
        data, msgId,
        [Node "enc" (<["v" := Some "2"]> (<["type" := Some "skmsg"]> ∅))
              (Data ciphertext)], [], false.
      split; [| split; [| reflexivity]].
      * subst target. unfold overrideTarget. fold toGroup. rewrite Htg. reflexivity.
      * apply outgoingSince_effects.
        pose proof (Hout _ (outgoingSince_trans _ _ _ _ _ Hstamp Hgroup)) as Hall.
        cbn [app] in Hall. unfold overrideMessage. fold toGroup. rewrite Htg.
        exact Hall.
    + apply directBranch_single in Hbranch
        as (meDecoded & j & meJids & otherJids & data & enc & pk
            & Hme & Hclass & Hdirect & [= -> -> ->]).
      rewrite Hlid in Hclass.
      exists j, data, msgId, [],
        [Node "to" (<["jid" := Some j]> ∅) (Children [enc])], (false || pk).
      split; [| split; [| split; [reflexivity | now exists enc]]].
      * subst target. unfold overrideTarget. fold toGroup isLid dev.
        now rewrite Htg, Hme, Hclass.
      * apply outgoingSince_effects.
        pose proof (Hout _ (outgoingSince_trans _ _ _ _ _ Hstamp Hdirect)) as Hall.
        cbn [app] in Hall.
        replace (overrideMessage E jid message decoded d)
          with (if String.eqb (user dev) (jid_user meDecoded)
                then meMsg (ctx_destinationJid c) (ctx_message c)
                else ctx_message c); [exact Hall |].
        unfold overrideMessage. fold toGroup. now rewrite Htg, Hme.
  - (* completion *)
    intros Hanswers [j Hj]. rewrite Hshape.
    assert (Hrun : completes (sendToParticipants E c (mkRelayLocals false ∅) [dev] [])).
    { apply sendToParticipants_completes; [exact Hanswers |].
      rewrite Hmode, Hlid. intros Htg.
      subst target. unfold overrideTarget in Hj. fold toGroup isLid dev in Hj.
      rewrite Htg in Hj.
      destruct (jidDecode E (meId E)) as [meDecoded |] eqn:Hme; [| discriminate].
      split; [now eexists |]. intros meDecoded' [= <-].
      destruct (classifyDevices E isLid (jid_user meDecoded) [dev]); [| discriminate].
      now eexists. }
    destruct (Hrun st) as ([id l'] & st' & Hok).
    exists id, st'. unfold bind. now rewrite Hok.
Qed.

End ParticipantOverride.

(* ===================================================================== *)
(** * Emissions of a completed relay *)
(* ===================================================================== *)

Section Emissions.
Import JS MessagesSend Observations ObservationsMore RelayContext.
Local Open Scope relay_scope.

Variable E : Env.












Lemma resolveParticipants_footprint P c statusJidList :
  (forall cached jid, P (EGroupMetadata cached jid)) ->
  preserves (extends P) (resolveParticipants E c statusJidList).
Proof.
  intros HP. unfold resolveParticipants.
  apply preserves_bind; [| intros; apply preserves_ret].
  destruct (ctx_isGroup c); [| apply preserves_ret].
  apply preserves_bind; [now apply preserves_emit |]. intros _ st.
  repeat match goal with
         | |- context [match ?x with _ => _ end] => destruct x
         end; apply extends_refl.
Qed.










End Emissions.

(* ===================================================================== *)
(** * Sender-key distribution and the sender-key memory *)
(* ===================================================================== *)

Section Distribution.
Import JS MessagesSend Observations.
Local Open Scope relay_scope.

Variable E : Env.




Lemma relayEffect_weaken (enc enc' : string -> Prop) (patch patch' : list string -> Prop) e :
  (forall jid, enc jid -> enc' jid) -> (forall jids, patch jids -> patch' jids) ->
  relayEffect enc patch e -> relayEffect enc' patch' e.
Proof. intros Henc Hpatch. destruct e; simpl; auto. Qed.

(** Whatever its outcome, a dispatch to a group encrypts only to its
    sender-key targets. *)
Lemma groupDispatch_footprint c l devices senderKeyJids :
  ctx_isGroup c || ctx_isStatus c = true ->
  preserves (extends (relayEffect (fun jid => jid ∈ senderKeyJids) (fun _ => True)))
            (sendToParticipants E c l devices senderKeyJids).
Proof.
  intros Hgroup. apply sendToParticipants_footprint.
  apply buildStanza_group_footprint; auto.
Qed.

(** Operations that encrypt nothing. *)
Local Abbreviation noEncryption := (extends (relayEffect (fun _ => False) (fun _ => True))).


Section Later.
(** A later relay: [D] is already marked for the group of [c]. *)
Variables (c : RelayCtx) (D : string).
Hypothesis Hgroup : ctx_isGroup c || ctx_isStatus c = true.
Hypothesis Hstatus : ctx_isStatus c = false.

Local Abbreviation skipsD := (extends (relayEffect (fun jid => jid <> D) (fun _ => True))).






End Later.

End Distribution.

Section FirstDistribution.
Import JS MessagesSend Observations.
Local Open Scope relay_scope.

Variable E : Env.


Local Abbreviation encryptsOnly enc := (extends (relayEffect enc (fun _ => True))).



Section Group.
Variable c : RelayCtx.
Hypothesis Hgroup : ctx_isGroup c || ctx_isStatus c = true.
Hypothesis Hstatus : ctx_isStatus c = false.





End Group.

Section TwoRelays.
Variables (jid : string) (decoded : FullJid).
Hypothesis Hdecoded : jidDecode E jid = Some decoded.
Hypothesis Hserver : jid_server decoded = "g.us".
Hypothesis Hnotstatus : jid <> "status@broadcast".



End TwoRelays.


End FirstDistribution.

(* ===================================================================== *)
(** * The relay on the concrete scenario *)
(* ===================================================================== *)

Section RelayExamples.
Import JS MessagesSend Observations ObservationsMore RelayContext Override Scenario.





Lemma envDefaultBlocks_responsive : responsive envDefaultBlocks.
Proof.
  constructor; intros; try reflexivity; try (eexists; reflexivity).
  - cbn. destruct (String.eqb jid "family@g.us"); eexists; reflexivity.
  - match goal with
    | H : cachedGroupMetadata _ = Some _ |- _ => vm_compute in H; discriminate H
    end.
Qed.

(** A relay to the group and a relay to [bob], both addressed to the
    second device of [bob]: each completes with one patch call for that
    device, one encryption and one stanza. *)
Lemma relayMessage_participant_override_witness :
  (exists id st' data stanza,
      relayMessage envDefaultBlocks "family@g.us" textMessage overrideOptions fresh
      = Ok id st'
      /\ List.filter outgoing (effectsSince fresh st')
         = [EPatchMessage textMessage ["bob:2@s.whatsapp.net"];
            EEncryptGroup "family@g.us" data; ESendNode stanza])
  /\ (exists id st' data stanza,
         relayMessage envDefaultBlocks "bob@s.whatsapp.net" textMessage overrideOptions
                      fresh
         = Ok id st'
         /\ List.filter outgoing (effectsSince fresh st')
            = [EPatchMessage textMessage ["bob:2@s.whatsapp.net"];
               EEncrypt "bob:2@s.whatsapp.net" data; ESendNode stanza]).
Proof.
  split.
  - destruct (relayMessage_participant_override envDefaultBlocks "family@g.us"
                textMessage overrideOptions fresh "bob:2@s.whatsapp.net"
                (mkFullJid "family" "g.us" None)
                (mkFullJid "bob" "s.whatsapp.net" (Some 2))
                eq_refl eq_refl eq_refl) as (_ & Hdone & Hcompletes).
    destruct (Hcompletes envDefaultBlocks_responsive ltac:(now eexists))
      as (id & st' & Hrun).
    destruct (Hdone id st' Hrun)
      as (j & data & msgId & content0 & nodes & include & Hj & Hout & _).
    rewrite Hrun in Hout. cbn [resultState] in Hout.
    injection Hj as <-.
    eexists id, st', data, _. split; [exact Hrun | exact Hout].
  - destruct (relayMessage_participant_override envDefaultBlocks "bob@s.whatsapp.net"
                textMessage overrideOptions fresh "bob:2@s.whatsapp.net"
                (mkFullJid "bob" "s.whatsapp.net" None)
                (mkFullJid "bob" "s.whatsapp.net" (Some 2))
                eq_refl eq_refl eq_refl) as (_ & Hdone & Hcompletes).
    destruct (Hcompletes envDefaultBlocks_responsive ltac:(now eexists))
      as (id & st' & Hrun).
    destruct (Hdone id st' Hrun)
      as (j & data & msgId & content0 & nodes & include & Hj & Hout & _).
    rewrite Hrun in Hout. cbn [resultState] in Hout.
    injection Hj as <-.
    eexists id, st', data, _. split; [exact Hrun | exact Hout].
Defined.

End RelayExamples.

(* ===================================================================== *)
(** * Further properties of [SenderKeyRecord] *)
(* ===================================================================== *)

Section RecordWindow.
Import JS SKRecord RecordMore.

Implicit Types (r : SenderKeyRecord) (state : SenderKeyState).

Lemma lastN_all {A} (n : nat) (l : list A) : (length l <= n)%nat -> lastN n l = l.
Proof. intros Hle. unfold lastN. now replace (length l - n)%nat with 0%nat by lia. Qed.

Lemma lastN_length {A} (n : nat) (l : list A) :
  length (lastN n l) = Nat.min n (length l).
Proof. unfold lastN. rewrite length_drop. lia. Qed.

Lemma lastN_app_lastN {A} (n : nat) (a b : list A) :
  lastN n (lastN n a ++ b) = lastN n (a ++ b).
Proof.
  destruct (Nat.le_gt_cases (length a) n) as [Hle | Hgt].
  - now rewrite (lastN_all n a).
  - unfold lastN at 1 3. rewrite !length_app, lastN_length.
    unfold lastN. rewrite !drop_app, !drop_drop, !length_drop.
    f_equal; f_equal; lia.
Qed.

Lemma addSenderKeyState_states id iteration chainKey signatureKey r :
  (length (senderKeyStates r) <= MAX_STATES)%nat ->
  senderKeyStates (addSenderKeyState id iteration chainKey signatureKey r)
  = lastN MAX_STATES
      (senderKeyStates r ++ [pushedState (id, iteration, chainKey, signatureKey)]).
Proof.
  intros Hcap. unfold addSenderKeyState, pushedState.
  set (pushed := (senderKeyStates r ++ _)%list).
  assert (Hlen : length pushed = S (length (senderKeyStates r))).
  { subst pushed. rewrite length_app. simpl. lia. }
  destruct (Nat.ltb_spec MAX_STATES (length pushed)) as [Hover | Hfits];
    cbn [senderKeyStates].
  - unfold lastN. replace (length pushed - MAX_STATES)%nat with 1%nat by lia.
    now destruct pushed.
  - symmetry. now apply lastN_all.
Qed.

(** X1. The record is a sliding window: after any sequence of
    [addSenderKeyState] calls on a record within the cap, it holds the last
    five of the old states followed by the pushed ones, in call order. *)
Theorem addSenderKeyStates_window calls r :
  (length (senderKeyStates r) <= 5)%nat ->
  senderKeyStates (addSenderKeyStates calls r)
  = lastN 5 (senderKeyStates r ++ map pushedState calls).
Proof.
  revert r. induction calls as [| [[[id iteration] chainKey] signatureKey] calls IH];
    intros r Hcap.
  - cbn. rewrite app_nil_r. symmetry. now apply lastN_all.
  - cbn [addSenderKeyStates fold_left map].
    change (fold_left _ calls ?r0) with (addSenderKeyStates calls r0).
    rewrite IH by now apply addSenderKeyState_length.
    rewrite addSenderKeyState_states by assumption.
    change MAX_STATES with 5%nat. rewrite lastN_app_lastN.
    now rewrite <- app_assoc.
Qed.

Lemma addSenderKeyStates_window_witness :
  map getKeyId
      (senderKeyStates (addSenderKeyStates sixCalls (SenderKeyRecord_new None)))
  = [2; 3; 4; 5; 6].
Proof.
  rewrite (addSenderKeyStates_window sixCalls (SenderKeyRecord_new None));
    [reflexivity | simpl; lia].
Defined.

Lemma validity_of_new id iteration chainKey pair public :
  isValidSenderKeyState (SenderKeyState_new id iteration chainKey pair public)
  = (0 <? id) && (0 <=? iteration)
    && negb (Nat.eqb (length (match pair with
                              | Some (pub, _) => pub
                              | None => default [] public
                              end)) 0).
Proof.
  unfold isValidSenderKeyState, SenderKeyState_new, getKeyId, getSenderChainKey,
    getSigningKeyPublic.
  destruct pair as [[pub priv] |]; cbn;
    destruct (Z.leb_spec id 0), (Z.ltb_spec 0 id); try lia; cbn;
    destruct (Z.ltb_spec iteration 0), (Z.leb_spec 0 iteration); try lia; cbn;
    match goal with |- context [Nat.eqb ?n 0] => destruct (Nat.eqb n 0) end;
    reflexivity.
Qed.

Lemma scanBackward_last states state :
  isValidSenderKeyState state = true ->
  scanBackward (states ++ [state]) (length (states ++ [state])) = Some state.
Proof.
  intros Hvalid. rewrite length_app. cbn [length].
  replace (length states + 1)%nat with (S (length states)) by lia.
  cbn [scanBackward]. rewrite lookup_app_r by lia.
  replace (length states - length states)%nat with 0%nat by lia.
  cbn. now rewrite Hvalid.
Qed.

(** X2. A state pushed with a positive key id, a non-negative iteration
    and a non-empty signature key is what a lookup without key id returns
    next, whatever the record held (also beyond the cap); the lookup
    leaves the record as it is. *)
Theorem addSenderKeyState_then_get id iteration chainKey signatureKey r :
  0 < id -> 0 <= iteration -> signatureKey <> [] ->
  getSenderKeyState None (addSenderKeyState id iteration chainKey signatureKey r)
  = (Some (SenderKeyState_new id iteration chainKey None (Some signatureKey)),
     addSenderKeyState id iteration chainKey signatureKey r).
Proof.
  intros Hid Hiteration Hkey.
  set (new := SenderKeyState_new id iteration chainKey None (Some signatureKey)).
  assert (Hvalid : isValidSenderKeyState new = true).
  { subst new. rewrite validity_of_new. cbn [default].
    destruct signatureKey; [congruence |].
    destruct (Z.ltb_spec 0 id), (Z.leb_spec 0 iteration); try lia. reflexivity. }
  assert (Hstates : exists older,
             senderKeyStates (addSenderKeyState id iteration chainKey signatureKey r)
             = (older ++ [new])%list).
  { unfold addSenderKeyState. cbv zeta. fold new.
    destruct (senderKeyStates r) as [| s0 rest] eqn:Hstates.
    - exists []. reflexivity.
    - match goal with |- context [if ?c then _ else _] => destruct c end;
        cbn [senderKeyStates tail app].
      + now exists rest.
      + now exists (s0 :: rest). }
  destruct Hstates as [older Hstates].
  rewrite getSenderKeyState_scan by (rewrite Hstates; now destruct older).
  now rewrite Hstates, scanBackward_last.
Qed.

Lemma addSenderKeyState_then_get_witness :
  fst (getSenderKeyState None
         (addSenderKeyState 9 0 [Byte.x09] [Byte.x19]
            (addSenderKeyStates sixCalls (SenderKeyRecord_new None))))
  = Some (SenderKeyState_new 9 0 [Byte.x09] None (Some [Byte.x19])).
Proof.
  rewrite (addSenderKeyState_then_get 9 0 [Byte.x09] [Byte.x19]);
    [reflexivity | lia | lia | discriminate].
Defined.

Lemma find_first {A} (f : A -> bool) (l : list A) x :
  List.find f l = Some x ->
  f x = true
  /\ exists before after,
      l = (before ++ x :: after)%list /\ Forall (fun y => f y = false) before.
Proof.
  induction l as [| y l IH]; cbn; [discriminate |].
  destruct (f y) eqn:Hy.
  - intros [= ->]. split; [assumption |]. exists [], l. split; [reflexivity | constructor].
  - intros Hfind. destruct (IH Hfind) as (Hx & before & after & -> & Hbefore).
    split; [assumption |]. exists (y :: before), after.
    split; [reflexivity | now constructor].
Qed.

Lemma find_absent {A} (f : A -> bool) (l : list A) :
  List.find f l = None -> Forall (fun y => f y = false) l.
Proof.
  induction l as [| y l IH]; cbn; [constructor |].
  destruct (f y) eqn:Hy; [discriminate |]. intros Hfind. constructor; auto.
Qed.

(** X3. A lookup by key id never changes the record.  Its result, when
    present, is the first stored state with that key id, and it is valid;
    the result is absent exactly when no state has the key id or the
    first one that has it is invalid (later states with the same id are
    not tried). *)
Theorem getSenderKeyState_by_id k r :
  snd (getSenderKeyState (Some k) r) = r
  /\ match fst (getSenderKeyState (Some k) r) with
     | Some state =>
         getKeyId state = k /\ isValidSenderKeyState state = true
         /\ exists before after,
             senderKeyStates r = (before ++ state :: after)%list
             /\ Forall (fun s => getKeyId s <> k) before
     | None =>
         Forall (fun s => getKeyId s <> k) (senderKeyStates r)
         \/ exists before first after,
             senderKeyStates r = (before ++ first :: after)%list
             /\ Forall (fun s => getKeyId s <> k) before
             /\ getKeyId first = k /\ isValidSenderKeyState first = false
     end.
Proof.
  unfold getSenderKeyState.
  assert (Hne : forall l, Forall (fun s => (getKeyId s =? k) = false) l ->
                          Forall (fun s => getKeyId s <> k) l).
  { intros l Hl. eapply Forall_impl; [exact Hl |].
    intros s Hs. now apply Z.eqb_neq. }
  destruct (List.find (fun state => getKeyId state =? k) (senderKeyStates r))
    as [state |] eqn:Hfind.
  - apply find_first in Hfind as (Hk & before & after & Hsplit & Hbefore).
    apply Z.eqb_eq in Hk. apply Hne in Hbefore.
    destruct (isValidSenderKeyState state) eqn:Hvalid; cbn.
    + split; [reflexivity |]. split; [assumption |]. split; [assumption |].
      now exists before, after.
    + split; [reflexivity |]. right. now exists before, state, after.
  - cbn. split; [reflexivity |]. left. now apply Hne, find_absent.
Qed.

(** X4. [setSenderKeyState] discards whatever the record held: it then
    holds the one new state, which lookups with and without key id return
    when the key id is positive, the iteration non-negative and the
    public key non-empty. *)
Theorem setSenderKeyState_then_get id iteration chainKey publicKey privateKey r :
  0 < id -> 0 <= iteration -> publicKey <> [] ->
  let r' := setSenderKeyState id iteration chainKey (publicKey, privateKey) r in
  let state := SenderKeyState_new id iteration chainKey
                                  (Some (publicKey, privateKey)) None in
  senderKeyStates r' = [state]
  /\ getSenderKeyState None r' = (Some state, r')
  /\ getSenderKeyState (Some id) r' = (Some state, r').
Proof.
  intros Hid Hiteration Hkey r' state.
  assert (Hvalid : isValidSenderKeyState state = true).
  { subst state. rewrite validity_of_new.
    destruct publicKey; [congruence |].
    destruct (Z.ltb_spec 0 id), (Z.leb_spec 0 iteration); try lia. reflexivity. }
  split; [reflexivity |]. split.
  - rewrite getSenderKeyState_scan by discriminate.
    change (senderKeyStates r') with ([] ++ [state])%list.
    now rewrite scanBackward_last.
  - unfold getSenderKeyState. change (senderKeyStates r') with [state].
    cbv zeta. cbn [List.find]. change (getKeyId state) with id.
    now rewrite Z.eqb_refl, Hvalid.
Qed.

Lemma setSenderKeyState_then_get_witness :
  senderKeyStates
    (setSenderKeyState 3 0 [Byte.x01] ([Byte.x02], [Byte.x03])
       (addSenderKeyStates sixCalls (SenderKeyRecord_new None)))
  = [SenderKeyState_new 3 0 [Byte.x01] (Some ([Byte.x02], [Byte.x03])) None].
Proof.
  apply (setSenderKeyState_then_get 3 0 [Byte.x01] [Byte.x02] [Byte.x03]);
    [lia | lia | discriminate].
Defined.












(** X6. The cap is enforced by [addSenderKeyState] only: a record built
    from more than five serialized states holds them all, and a push then
    drops one state and adds one. *)
Theorem deserialized_over_cap parse utf8 structures id iteration chainKey signatureKey :
  (5 < length structures)%nat ->
  exists r,
    deserialize parse utf8 (DataParsed structures) = Returns r
    /\ length (senderKeyStates r) = length structures
    /\ length (senderKeyStates
                 (addSenderKeyState id iteration chainKey signatureKey r))
       = length structures.
Proof.
  intros Hover. eexists. split; [reflexivity |]. split.
  - cbn. apply length_map.
  - now apply constructor_ignores_cap.
Qed.

Lemma deserialized_over_cap_witness :
  exists r,
    deserialize (fun _ => None) (fun _ => "") (DataParsed sevenStructures) = Returns r
    /\ length (senderKeyStates r) = 7%nat
    /\ length (senderKeyStates (addSenderKeyState 8 0 [] [Byte.x01] r)) = 7%nat.
Proof.
  apply (deserialized_over_cap (fun _ => None) (fun _ => "") sevenStructures
           8 0 [] [Byte.x01]).
  simpl. lia.
Defined.

End RecordWindow.

(* ===================================================================== *)
(** * Further properties of the cleanup *)
(* ===================================================================== *)

Section CleanupPasses.
Import JS Cleanup CleanupMemory.

Variable lib : JsonLib.

Implicit Types (u : Updates) (d : json) (maxStatesPerGroup : Z).
Implicit Types (memory : jsval) (valid : gmap string bool).

(** An entry the pass leaves alone: falsy data, or data that decodes to a
    non-empty array within the bound whose states all pass the test. *)
Local Abbreviation untouched maxStatesPerGroup d :=
  (keyDataTruthy d = false
   \/ exists states,
       parseKeyData lib d = Some (JArr states) /\ states <> []
       /\ Z.of_nat (length states) <= maxStatesPerGroup
       /\ Forall (fun state => stateLooksValid state = true) states).

Lemma forallb_Forall {A} (f : A -> bool) (l : list A) :
  forallb f l = true <-> Forall (fun x => f x = true) l.
Proof.
  rewrite forallb_forall, List.Forall_forall. reflexivity.
Qed.

Lemma entryVerdict_None maxStatesPerGroup k d :
  entryVerdict lib maxStatesPerGroup k d = None <-> untouched maxStatesPerGroup d.
Proof.
  unfold entryVerdict, cleanupEntry.
  assert (Hdel : forall u, fst (markDelete k u) !! k = Some None)
    by (intros; apply lookup_insert_eq).
  assert (Hrew : forall states u,
             fst (markRewrite lib k states u) !! k
             = Some (Some (utf8_encode lib (JSON_stringify lib (JArr states)))))
    by (intros; apply lookup_insert_eq).
  destruct (keyDataTruthy d);
    [| cbn [fst]; rewrite lookup_empty; split; [now left | reflexivity]].
  destruct (parseKeyData lib d) as [parsed |] eqn:Hparse.
  2: { rewrite Hdel. split; [discriminate |].
       intros [? | (states & ? & _)]; discriminate. }
  destruct parsed as [| | | | | items |];
    try (rewrite Hdel; split; [discriminate |];
         intros [? | (states & ? & _)]; discriminate).
  destruct items as [| s rest].
  { cbn [length Nat.eqb]. rewrite Hdel. split; [discriminate |].
    intros [? | (states & [= <-] & ? & _)]; [discriminate | congruence]. }
  cbv beta iota zeta.
  change (Nat.eqb (length (s :: rest)) 0) with false. cbv iota.
  rewrite filter_length_all, filter_length_none.
  destruct (forallb stateLooksValid (s :: rest)) eqn:Hall; cbn [negb].
  - destruct (Z.ltb_spec maxStatesPerGroup (Z.of_nat (length (s :: rest))))
      as [Hover | Hfits].
    + rewrite Hrew. split; [discriminate |].
      intros [? | (states & [= <-] & _ & Hle & _)]; [discriminate | lia].
    + cbn [fst]. rewrite lookup_empty. split; [| reflexivity]. intros _. right.
      exists (s :: rest). repeat split; [discriminate | assumption |].
      now apply forallb_Forall.
  - split.
    + intros Hnone. exfalso. revert Hnone.
      destruct (forallb (fun st => negb (stateLooksValid st)) (s :: rest));
        rewrite ?Hdel, ?Hrew; discriminate.
    + intros [? | (states & [= <-] & _ & _ & Hvalid)]; [discriminate |].
      apply forallb_Forall in Hvalid. congruence.
Qed.

Lemma cleanup_flag maxStatesPerGroup entries u :
  snd (fold_left (cleanupEntry lib maxStatesPerGroup) entries u) = false
  <-> snd u = false
      /\ Forall (fun '(k, d) => entryVerdict lib maxStatesPerGroup k d = None)
                entries.
Proof.
  revert u. induction entries as [| [k d] entries IH]; intros u; cbn [fold_left].
  - cbn [snd]. split; [intros ->; split; [reflexivity | constructor] | tauto].
  - rewrite IH, cleanupEntry_flag, orb_false_iff, Forall_cons.
    rewrite bool_decide_eq_false, <- eq_None_not_Some. tauto.
Qed.

(** The pass writes nothing exactly when no entry calls for a write. *)
Lemma corruptedPass_silent maxStatesPerGroup entries :
  cleanupCorruptedSenderKeys lib entries maxStatesPerGroup = None
  <-> Forall (fun '(k, d) => untouched maxStatesPerGroup d) entries.
Proof.
  unfold cleanupCorruptedSenderKeys.
  pose proof (cleanup_flag maxStatesPerGroup entries (∅, false)) as Hflag.
  destruct (fold_left (cleanupEntry lib maxStatesPerGroup) entries (∅, false))
    as [keysToUpdate hasChanges].
  cbn [snd] in Hflag.
  assert (Hsame :
    Forall (fun '(k, d) => entryVerdict lib maxStatesPerGroup k d = None) entries
    <-> Forall (fun '(k, d) => untouched maxStatesPerGroup d) entries).
  { apply Forall_proper; [| reflexivity]. intros [k d]. apply entryVerdict_None. }
  rewrite <- Hsame. destruct hasChanges.
  - split; [discriminate |]. intros Hall.
    assert (true = false) by (apply Hflag; auto). discriminate.
  - split; [| reflexivity]. intros _. now apply Hflag.
Qed.

(** Once [hasChanges] is raised, [keysToUpdate] holds a key. *)
Lemma cleanup_nonempty maxStatesPerGroup entries :
  forall u,
    (snd u = true -> fst u <> ∅) ->
    snd (fold_left (cleanupEntry lib maxStatesPerGroup) entries u) = true ->
    fst (fold_left (cleanupEntry lib maxStatesPerGroup) entries u) <> ∅.
Proof.
  induction entries as [| [k d] entries IH]; intros u Hu; cbn [fold_left];
    [exact Hu |].
  apply IH. rewrite cleanupEntry_flag. intros Hflag Hempty.
  pose proof (cleanupEntry_same lib maxStatesPerGroup u k d) as Hsame.
  rewrite Hempty, lookup_empty in Hsame.
  destruct (entryVerdict lib maxStatesPerGroup k d) as [v |] eqn:Hverdict;
    [discriminate |].
  rewrite bool_decide_eq_false_2, orb_false_r in Hflag
    by (intros [? ?]; discriminate).
  apply (Hu Hflag). apply map_eq. intros k'. rewrite lookup_empty.
  destruct (decide (k = k')) as [<- | Hne]; [now symmetry |].
  rewrite <- (cleanupEntry_other lib maxStatesPerGroup u k d k' Hne).
  now rewrite Hempty, lookup_empty.
Qed.

(** X7. The pass writes nothing exactly when every stored entry is
    falsy, or decodes to a non-empty array of at most
    [maxStatesPerGroup] states that all pass its structural test; and
    when it writes, the update it passes is not empty. *)
Theorem cleanupCorruptedSenderKeys_no_write maxStatesPerGroup entries :
  (cleanupCorruptedSenderKeys lib entries maxStatesPerGroup = None
   <-> Forall (fun '(k, d) => untouched maxStatesPerGroup d) entries)
  /\ cleanupCorruptedSenderKeys lib entries maxStatesPerGroup <> Some ∅.
Proof.
  split; [apply corruptedPass_silent |].
  unfold cleanupCorruptedSenderKeys.
  pose proof (cleanup_nonempty maxStatesPerGroup entries (∅, false)) as Hnonempty.
  destruct (fold_left (cleanupEntry lib maxStatesPerGroup) entries (∅, false))
    as [keysToUpdate hasChanges].
  cbn [fst snd] in Hnonempty. destruct hasChanges; [| discriminate].
  intros [= ->]. now apply Hnonempty.
Qed.

(** X8. When only some of the states of an entry pass the test, the
    entry is rewritten with exactly the states that pass, in their
    order, whatever the bound: the trimmed array is overwritten. *)
Theorem cleanupCorruptedSenderKeys_partial maxStatesPerGroup entries k d states :
  NoDup (map fst entries) -> (k, d) ∈ entries ->
  keyDataTruthy d = true -> parseKeyData lib d = Some (JArr states) ->
  forallb stateLooksValid states = false ->
  existsb stateLooksValid states = true ->
  default ∅ (cleanupCorruptedSenderKeys lib entries maxStatesPerGroup) !! k
  = Some (Some (utf8_encode lib
                  (JSON_stringify lib (JArr (List.filter stateLooksValid states))))).
Proof.
  intros Hnodup Hin Htruthy Hparse Hsome Hany.
  rewrite (cleanup_patch lib maxStatesPerGroup entries k d Hnodup Hin).
  unfold entryVerdict, cleanupEntry. rewrite Htruthy, Hparse.
  destruct states as [| s rest]; [discriminate |].
  cbv beta iota zeta.
  change (Nat.eqb (length (s :: rest)) 0) with false. cbv iota.
  rewrite filter_length_all, filter_length_none, Hsome. cbn [negb].
  assert (Hnone : forallb (fun x => negb (stateLooksValid x)) (s :: rest) = false).
  { apply not_true_is_false. intros Hnone.
    apply existsb_exists in Hany as (x & Hx & Hvalid).
    rewrite forallb_forall in Hnone. specialize (Hnone x Hx).
    rewrite Hvalid in Hnone. discriminate. }
  rewrite Hnone. apply lookup_insert_eq.
Qed.

(** X9. The pass never mentions a key it did not read, nor one whose
    data is falsy. *)
Theorem cleanupCorruptedSenderKeys_only_stored maxStatesPerGroup entries k :
  NoDup (map fst entries) ->
  (forall d, (k, d) ∈ entries -> keyDataTruthy d = false) ->
  default ∅ (cleanupCorruptedSenderKeys lib entries maxStatesPerGroup) !! k = None.
Proof.
  intros Hnodup Hfalsy.
  destruct (decide (k ∈ map fst entries)) as [Hin | Hnotin].
  - apply list_elem_of_fmap in Hin as ([k' d] & -> & Hin). cbn [fst] in *.
    rewrite (cleanup_patch lib maxStatesPerGroup entries k' d Hnodup Hin).
    apply entryVerdict_None. left. now apply Hfalsy.
  - unfold cleanupCorruptedSenderKeys.
    assert (Hkeep : forall entries' u,
               k ∉ map fst entries' ->
               fst (fold_left (cleanupEntry lib maxStatesPerGroup) entries' u) !! k
               = fst u !! k).
    { intros entries'. induction entries' as [| [k0 d0] entries' IH];
        intros u Hfresh; cbn [fold_left]; [reflexivity |].
      cbn [map fst] in Hfresh. apply not_elem_of_cons in Hfresh as [Hne Hfresh].
      rewrite IH by assumption. apply cleanupEntry_other. congruence. }
    specialize (Hkeep entries (∅, false) Hnotin).
    destruct (fold_left (cleanupEntry lib maxStatesPerGroup) entries (∅, false))
      as [keysToUpdate hasChanges].
    cbn [fst] in Hkeep.
    destruct hasChanges; cbv beta iota zeta; cbn [default]; [| apply lookup_empty].
    unfold id. rewrite Hkeep. apply lookup_empty.
Qed.

Lemma isTrue_spec value : isTrue value = true <-> value = JBool true.
Proof. destruct value as [| [|] | | | | |]; cbn; split; congruence. Qed.

(** The inner loop: which flags are kept, and what it reports. *)
Lemma keepTrue_fold entries :
  forall valid has changes,
    let r := fold_left keepTrue entries (valid, has, changes) in
    (forall key, r.1.1 !! key = Some true
                 <-> (key, JBool true) ∈ entries \/ valid !! key = Some true)
    /\ (forall key, r.1.1 !! key = Some false -> valid !! key = Some false)
    /\ (r.1.2 = true <-> has = true \/ exists key, (key, JBool true) ∈ entries)
    /\ (r.2 = false
        <-> changes = false /\ Forall (fun entry => entry.2 = JBool true) entries).
Proof.
  induction entries as [| [key0 value] entries IH]; intros valid has changes;
    cbn [fold_left].
  - cbn. split; [| split; [| split]].
    + intros key. rewrite elem_of_nil. tauto.
    + tauto.
    + split; [tauto |]. intros [H | [key Hin]]; [assumption |].
      now apply elem_of_nil in Hin.
    + split; [intros ->; split; [reflexivity | constructor] | tauto].
  - change (keepTrue (valid, has, changes) (key0, value))
      with (if isTrue value
            then (<[key0 := true]> valid, true, changes)
            else (valid, has, true)).
    destruct (isTrue value) eqn:Htrue.
    + apply isTrue_spec in Htrue as ->.
      destruct (IH (<[key0 := true]> valid) true changes)
        as (Hkept & Hnofalse & Hhas & Hch).
      cbv zeta. split; [| split; [| split]].
      * intros key. rewrite Hkept, elem_of_cons.
        destruct (decide (key0 = key)) as [-> | Hne].
        -- rewrite lookup_insert_eq. naive_solver.
        -- rewrite lookup_insert_ne by assumption. naive_solver.
      * intros key Hr. apply Hnofalse in Hr.
        destruct (decide (key0 = key)) as [-> | Hne].
        -- rewrite lookup_insert_eq in Hr. discriminate.
        -- now rewrite lookup_insert_ne in Hr.
      * rewrite Hhas. split; [| now left]. intros _. right. exists key0.
        apply list_elem_of_here.
      * rewrite Hch, Forall_cons. cbn. naive_solver.
    + assert (Hne : value <> JBool true).
      { intros ->. discriminate. }
      destruct (IH valid has true) as (Hkept & Hnofalse & Hhas & Hch).
      cbv zeta. split; [| split; [| split]].
      * intros key. rewrite Hkept, elem_of_cons. naive_solver.
      * assumption.
      * rewrite Hhas. split.
        -- intros [H | [key Hin]]; [now left | right].
           exists key. now apply elem_of_cons; right.
        -- intros [H | [key Hin]]; [now left |].
           apply elem_of_cons in Hin as [[= _ Hv] | Hin]; [congruence |].
           right. now exists key.
      * rewrite Hch, Forall_cons. cbn. naive_solver.
Qed.

(** What one iteration of the outer loop does for its own group. *)
Lemma memoryEntry_same cleaned changes jid memory :
  let r := memoryEntry (cleaned, changes) (jid, memory) in
  match r.1 !! jid with
  | Some valid =>
      (cleaned !! jid = Some valid
       /\ forall key, (key, JBool true) ∉ objectEntries memory)
      \/ (isObject memory = true
          /\ (exists key, valid !! key = Some true)
          /\ forall key,
              (valid !! key = Some true
               <-> (key, JBool true) ∈ objectEntries memory)
              /\ valid !! key <> Some false)
  | None =>
      cleaned !! jid = None
      /\ forall key, (key, JBool true) ∉ objectEntries memory
  end.
Proof.
  assert (Hnone : isObject memory = false ->
                  forall key, (key, JBool true) ∉ objectEntries memory).
  { intros Hobj key. destruct memory as [[] |]; try discriminate;
      apply not_elem_of_nil. }
  unfold memoryEntry.
  destruct (isObject memory) eqn:Hobj.
  - destruct (keepTrue_fold (objectEntries memory) ∅ false changes)
      as (Hkept & Hnofalse & Hhas & _).
    destruct (fold_left keepTrue (objectEntries memory) (∅, false, changes))
      as [[valid has] changes'].
    cbn [fst snd] in *. destruct has; cbv zeta; cbn [fst].
    + rewrite lookup_insert_eq. right. split; [reflexivity |].
      destruct Hhas as [Hhas _]. destruct (Hhas eq_refl) as [? | [key Hin]];
        [discriminate |].
      split.
      * exists key. apply Hkept. now left.
      * intros key'. split.
        -- rewrite Hkept. rewrite lookup_empty. split; [| now left].
           intros [? | ?]; [assumption | discriminate].
        -- intros Hfalse. apply Hnofalse in Hfalse.
           rewrite lookup_empty in Hfalse. discriminate.
    + assert (Hno : forall key, (key, JBool true) ∉ objectEntries memory).
      { intros key Hin. destruct Hhas as [_ Hhas].
        assert (false = true) by (apply Hhas; right; now exists key).
        discriminate. }
      destruct (cleaned !! jid) as [valid' |] eqn:Hold; [left |]; now split.
  - specialize (Hnone eq_refl).
    assert (Hfst : (match memory with
                    | Some JNull => (cleaned, changes)
                    | _ => (cleaned, true)
                    end).1 = cleaned).
    { now destruct memory as [[] |]. }
    cbv zeta. rewrite Hfst.
    destruct (cleaned !! jid) as [valid' |] eqn:Hold; [left |]; now split.
Qed.

Lemma memoryEntry_other cleaned changes jid memory jid' :
  jid <> jid' ->
  (memoryEntry (cleaned, changes) (jid, memory)).1 !! jid' = cleaned !! jid'.
Proof.
  intros Hne. unfold memoryEntry.
  destruct (isObject memory).
  - destruct (fold_left keepTrue (objectEntries memory) (∅, false, changes))
      as [[valid has] changes'].
    destruct has; cbn [fst]; [now rewrite lookup_insert_ne | reflexivity].
  - now destruct memory as [[] |].
Qed.

Lemma keepTrue_changes entries :
  forall valid has changes changes',
    (fold_left keepTrue entries (valid, has, changes)).1
    = (fold_left keepTrue entries (valid, has, changes')).1.
Proof.
  induction entries as [| [key value] entries IH]; intros valid has changes changes';
    cbn [fold_left]; [reflexivity |].
  unfold keepTrue at 2 4. destruct (isTrue value); apply IH.
Qed.

Lemma memoryEntry_congr cleaned changes cleaned' changes' jid memory :
  cleaned !! jid = cleaned' !! jid ->
  (memoryEntry (cleaned, changes) (jid, memory)).1 !! jid
  = (memoryEntry (cleaned', changes') (jid, memory)).1 !! jid.
Proof.
  intros Hsame. unfold memoryEntry.
  destruct (isObject memory).
  - pose proof (keepTrue_changes (objectEntries memory) ∅ false changes changes')
      as Hfold.
    destruct (fold_left keepTrue (objectEntries memory) (∅, false, changes))
      as [[valid has] c].
    destruct (fold_left keepTrue (objectEntries memory) (∅, false, changes'))
      as [[valid' has'] c'].
    cbn [fst] in Hfold. injection Hfold as <- <-.
    destruct has; cbn [fst]; [now rewrite !lookup_insert_eq | assumption].
  - now destruct memory as [[] |].
Qed.

(** An entry that raises no change: [null], or an object with at least
    one entry whose entries are all [true]. *)
Local Abbreviation clean memory :=
  (memory = Some JNull
   \/ (isObject memory = true /\ objectEntries memory <> []
       /\ Forall (fun entry => entry.2 = JBool true) (objectEntries memory))).

Lemma memoryEntry_flag cleaned changes jid memory :
  (memoryEntry (cleaned, changes) (jid, memory)).2 = false
  <-> changes = false /\ clean memory.
Proof.
  unfold memoryEntry.
  destruct (isObject memory) eqn:Hobj.
  - destruct (keepTrue_fold (objectEntries memory) ∅ false changes)
      as (_ & _ & Hhas & Hch).
    destruct (fold_left keepTrue (objectEntries memory) (∅, false, changes))
      as [[valid has] changes'].
    cbn [fst snd] in *. destruct has; cbn [snd].
    + rewrite Hch. split.
      * intros [Hc Hall]. split; [assumption |]. right.
        split; [reflexivity |]. split; [| assumption].
        destruct Hhas as [Hhas _]. destruct (Hhas eq_refl) as [? | [key Hin]];
          [discriminate |]. intros Hnil. rewrite Hnil in Hin.
        now apply elem_of_nil in Hin.
      * intros [Hc [-> | (_ & _ & Hall)]]; [discriminate | now split].
    + split; [discriminate |].
      intros [_ [-> | (_ & Hne & Hall)]]; [discriminate |].
      destruct (objectEntries memory) as [| [key value] rest]; [congruence |].
      apply Forall_cons in Hall as [Hv _]. cbn in Hv. subst value.
      destruct Hhas as [_ Hhas].
      assert (false = true)
        by (apply Hhas; right; exists key; apply list_elem_of_here).
      discriminate.
  - destruct memory as [[] |]; try discriminate; cbn [snd];
      try (split; [discriminate | intros [_ [? | (? & _)]]; discriminate]).
    split; [intros ->; split; [reflexivity | now left] | now intros [-> _]].
Qed.

Lemma memory_flag allMemory :
  forall cleaned changes,
    (fold_left memoryEntry allMemory (cleaned, changes)).2 = false
    <-> changes = false /\ Forall (fun entry => clean (entry.2)) allMemory.
Proof.
  induction allMemory as [| [jid memory] allMemory IH]; intros cleaned changes;
    cbn [fold_left].
  - cbn [snd]. split; [intros ->; split; [reflexivity | constructor] | tauto].
  - destruct (memoryEntry (cleaned, changes) (jid, memory)) as [cleaned' changes']
      eqn:Hstep.
    rewrite IH, Forall_cons.
    pose proof (memoryEntry_flag cleaned changes jid memory) as Hflag.
    rewrite Hstep in Hflag. cbn [snd] in *. tauto.
Qed.

(** The memory pass writes nothing exactly when every group is clean. *)
Lemma memoryPass_silent allMemory maxAge :
  cleanupSenderKeyMemory allMemory maxAge = None
  <-> Forall (fun entry => clean (entry.2)) allMemory.
Proof.
  unfold cleanupSenderKeyMemory.
  pose proof (memory_flag allMemory ∅ false) as Hflag.
  destruct (fold_left memoryEntry allMemory (∅, false)) as [cleaned changes].
  cbn [snd] in Hflag. destruct changes.
  - split; [discriminate |]. intros Hall.
    assert (true = false) by (apply Hflag; auto). discriminate.
  - split; [| reflexivity]. intros _. now apply Hflag.
Qed.

(** X10. The memory pass writes nothing exactly when every stored group
    is [null] or an object with at least one entry whose entries are all
    [true]; [maxAge] plays no part in what it does. *)
Theorem cleanupSenderKeyMemory_no_write allMemory maxAge :
  (cleanupSenderKeyMemory allMemory maxAge = None
   <-> Forall (fun entry => clean (entry.2)) allMemory)
  /\ forall maxAge',
      cleanupSenderKeyMemory allMemory maxAge'
      = cleanupSenderKeyMemory allMemory maxAge.
Proof. split; [apply memoryPass_silent | reflexivity]. Qed.

Lemma memory_fold allMemory :
  forall cleaned changes,
    NoDup (map fst allMemory) ->
    let r := fold_left memoryEntry allMemory (cleaned, changes) in
    (forall jid, jid ∉ map fst allMemory -> r.1 !! jid = cleaned !! jid)
    /\ forall jid memory,
        (jid, memory) ∈ allMemory ->
        r.1 !! jid = (memoryEntry (cleaned, changes) (jid, memory)).1 !! jid.
Proof.
  induction allMemory as [| [jid0 memory0] allMemory IH]; intros cleaned changes Hnodup;
    cbn [fold_left].
  - split; [reflexivity |]. intros jid memory Hin. now apply elem_of_nil in Hin.
  - cbn [map fst] in Hnodup. apply NoDup_cons in Hnodup as [Hfresh Hnodup].
    destruct (memoryEntry (cleaned, changes) (jid0, memory0)) as [cleaned' changes']
      eqn:Hstep.
    destruct (IH cleaned' changes' Hnodup) as [Hout Hin]. cbv zeta in *.
    assert (Hother : forall jid, jid0 <> jid -> cleaned' !! jid = cleaned !! jid).
    { intros jid Hne.
      pose proof (memoryEntry_other cleaned changes jid0 memory0 jid Hne) as H.
      now rewrite Hstep in H. }
    split.
    + intros jid Hnotin. cbn [map fst] in Hnotin.
      apply not_elem_of_cons in Hnotin as [Hne Hnotin].
      rewrite Hout by assumption. apply Hother. congruence.
    + intros jid memory Hmem.
      apply elem_of_cons in Hmem as [[= -> ->] | Hmem].
      * rewrite Hout by assumption. now rewrite Hstep.
      * assert (Hne : jid0 <> jid).
        { intros ->. apply Hfresh. apply list_elem_of_fmap. now exists (jid, memory). }
        rewrite (Hin jid memory Hmem).
        apply memoryEntry_congr. now apply Hother.
Qed.

(** X11. When the memory pass writes, the object it writes holds, for
    each stored group with at least one [true] entry, exactly the keys of
    its [true] entries (all mapped to [true]); groups without such an
    entry and groups that were not stored are absent from it: they are
    omitted, not set to [null]. *)
Theorem cleanupSenderKeyMemory_written allMemory maxAge cleaned :
  NoDup (map fst allMemory) ->
  cleanupSenderKeyMemory allMemory maxAge = Some cleaned ->
  (forall jid, jid ∉ map fst allMemory -> cleaned !! jid = None)
  /\ forall jid memory,
      (jid, memory) ∈ allMemory ->
      match cleaned !! jid with
      | Some valid =>
          isObject memory = true
          /\ (exists key, valid !! key = Some true)
          /\ forall key,
              (valid !! key = Some true
               <-> (key, JBool true) ∈ objectEntries memory)
              /\ valid !! key <> Some false
      | None => forall key, (key, JBool true) ∉ objectEntries memory
      end.
Proof.
  intros Hnodup. unfold cleanupSenderKeyMemory.
  destruct (memory_fold allMemory ∅ false Hnodup) as [Hout Hin].
  destruct (fold_left memoryEntry allMemory (∅, false)) as [cleaned' changes].
  cbn [fst] in *. destruct changes; [| discriminate]. intros [= <-].
  split.
  - intros jid Hnotin. now rewrite Hout.
  - intros jid memory Hmem. rewrite (Hin jid memory Hmem).
    pose proof (memoryEntry_same ∅ false jid memory) as Hsame. cbv zeta in Hsame.
    destruct ((memoryEntry (∅, false) (jid, memory)).1 !! jid) as [valid |].
    + destruct Hsame as [[Hold _] | Hnew]; [| exact Hnew].
      rewrite lookup_empty in Hold. discriminate.
    + apply Hsame.
Qed.

Lemma writtenEntries_clean (cleaned : gmap string (gmap string bool)) :
  (forall jid valid,
      cleaned !! jid = Some valid ->
      valid <> ∅ /\ forall key b, valid !! key = Some b -> b = true) ->
  Forall (fun entry => clean (entry.2)) (writtenEntries cleaned).
Proof.
  intros Hcleaned. unfold writtenEntries. apply Forall_fmap, Forall_forall.
  intros [jid valid] Hin. apply elem_of_map_to_list in Hin.
  destruct (Hcleaned jid valid Hin) as [Hne Htrue].
  cbn. right. split; [reflexivity |]. split.
  - intros Hnil. apply map_to_list_empty_iff in Hnil.
    apply fmap_empty_inv in Hnil. contradiction.
  - apply Forall_forall. intros [key value] Hentry.
    apply elem_of_map_to_list in Hentry. rewrite lookup_fmap in Hentry.
    destruct (valid !! key) as [b |] eqn:Hb; [| discriminate].
    cbn in Hentry. injection Hentry as <-. cbn. f_equal. eauto.
Qed.

(** X12. What the memory pass writes is clean: run on the written object,
    it writes nothing. *)
Theorem cleanupSenderKeyMemory_idempotent allMemory maxAge maxAge' cleaned :
  NoDup (map fst allMemory) ->
  cleanupSenderKeyMemory allMemory maxAge = Some cleaned ->
  cleanupSenderKeyMemory (writtenEntries cleaned) maxAge' = None.
Proof.
  intros Hnodup Hwritten.
  apply memoryPass_silent, writtenEntries_clean.
  intros jid valid Hvalid.
  assert (Hfold : forall entries start has changes,
             (forall key b, start !! key = Some b -> b = true) ->
             forall key b,
               (fold_left keepTrue entries (start, has, changes)).1.1 !! key = Some b ->
               b = true).
  { intros entries start has changes Hstart key [|] Hr; [reflexivity |].
    destruct (keepTrue_fold entries start has changes) as (_ & Hnofalse & _).
    apply Hnofalse in Hr. eauto. }
  revert Hwritten. unfold cleanupSenderKeyMemory.
  assert (Hinv : forall entries acc,
             (forall jid valid, acc.1 !! jid = Some valid ->
                 valid <> ∅ /\ forall key b, valid !! key = Some b -> b = true) ->
             forall jid valid,
               (fold_left memoryEntry entries acc).1 !! jid = Some valid ->
               valid <> ∅ /\ forall key b, valid !! key = Some b -> b = true).
  { clear. intros entries.
    induction entries as [| [jid0 memory0] entries IH]; intros acc Hacc;
      cbn [fold_left]; [exact Hacc |].
    apply IH. destruct acc as [cleaned0 changes0]. unfold memoryEntry.
    destruct (isObject memory0); [| now destruct memory0 as [[] |]].
    pose proof (keepTrue_fold (objectEntries memory0) ∅ false changes0)
      as (Hkept & Hnofalse & Hhas & _).
    destruct (fold_left keepTrue (objectEntries memory0) (∅, false, changes0))
      as [[valid0 has0] changes'].
    cbn [fst snd] in *. destruct has0; cbn [fst]; [| exact Hacc].
    intros jid valid. destruct (decide (jid0 = jid)) as [-> | Hne].
    - rewrite lookup_insert_eq. intros [= <-]. split.
      + destruct Hhas as [Hhas _]. destruct (Hhas eq_refl) as [? | [key Hin]];
          [discriminate |]. intros ->.
        assert (Hk : (∅ : gmap string bool) !! key = Some true)
          by (apply Hkept; now left).
        rewrite lookup_empty in Hk. discriminate.
      + intros key [|] Hb; [reflexivity |]. apply Hnofalse in Hb.
        rewrite lookup_empty in Hb. discriminate.
    - rewrite lookup_insert_ne by assumption. apply Hacc. }
  specialize (Hinv allMemory (∅, false)).
  destruct (fold_left memoryEntry allMemory (∅, false)) as [cleaned' changes].
  destruct changes; [| discriminate]. intros [= <-].
  apply (Hinv ltac:(intros ? ? H; cbn in H; rewrite lookup_empty in H; discriminate)
              jid valid Hvalid).
Qed.

(** X13. [cleanupSenderKeys] makes no store write exactly when the
    sender-key memory is clean and, in aggressive mode, every stored
    sender key is left alone under the given bound, or under the default
    of five when none is given.  Without the aggressive option the stored
    sender keys are not looked at. *)
Theorem cleanupSenderKeys_no_write allMemory allSenderKeys options :
  cleanupSenderKeys lib allMemory allSenderKeys options = []
  <-> Forall (fun entry => clean (entry.2)) allMemory
      /\ (aggressive options = Some true ->
          Forall (fun '(k, d) =>
                    untouched (default 5 (maxStatesPerGroup options)) d)
                 allSenderKeys).
Proof.
  unfold cleanupSenderKeys.
  rewrite <- (memoryPass_silent allMemory
                (default (24 * 60 * 60 * 1000) (maxMemoryAge options))).
  rewrite <- (corruptedPass_silent
                (default 5 (maxStatesPerGroup options)) allSenderKeys).
  change default_maxStatesPerGroup with 5.
  destruct (cleanupSenderKeyMemory allMemory _) as [cleaned |].
  - split; [discriminate | intros [? _]; discriminate].
  - cbn [app]. destruct (aggressive options) as [[|] |]; cbn [default].
    + destruct (cleanupCorruptedSenderKeys lib allSenderKeys _) as [patch |].
      * split; [discriminate |]. intros [_ Hkeys].
        specialize (Hkeys eq_refl). discriminate.
      * tauto.
    + split; [intros _ | reflexivity]. split; [reflexivity | discriminate].
    + split; [intros _ | reflexivity]. split; [reflexivity | discriminate].
Qed.

End CleanupPasses.

Section CleanupExamplesMore.
Import JS Cleanup CleanupMemory Scenario.

Lemma cleanupCorruptedSenderKeys_partial_witness :
  default ∅ (cleanupCorruptedSenderKeys jsonLib sevenStatesOneBroken 5)
    !! senderKeyName
  = Some (Some (String.list_byte_of_string "2,3,4,5,6,7")).
Proof.
  assert (Hnodup : NoDup (map fst sevenStatesOneBroken)).
  { apply NoDup_cons. split; [apply not_elem_of_nil | apply NoDup_nil_2]. }
  set (states := JObj (<["senderKeyId" := JNum 1]> ∅)
                 :: map (fun id => structureToJSON (structureWithId id))
                        [2; 3; 4; 5; 6; 7]).
  assert (Hin : (senderKeyName, JArr states) ∈ sevenStatesOneBroken)
    by apply list_elem_of_here.
  assert (Hsome : forallb stateLooksValid states = false)
    by (vm_compute; reflexivity).
  assert (Hany : existsb stateLooksValid states = true)
    by (vm_compute; reflexivity).
  exact (cleanupCorruptedSenderKeys_partial jsonLib 5 sevenStatesOneBroken
           senderKeyName (JArr states) states Hnodup Hin eq_refl eq_refl
           Hsome Hany).
Defined.

Lemma cleanupCorruptedSenderKeys_only_stored_witness :
  default ∅ (cleanupCorruptedSenderKeys jsonLib sevenStatesOneBroken 5)
    !! "other@g.us::me::0"
  = None.
Proof.
  apply (cleanupCorruptedSenderKeys_only_stored jsonLib 5 sevenStatesOneBroken).
  - apply NoDup_cons. split; [apply not_elem_of_nil | apply NoDup_nil_2].
  - intros d Hin. apply list_elem_of_singleton in Hin. discriminate Hin.
Defined.

Lemma memoryStore_NoDup : NoDup (map fst memoryStore).
Proof.
  cbn. repeat (apply NoDup_cons; split;
               [rewrite ?elem_of_cons, elem_of_nil; intros H;
                repeat destruct H as [H | H]; congruence |]).
  apply NoDup_nil_2.
Qed.

Lemma cleanupSenderKeyMemory_written_witness :
  exists cleaned,
    cleanupSenderKeyMemory memoryStore 0 = Some cleaned
    /\ cleaned !! "missing@g.us" = None.
Proof.
  eexists. split; [vm_compute; reflexivity |].
  refine (proj1 (cleanupSenderKeyMemory_written memoryStore 0 _
                   memoryStore_NoDup eq_refl) "missing@g.us" _).
  cbn. rewrite !elem_of_cons, elem_of_nil. intros H.
  repeat destruct H as [H | H]; congruence.
Defined.

Lemma cleanupSenderKeyMemory_idempotent_witness :
  exists cleaned,
    cleanupSenderKeyMemory memoryStore 0 = Some cleaned
    /\ cleanupSenderKeyMemory (writtenEntries cleaned) 0 = None.
Proof.
  eexists. split; [vm_compute; reflexivity |].
  exact (cleanupSenderKeyMemory_idempotent memoryStore 0 0 _
           memoryStore_NoDup eq_refl).
Defined.

End CleanupExamplesMore.

(* ===================================================================== *)
(** * Further properties of the message socket *)
(* ===================================================================== *)

Section Blocks.
Import JS MessagesSend BlockChunks Scenario ScenarioMore.












End Blocks.

Section MediaType.
Import JS MessagesSend.
Local Open Scope relay_scope.

Variable E : Env.

Lemma getMediaType_truthy message t :
  getMediaType message = Some t -> truthyStr (Some t) = true.
Proof.
  unfold getMediaType.
  repeat match goal with
         | |- context [if ?b then _ else _] => destruct b
         end; intros [= <-]; reflexivity.
Qed.

Lemma stampExtraAttrs_mediatype message extra st :
  forall value,
    match mediaTypeCache st !! messageHash message with
    | Some cached => cached
    | None => default "" (getMediaType message)
    end = value ->
    value <> "" ->
    exists stamped st',
      stampExtraAttrs E message extra st = Ok stamped st'
      /\ stamped !! "mediatype" = Some (Some value)
      /\ mediaTypeCache st' !! messageHash message = Some value.
Proof.
  intros value Hvalue Hne. unfold stampExtraAttrs.
  assert (Htruthy : truthyStr (Some value) = true).
  { cbn. destruct (String.eqb_spec value ""); [contradiction | reflexivity]. }
  assert (Hlookup : forall (a : gmap string (option string)) (b : bool),
            (if b then <["decrypt-fail" := Some "hide"]> (<["mediatype" := Some value]> a)
             else <["mediatype" := Some value]> a) !! "mediatype"
            = Some (Some value)).
  { intros a b. destruct b.
    - rewrite lookup_insert_ne by discriminate. apply lookup_insert_eq.
    - apply lookup_insert_eq. }
  unfold bind at 1, getState at 1. revert Hvalue.
  destruct (mediaTypeCache st !! messageHash message) as [cached |] eqn:Hcache.
  - intros ->. unfold bind, ret. rewrite Htruthy.
    eexists _, _. split; [reflexivity |]. split; [apply Hlookup | exact Hcache].
  - destruct (getMediaType message) as [t |]; simpl; intros Hvalue;
      [subst value | congruence].
    unfold bind, modify, ret. rewrite Htruthy.
    eexists _, _. split; [reflexivity |]. split; [apply Hlookup |].
    cbn [mediaTypeCache setMediaTypeCache]. apply lookup_insert_eq.
Qed.

(** X15. The media type is cached under the sorted field names of the
    message alone.  After a message whose media type is [t] has been
    stamped, a later message with the same field names is stamped with
    [t] as well, whatever its own media type is. *)
Theorem stampExtraAttrs_stale_mediatype message1 message2 extra1 extra2 t st :
  messageHash message1 = messageHash message2 ->
  mediaTypeCache st !! messageHash message1 = None ->
  getMediaType message1 = Some t ->
  exists stamped1 st1 stamped2 st2,
    stampExtraAttrs E message1 extra1 st = Ok stamped1 st1
    /\ stampExtraAttrs E message2 extra2 st1 = Ok stamped2 st2
    /\ stamped1 !! "mediatype" = Some (Some t)
    /\ stamped2 !! "mediatype" = Some (Some t).
Proof.
  intros Hhash Hfresh Ht.
  assert (Hne : t <> "").
  { apply getMediaType_truthy in Ht. cbn in Ht.
    destruct (String.eqb_spec t ""); [discriminate | assumption]. }
  destruct (stampExtraAttrs_mediatype message1 extra1 st t) as
    (stamped1 & st1 & Hrun1 & Hstamp1 & Hcached); [| assumption |].
  { now rewrite Hfresh, Ht. }
  destruct (stampExtraAttrs_mediatype message2 extra2 st1 t) as
    (stamped2 & st2 & Hrun2 & Hstamp2 & _); [| assumption |].
  { now rewrite <- Hhash, Hcached. }
  now exists stamped1, st1, stamped2, st2.
Qed.

End MediaType.

Section CacheSweep.
Import MessagesSend SocketMore.

(** X16. The hourly sweep empties the media-type cache when it holds
    more than 500 entries and the verified-session set when it holds more
    than 1000, and touches nothing else: afterwards each is either what it
    was, and within its bound, or empty. *)
Theorem clearCaches_bounds st :
  let st' := clearCaches st in
  ((500 < size (mediaTypeCache st))%nat -> mediaTypeCache st' = ∅)
  /\ ((size (mediaTypeCache st) <= 500)%nat -> mediaTypeCache st' = mediaTypeCache st)
  /\ ((1000 < size (verifiedSessionsCache st))%nat -> verifiedSessionsCache st' = ∅)
  /\ ((size (verifiedSessionsCache st) <= 1000)%nat
      -> verifiedSessionsCache st' = verifiedSessionsCache st)
  /\ (size (mediaTypeCache st') <= 500)%nat
  /\ (size (verifiedSessionsCache st') <= 1000)%nat
  /\ userDevicesCache st' = userDevicesCache st
  /\ (pendingMediaQueries st', mediaConn st', lastMediaConnRefresh st')
     = (pendingMediaQueries st, mediaConn st, lastMediaConnRefresh st)
  /\ (promiseCount st', settledPromises st') = (promiseCount st, settledPromises st)
  /\ (sessions st', senderKeyMemory st', trace st')
     = (sessions st, senderKeyMemory st, trace st).
Proof.
  destruct st as [udc mtc vsc pend conn last cnt settled sess mem tr].
  assert (Hmap : size (∅ : gmap (list string) string) = 0%nat)
    by apply map_size_empty.
  assert (Hset : size (∅ : gset string) = 0%nat) by apply size_empty.
  assert (Hif : forall (b : bool) (x y : State),
             verifiedSessionsCache x = vsc -> verifiedSessionsCache y = vsc ->
             verifiedSessionsCache (if b then x else y) = vsc)
    by (now intros [|]).
  unfold clearCaches. cbv zeta. rewrite Hif by reflexivity.
  cbn [mediaTypeCache verifiedSessionsCache].
  destruct (500 <? size mtc)%nat eqn:Hm;
    [apply Nat.ltb_lt in Hm | apply Nat.ltb_ge in Hm];
    (destruct (1000 <? size vsc)%nat eqn:Hv;
     [apply Nat.ltb_lt in Hv | apply Nat.ltb_ge in Hv]);
    cbv beta iota delta
      [setMediaTypeCache setVerifiedSessionsCache mediaTypeCache
       verifiedSessionsCache userDevicesCache pendingMediaQueries mediaConn
       lastMediaConnRefresh promiseCount settledPromises sessions
       senderKeyMemory trace];
    rewrite ?Hmap, ?Hset; repeat split; intros; try reflexivity; lia.
Qed.

End CacheSweep.

Section MediaConnLifecycle.
Import MessagesSend.

Variable E : Env.

(** X17. When the media-connection query succeeds, its promise resolves
    with the hosts, the auth token and the lifetime of the answer, and the
    time read by the call that started it becomes the refresh time: a
    later unforced call up to 60 seconds after that time is handed the
    same promise and makes no query. *)
Theorem refreshMediaConn_reuses_answer queryPromise now result mediaConnNode st later :
  mediaConn st = Some queryPromise ->
  getBinaryNodeChild result "media_conn" = Some mediaConnNode ->
  let st' := resultState (mediaConnSettled E queryPromise now (Some result) st) in
  pendingMediaQueries later = None ->
  mediaConn later = mediaConn st' ->
  lastMediaConnRefresh later = lastMediaConnRefresh st' ->
  dateNow E later - now <= 60000 ->
  (exists info,
      settledPromises st' !! queryPromise = Some (Some info)
      /\ auth info = attr "auth" (attrs mediaConnNode)
      /\ ttl info = toNumber E (attr "ttl" (attrs mediaConnNode))
      /\ length (hosts info) = length (getBinaryNodeChildren mediaConnNode "host"))
  /\ refreshMediaConn E false later = Ok (Some queryPromise) later.
Proof.
  intros Hconn Hnode st' Hpending Hsame Hlast Hsoon. subst st'.
  unfold mediaConnSettled in *. rewrite Hnode in *.
  cbn [resultState settledPromises mediaConn lastMediaConnRefresh
       setMediaConnState] in *.
  split.
  - eexists. split; [apply lookup_insert_eq |]. cbn. repeat split.
    now rewrite length_map.
  - unfold refreshMediaConn. rewrite Hpending, Hsame, Hconn, Hlast.
    change MEDIA_CONN_CHECK_INTERVAL with 60000.
    rewrite bool_decide_eq_true_2 by eauto. cbn [negb orb].
    destruct (Z.ltb_spec 60000 (dateNow E later - now)); [lia | reflexivity].
Qed.

(** X18. When the query fails, or its answer holds no [media_conn] node,
    the promise is rejected but stays the current one and the refresh
    time is not advanced: a later unforced call within 60 seconds of the
    previous refresh time is handed the rejected promise and makes no
    query. *)
Theorem refreshMediaConn_serves_rejection queryPromise now response st later :
  mediaConn st = Some queryPromise ->
  (forall result, response = Some result ->
                  getBinaryNodeChild result "media_conn" = None) ->
  let st' := resultState (mediaConnSettled E queryPromise now response st) in
  pendingMediaQueries later = None ->
  mediaConn later = mediaConn st' ->
  lastMediaConnRefresh later = lastMediaConnRefresh st' ->
  settledPromises later = settledPromises st' ->
  dateNow E later - lastMediaConnRefresh st <= 60000 ->
  lastMediaConnRefresh st' = lastMediaConnRefresh st
  /\ refreshMediaConn E false later = Ok (Some queryPromise) later
  /\ settledPromises later !! queryPromise = Some None.
Proof.
  intros Hconn Hfail st' Hpending Hsame Hlast Hsettled Hsoon. subst st'.
  assert (Hrun : mediaConnSettled E queryPromise now response st
                 = Ok tt (setMediaConnState None (mediaConn st)
                            (lastMediaConnRefresh st) (promiseCount st)
                            (<[queryPromise := None]> (settledPromises st)) st)).
  { unfold mediaConnSettled. destruct response as [result |]; [| reflexivity].
    now rewrite (Hfail result eq_refl). }
  rewrite Hrun in *.
  cbn [resultState settledPromises mediaConn lastMediaConnRefresh
       setMediaConnState] in *.
  split; [reflexivity |]. split.
  - unfold refreshMediaConn. rewrite Hpending, Hsame, Hconn, Hlast.
    change MEDIA_CONN_CHECK_INTERVAL with 60000.
    rewrite bool_decide_eq_true_2 by eauto. cbn [negb orb].
    destruct (Z.ltb_spec 60000 (dateNow E later - lastMediaConnRefresh st));
      [lia | reflexivity].
  - rewrite Hsettled. apply lookup_insert_eq.
Qed.

End MediaConnLifecycle.
Section ForcedSessions.
Import MessagesSend.
Local Open Scope relay_scope.

Variable E : Env.


Lemma dedupeFrom_subset l : forall seen x, x ∈ dedupeFrom seen l -> x ∈ l.
Proof.
  induction l as [| y l IH]; intros seen x; cbn [dedupeFrom]; [trivial |].
  destruct (inList y seen).
  - intros Hin. apply list_elem_of_further. eauto.
  - intros Hin. apply elem_of_cons in Hin as [-> | Hin];
      [apply list_elem_of_here | apply list_elem_of_further; eauto].
Qed.



End ForcedSessions.

Section DeviceCache.
Import MessagesSend ObservationsMore.
Local Open Scope relay_scope.

Variable E : Env.

Implicit Types (cache : gmap string (list JidWithDevice)).

Lemma groupByUser_fold extracted :
  forall cache u,
    fold_left
      (fun deviceMap item =>
         <[user item := (default [] (deviceMap !! user item) ++ [item])%list]> deviceMap)
      extracted cache !! u
    = match List.filter (fun d => String.eqb (user d) u) extracted with
      | [] => cache !! u
      | found => Some (default [] (cache !! u) ++ found)%list
      end.
Proof.
  induction extracted as [| item extracted IH]; intros cache u; cbn [fold_left];
    [reflexivity |].
  rewrite IH. cbn [List.filter].
  destruct (String.eqb_spec (user item) u) as [-> | Hne].
  - rewrite lookup_insert_eq.
    destruct (List.filter _ extracted); cbn [default]; unfold id;
      [reflexivity |].
    now rewrite <- app_assoc.
  - now rewrite lookup_insert_ne by assumption.
Qed.

(** The devices of a fetch are filed per user, in the order received. *)
Lemma groupByUser_lookup extracted u :
  groupByUser extracted !! u
  = match List.filter (fun d => String.eqb (user d) u) extracted with
    | [] => None
    | found => Some found
    end.
Proof.
  unfold groupByUser. rewrite groupByUser_fold, lookup_empty. reflexivity.
Qed.

Lemma groupByUser_consistent extracted : cacheConsistent (groupByUser extracted).
Proof.
  intros u devices. rewrite groupByUser_lookup.
  destruct (List.filter _ extracted) as [| d found] eqn:Hfilter; [discriminate |].
  intros [= <-]. apply List.Forall_forall. intros x Hx.
  rewrite <- Hfilter in Hx. apply List.filter_In in Hx as [_ Hx].
  now apply String.eqb_eq.
Qed.

(** The cache loop: every device it returns comes from a cached list, and
    nothing is left to fetch when every decodable user is cached. *)
Lemma splitCached_spec cache jids :
  let step :=
    fun '(deviceResults, toFetch) jid =>
      match jidDecode E jid with
      | Some decoded =>
          if String.eqb (jid_user decoded) "" then (deviceResults, toFetch)
          else
            match cache !! jid_user decoded with
            | Some devices => ((deviceResults ++ devices)%list, toFetch)
            | None => (deviceResults, (toFetch ++ [jidNormalizedUser E jid])%list)
            end
      | None => (deviceResults, toFetch)
      end in
  forall (acc : list JidWithDevice * list string),
    let r := fold_left step jids acc in
    (forall dev, dev ∈ r.1 ->
                 dev ∈ acc.1 \/ exists u devices, cache !! u = Some devices /\ dev ∈ devices)
    /\ ((forall jid decoded,
            jid ∈ jids -> jidDecode E jid = Some decoded -> jid_user decoded <> "" ->
            is_Some (cache !! jid_user decoded)) ->
        r.2 = acc.2).
Proof.
  intros step. induction jids as [| jid jids IH]; intros [deviceResults toFetch];
    cbn [fold_left].
  - cbn. split; [tauto | reflexivity].
  - destruct (IH (step (deviceResults, toFetch) jid)) as [Hfrom Hnone].
    cbv zeta. split.
    + intros dev Hdev. destruct (Hfrom dev Hdev) as [Hacc | Hcached]; [| now right].
      revert Hacc. subst step. cbn beta iota.
      destruct (jidDecode E jid) as [decoded |]; [| now left].
      destruct (String.eqb (jid_user decoded) ""); [now left |].
      destruct (cache !! jid_user decoded) as [devices |] eqn:Hcache; [| now left].
      cbn [fst]. intros Hin. apply elem_of_app in Hin as [Hin | Hin]; [now left |].
      right. now exists (jid_user decoded), devices.
    + intros Hall. rewrite Hnone.
      2: { intros jid' decoded Hin. apply Hall. now apply list_elem_of_further. }
      subst step. cbn beta iota.
      destruct (jidDecode E jid) as [decoded |] eqn:Hdecode; [| reflexivity].
      destruct (String.eqb_spec (jid_user decoded) "") as [| Huser]; [reflexivity |].
      destruct (Hall jid decoded (list_elem_of_here _ _) Hdecode Huser) as [devices Hc].
      now rewrite Hc.
Qed.

(** X20. The device cache is filled by user and read by user.  From a
    cache in which every list is filed under the user of its devices,
    a completed lookup with the cache enabled leaves such a cache; and if
    it returned at least one device for each requested user, the same
    lookup made again while the cache still holds these entries is served
    from the cache alone: no query, no state change. *)
Theorem getUSyncDevices_served_from_cache jids ignoreZeroDevices ignoreZeroDevices'
    st devices st1 st2 :
  cacheConsistent (userDevicesCache st) ->
  getUSyncDevices E jids true ignoreZeroDevices st = Ok devices st1 ->
  (forall jid decoded,
      jid ∈ jids -> jidDecode E jid = Some decoded -> jid_user decoded <> "" ->
      exists dev, dev ∈ devices /\ user dev = jid_user decoded) ->
  userDevicesCache st2 = userDevicesCache st1 ->
  cacheConsistent (userDevicesCache st1)
  /\ exists devices',
      getUSyncDevices E jids true ignoreZeroDevices' st2 = Ok devices' st2.
Proof.
  intros Hconsistent Hrun Hcovered Hsame.
  destruct jids as [| jid0 jids].
  { injection Hrun as <- <-. split; [assumption |]. now exists []. }
  set (requested := jid0 :: jids) in *.
  assert (Hsplit : forall cache,
             (forall jid decoded,
                 jid ∈ requested -> jidDecode E jid = Some decoded ->
                 jid_user decoded <> "" -> is_Some (cache !! jid_user decoded)) ->
             (splitCached E cache true (dedupe requested)).2 = []).
  { intros cache Hall.
    destruct (splitCached_spec cache (dedupe requested) ([], [])) as [_ Hnone].
    apply Hnone. intros jid decoded Hin. apply Hall.
    now apply (dedupeFrom_subset requested []). }
  assert (Hserved : forall cache,
             (forall jid decoded,
                 jid ∈ requested -> jidDecode E jid = Some decoded ->
                 jid_user decoded <> "" -> is_Some (cache !! jid_user decoded)) ->
             userDevicesCache st2 = cache ->
             exists devices',
               getUSyncDevices E requested true ignoreZeroDevices' st2
               = Ok devices' st2).
  { intros cache Hall Hcache. unfold getUSyncDevices. cbn [isNil requested].
    unfold bind at 1, getState at 1. rewrite Hcache.
    specialize (Hsplit cache Hall). fold requested.
    destruct (splitCached E cache true (dedupe requested)) as [deviceResults toFetch].
    cbn [snd] in Hsplit. subst toFetch. cbn [isNil]. now eexists. }
  revert Hrun. unfold getUSyncDevices. cbn [isNil requested]. fold requested.
  unfold bind at 1, getState at 1.
  destruct (splitCached_spec (userDevicesCache st) (dedupe requested) ([], []))
    as [Hfrom _].
  change (fold_left _ (dedupe requested) ([], []))
    with (splitCached E (userDevicesCache st) true (dedupe requested)) in Hfrom.
  destruct (splitCached E (userDevicesCache st) true (dedupe requested))
    as [deviceResults toFetch].
  cbn [fst] in Hfrom.
  assert (Hcached : forall dev,
             dev ∈ deviceResults -> is_Some (userDevicesCache st !! user dev)).
  { intros dev Hdev. destruct (Hfrom dev Hdev) as [Hnil | (u & l & Hu & Hin)].
    - now apply elem_of_nil in Hnil.
    - pose proof (Hconsistent u l Hu) as Hall.
      rewrite Forall_forall in Hall. rewrite (Hall dev Hin). eauto. }
  destruct (isNil toFetch).
  { intros [= <- <-]. split; [assumption |].
    apply (Hserved (userDevicesCache st)); [| assumption].
    intros jid decoded Hin Hdecode Huser.
    destruct (Hcovered jid decoded Hin Hdecode Huser) as (dev & Hdev & <-).
    now apply Hcached. }
  intros Hrun. apply bind_Ok in Hrun as ([] & sta & Hemit & Hrun).
  injection Hemit as <-.
  apply bind_Ok in Hrun as (result & stb & Hask & Hrun).
  apply ask_Ok in Hask as [_ ->].
  destruct result as [extracted |].
  - apply bind_Ok in Hrun as ([] & stc & Hmod & Hret).
    injection Hmod as <-. injection Hret as <- <-.
    cbn [userDevicesCache setUserDevicesCache setTrace] in *.
    split.
    + intros u l Hu. apply lookup_union_Some_raw in Hu as [Hu | [_ Hu]].
      * now apply (groupByUser_consistent extracted u).
      * now apply Hconsistent.
    + apply (Hserved (groupByUser extracted ∪ userDevicesCache st)); [| assumption].
      intros jid decoded Hin Hdecode Huser.
      destruct (Hcovered jid decoded Hin Hdecode Huser) as (dev & Hdev & <-).
      apply elem_of_app in Hdev as [Hdev | Hdev].
      * destruct (Hcached dev Hdev) as [l Hl].
        destruct (groupByUser extracted !! user dev) as [l' |] eqn:Hnew.
        -- exists l'. now apply lookup_union_Some_l.
        -- exists l. now rewrite lookup_union_r.
      * assert (Hnew : is_Some (groupByUser extracted !! user dev)).
        { rewrite groupByUser_lookup.
          destruct (List.filter _ extracted) as [| d found] eqn:Hfilter; [| eauto].
          exfalso. apply list_elem_of_In in Hdev.
          assert (Hin' : In dev (List.filter
                                   (fun d => String.eqb (user d) (user dev)) extracted)).
          { apply List.filter_In. split; [assumption | apply String.eqb_refl]. }
          now rewrite Hfilter in Hin'. }
        destruct Hnew as [l' Hl']. exists l'. now apply lookup_union_Some_l.
  - injection Hrun as <- <-. cbn [userDevicesCache setTrace] in *.
    split; [assumption |].
    apply (Hserved (userDevicesCache st)); [| assumption].
    intros jid decoded Hin Hdecode Huser.
    destruct (Hcovered jid decoded Hin Hdecode Huser) as (dev & Hdev & <-).
    now apply Hcached.
Qed.

End DeviceCache.

Section ParticipantNodes.
Import MessagesSend.
Local Open Scope relay_scope.

Variable E : Env.

(** The shape of one participant node. *)
Local Abbreviation nodeFor extraAttrs jid node :=
  (exists encAttrs ciphertext,
      node = Node "to" (<["jid" := Some jid]> ∅)
                  (Children [Node "enc" encAttrs (Data ciphertext)])
      /\ default ∅ extraAttrs ⊆ encAttrs
      /\ is_Some (encAttrs !! "v") /\ is_Some (encAttrs !! "type")).

Lemma encryptAll_spec (extraAttrs : option Attrs) data jids :
  forall st results st',
    mapM (fun jid =>
            do! emit (EEncrypt jid data) in
            let! '(type, ciphertext) := ask (fun st => encryptMessage E st jid data) in
            ret (String.eqb type "pkmsg",
                 Node "to" (<["jid" := Some jid]> ∅)
                      (Children
                         [Node "enc"
                               (default ∅ extraAttrs
                                  ∪ <["v" := Some "2"]> (<["type" := Some type]> ∅))
                               (Data ciphertext)])))
         jids st
    = Ok results st' ->
    trace st' = (trace st ++ map (fun jid => EEncrypt jid data) jids)%list
    /\ Forall2 (fun jid node => nodeFor extraAttrs jid node) jids (map snd results)
    /\ userDevicesCache st' = userDevicesCache st
    /\ verifiedSessionsCache st' = verifiedSessionsCache st
    /\ sessions st' = sessions st
    /\ senderKeyMemory st' = senderKeyMemory st.
Proof.
  assert (Hv2 : forall type : string,
             (<["v" := Some "2"]>
                (<["type" := Some type]> (∅ : gmap string (option string))))
               !! "v" = Some (Some "2"))
    by (intros; apply lookup_insert_eq).
  assert (Ht2 : forall type : string,
             (<["v" := Some "2"]>
                (<["type" := Some type]> (∅ : gmap string (option string))))
               !! "type" = Some (Some type)).
  { intros. rewrite lookup_insert_ne by discriminate. apply lookup_insert_eq. }
  induction jids as [| jid jids IH]; intros st results st' Hrun.
  - injection Hrun as <- <-. rewrite app_nil_r. repeat split. constructor.
  - cbn [mapM] in Hrun. apply bind_Ok in Hrun as ([pk node] & st1 & Hone & Hrun).
    apply bind_Ok in Hrun as (rest & st2 & Hrest & Hret).
    injection Hret as <- <-.
    apply bind_Ok in Hone as ([] & sta & Hemit & Hone). injection Hemit as <-.
    apply bind_Ok in Hone as ([type ciphertext] & stb & Hask & Hret).
    apply ask_Ok in Hask as [_ ->]. injection Hret as <- <- <-.
    destruct (IH _ _ _ Hrest) as (Htrace & Hnodes & Hc & Hv & Hs & Hm).
    rewrite Htrace, Hc, Hv, Hs, Hm. cbn [map trace setTrace]. split.
    { now rewrite <- app_assoc. }
    split; [| repeat split].
    constructor; [| exact Hnodes].
    eexists _, ciphertext. split; [reflexivity |]. split.
    + apply map_union_subseteq_l.
    + split.
      * destruct (default ∅ extraAttrs !! "v") as [v |] eqn:Hv0.
        -- exists v. now apply lookup_union_Some_l.
        -- exists (Some "2"). apply lookup_union_Some_raw. right.
           split; [assumption | apply Hv2].
      * destruct (default ∅ extraAttrs !! "type") as [v |] eqn:Ht0.
        -- exists v. now apply lookup_union_Some_l.
        -- exists (Some type). apply lookup_union_Some_raw. right.
           split; [assumption | apply Ht2].
Qed.

(** X21. A completed [createParticipantNodes] for a non-empty list hands
    the message and the whole list to the patch callback once, then
    encrypts the same encoded bytes once for each jid in the order given
    (a repeated jid is encrypted for again), and returns one [to] node
    per jid in that order, each holding one [enc] node that carries all
    the extra attributes.  Caches and key store are left as they were. *)
Theorem createParticipantNodes_shape jids message extraAttrs st nodes include st' :
  jids <> [] ->
  createParticipantNodes E jids message extraAttrs st = Ok (nodes, include) st' ->
  (exists data,
      effectsSince st st'
      = EPatchMessage message jids :: map (fun jid => EEncrypt jid data) jids)
  /\ Forall2 (fun jid node => nodeFor extraAttrs jid node) jids nodes
  /\ userDevicesCache st' = userDevicesCache st
  /\ verifiedSessionsCache st' = verifiedSessionsCache st
  /\ sessions st' = sessions st
  /\ senderKeyMemory st' = senderKeyMemory st.
Proof.
  intros Hne Hrun. unfold createParticipantNodes, callPatch, encryptForAll in Hrun.
  destruct jids as [| jid0 rest]; [congruence |]. cbn [isNil] in Hrun.
  apply bind_Ok in Hrun as ([] & st1 & Hemit & Hrun). injection Hemit as <-.
  apply bind_Ok in Hrun as (patched & st2 & Hask & Hrun).
  apply ask_Ok in Hask as [_ ->].
  apply bind_Ok in Hrun as (results & st3 & Hall & Hret).
  injection Hret as <- <- <-.
  apply callAll_Ok in Hall.
  apply encryptAll_spec in Hall as (Htrace & Hnodes & Hc & Hv & Hs & Hm).
  split; [| now repeat split].
  exists (encodeWAMessage E patched). apply effectsSince_app.
  rewrite Htrace. cbn [trace setTrace]. now rewrite <- app_assoc.
Qed.

End ParticipantNodes.
Section Stanzas.
Import JS MessagesSend Observations ObservationsMore RelayContext.
Local Open Scope relay_scope.

Variable E : Env.

Implicit Types (Q : BinaryNode -> Prop) (c : RelayCtx).











End Stanzas.
Section MessageId.
Import JS MessagesSend Observations.
Local Open Scope relay_scope.

Variable E : Env.

Lemma orGenerate_given msgId st :
  msgId <> "" -> orGenerate E (Some msgId) st = Ok msgId st.
Proof.
  intros Hne. unfold orGenerate.
  destruct (String.eqb_spec msgId ""); [contradiction | reflexivity].
Qed.

Lemma sendToParticipants_id c l devices senderKeyJids st id l' st' :
  ctx_msgId c <> "" ->
  sendToParticipants E c l devices senderKeyJids st = Ok (id, l') st' ->
  id = ctx_msgId c.
Proof.
  intros Hne. unfold sendToParticipants.
  destruct (isNil devices); intros Hrun.
  - apply bind_Ok in Hrun as (id' & st1 & Hid & Hret).
    rewrite orGenerate_given in Hid by assumption.
    injection Hid as <- <-. now injection Hret as <- _.
  - apply bind_Ok in Hrun as (l1 & st1 & _ & Hrun).
    apply bind_Ok in Hrun as (id' & st2 & Hid & Hret).
    rewrite orGenerate_given in Hid by assumption.
    injection Hid as <- <-. now injection Hret as <- _.
Qed.

(** X23. A completed [relayMessage] returns the message id it fixed at
    its start: the id given by the caller when that is a non-empty
    string, a generated one otherwise. *)
Theorem relayMessage_returns_id jid message o st id st' :
  relayMessage E jid message o st = Ok id st' ->
  exists msgId,
    orGenerate E (messageId o) st = Ok msgId st
    /\ (msgId <> "" -> id = msgId)
    /\ (forall given, messageId o = Some given -> given <> "" -> id = given).
Proof.
  unfold relayMessage. intros Hrun.
  apply bind_Ok in Hrun as (decoded & st1 & Hdecode & Hrun).
  apply ask_Ok in Hdecode as [_ ->].
  apply bind_Ok in Hrun as (msgId & st2 & Hid & Hrun).
  pose proof (orGenerate_Ok E _ _ _ _ Hid) as ->.
  assert (Hreturned : msgId <> "" -> id = msgId).
  { intros Hne. destruct (participant o) as [participantJid |].
    - apply bind_Ok in Hrun as (d & st3 & _ & Hrun).
      apply bind_Ok in Hrun as ([id' l'] & st4 & Hsend & Hret).
      injection Hret as <- _. now apply sendToParticipants_id in Hsend.
    - destruct (String.eqb (jid_server decoded) "g.us"
                || String.eqb jid "status@broadcast").
      + unfold relayToGroup in Hrun.
        apply bind_Ok in Hrun as (participantsList & st3 & _ & Hrun).
        destruct (exceeds (length participantsList) (participantBlockSize E)).
        * destruct (participantBlocks E participantsList) as [blocks |];
            [| discriminate].
          apply bind_Ok in Hrun as (senderKeyMap & st4 & _ & Hrun).
          apply bind_Ok in Hrun as ([map1 l1] & st5 & _ & Hrun).
          apply bind_Ok in Hrun as ([] & st6 & _ & Hret).
          now injection Hret as <- _.
        * apply bind_Ok in Hrun as (devices & st4 & _ & Hrun).
          apply bind_Ok in Hrun as (targets & st5 & _ & Hrun).
          apply bind_Ok in Hrun as ([id' l'] & st6 & Hsend & Hret).
          injection Hret as <- _. now apply sendToParticipants_id in Hsend.
      + unfold relayToUser in Hrun.
        apply bind_Ok in Hrun as (meDecoded & st3 & _ & Hrun).
        apply bind_Ok in Hrun as (devices & st4 & _ & Hrun).
        apply bind_Ok in Hrun as ([id' l'] & st5 & Hsend & Hret).
        injection Hret as <- _. now apply sendToParticipants_id in Hsend. }
  exists msgId. split; [assumption |]. split; [assumption |].
  intros given Hgiven Hne. rewrite Hgiven, orGenerate_given in Hid by assumption.
  injection Hid as <-. now apply Hreturned.
Qed.

End MessageId.

Section NoLookup.
Import JS MessagesSend Observations ObservationsMore RelayContext SocketMore.
Local Open Scope relay_scope.

Variable E : Env.

Local Abbreviation direct := (extends noLookup).

Local Ltac walk :=
  repeat first
    [ apply preserves_ret
    | apply preserves_throw
    | apply preserves_ask
    | apply preserves_consult
    | apply preserves_getState
    | apply preserves_orGenerate
    | apply preserves_modify; intros ?; reflexivity
    | apply preserves_emit; exact I
    | apply preserves_bind; [| intros ?]
    | apply preserves_forM; intros ? ? _
    | apply preserves_mapM; intros ? _
    | apply preserves_callAll; intros ? _
    | match goal with
      | |- preserves _ (if ?b then _ else _) => destruct b
      | |- preserves _ (match ?x with _ => _ end) => destruct x
      | |- preserves _ (let '(_, _) := ?x in _) => destruct x
      end ].

Lemma stampExtraAttrs_direct message extra :
  preserves direct (stampExtraAttrs E message extra).
Proof. unfold stampExtraAttrs. walk. Qed.

Lemma assertSessions_direct jids force :
  preserves direct (assertSessions E jids force).
Proof. unfold assertSessions, addVerified. walk. Qed.

Lemma encryptForAll_direct jids message extra :
  preserves direct (encryptForAll E jids message extra).
Proof. unfold encryptForAll. walk. Qed.

Lemma sendToParticipants_direct c l devices senderKeyJids :
  ctx_isGroup c || ctx_isStatus c = false ->
  preserves direct (sendToParticipants E c l devices senderKeyJids).
Proof.
  intros Hdirect. unfold sendToParticipants.
  destruct (isNil devices); [walk |].
  apply preserves_bind; [| intros l'; walk].
  apply transaction_footprint; [exact I | exact I |].
  apply preserves_bind.
  - unfold buildStanza. rewrite Hdirect.
    apply preserves_bind; [apply stampExtraAttrs_direct |]. intros extra.
    apply preserves_bind; [| intros [[content0 nodes] include]; walk].
    unfold directBranch.
    apply preserves_bind; [apply preserves_ask |]. intros meDecoded.
    apply preserves_bind; [apply preserves_ask |].
    intros [[allJids meJids] otherJids].
    apply preserves_bind; [apply assertSessions_direct |]. intros _.
    apply preserves_bind; [unfold callPatch; walk |]. intros _.
    apply preserves_bind; [unfold callPatch; walk |]. intros _.
    apply preserves_bind; [| intros [mine others]; walk].
    apply preserves_both;
      (match goal with
       | |- preserves _ (if ?b then _ else _) => destruct b
       end; [walk | apply encryptForAll_direct]).
  - intros [stanza l'].
    apply preserves_bind; [now apply sendNodeM_footprint |]. intros _. walk.
Qed.

Lemma relayMessage_direct jid message o st :
  (forall decoded, jidDecode E jid = Some decoded -> jid_server decoded <> "g.us") ->
  jid <> "status@broadcast" ->
  is_Some (participant o)
  \/ default ∅ (additionalAttributes o) !! "category" = Some (Some "peer") ->
  direct st (resultState (relayMessage E jid message o st)).
Proof.
  intros Hserver Hstatus Hcase. unfold relayMessage.
  apply extends_bind; [apply preserves_ask |]. intros decoded st1 Hdecode.
  apply ask_Ok in Hdecode as [Hdecode ->].
  apply preserves_bind; [apply preserves_orGenerate |]. intros msgId.
  assert (Hgroup : String.eqb (jid_server decoded) "g.us" = false).
  { apply String.eqb_neq. now apply Hserver. }
  assert (Hst : String.eqb jid "status@broadcast" = false)
    by now apply String.eqb_neq.
  rewrite Hgroup, Hst. cbn [negb andb orb].
  destruct (participant o) as [participantJid |].
  - apply preserves_bind; [apply preserves_ask |]. intros d.
    apply preserves_bind; [| intros [id l1]; apply preserves_ret].
    now apply sendToParticipants_direct.
  - destruct Hcase as [[? Hnone] | Hpeer]; [discriminate |].
    unfold relayToUser. cbn [ctx_additionalAttributes].
    rewrite (bool_decide_eq_true_2 _ Hpeer).
    apply preserves_bind; [apply preserves_ask |]. intros meDecoded.
    apply preserves_bind; [apply preserves_ret |]. intros devices.
    apply preserves_bind; [| intros [id l1]; apply preserves_ret].
    now apply sendToParticipants_direct.
Qed.

(** X24. A relay to a user (neither a group nor the status list) with a
    participant override, or in the [peer] category, makes no device
    lookup and no group metadata lookup, whether it completes or fails. *)
Theorem relayMessage_no_lookup jid message o st :
  (forall decoded, jidDecode E jid = Some decoded -> jid_server decoded <> "g.us") ->
  jid <> "status@broadcast" ->
  is_Some (participant o)
  \/ default ∅ (additionalAttributes o) !! "category" = Some (Some "peer") ->
  Forall noLookup (effectsSince st (resultState (relayMessage E jid message o st))).
Proof.
  intros Hserver Hstatus Hcase.
  pose proof (relayMessage_direct jid message o st Hserver Hstatus Hcase) as Hrun.
  now apply extends_effects in Hrun as [_ Hrun].
Qed.


End NoLookup.

Section Receipts.
Import JS MessagesSend Observations ObservationsMore SocketMore.
Local Open Scope relay_scope.

Variable E : Env.
Context {Key : Type}.
Variable aggregateMessageKeysNotFromMe :
  list Key -> list (string * option string * list string).

(** One call of [sendReceipt]: nothing for an empty id list, otherwise
    one stanza handed to the transport, whether or not the transport
    accepts it. *)
Lemma sendReceipt_effects jid participant messageIds type st :
  let st' := resultState (sendReceipt E jid participant messageIds type st) in
  match messageIds with
  | [] => st' = st
  | id0 :: rest =>
      trace st'
      = (trace st
           ++ [ESendNode (receiptNode E (pretty (unixTimestampSeconds E st))
                            jid participant id0 rest type)])%list
  end.
Proof.
  destruct messageIds as [| id0 rest]; [reflexivity |].
  cbn [sendReceipt]. unfold bind, getState, sendNodeM, bind, emit.
  destruct (sendNode E _ _); reflexivity.
Qed.

Lemma startAll_receipts type recps :
  forall st,
    exists stanzas,
      trace (resultState
               (startAll (map (fun '(jid, participant, messageIds) =>
                                 sendReceipt E jid participant messageIds type)
                              recps) st))
      = (trace st ++ map ESendNode stanzas)%list
      /\ length stanzas
         = length (List.filter (fun '(_, _, messageIds) => negb (isNil messageIds))
                               recps)
      /\ Forall (fun stanza =>
                   exists t jid participant id0 rest,
                     (jid, participant, id0 :: rest) ∈ recps
                     /\ stanza = receiptNode E t jid participant id0 rest type)
                stanzas.
Proof.
  induction recps as [| [[jid participant] messageIds] recps IH]; intros st.
  - exists []. cbn. rewrite app_nil_r. repeat split. constructor.
  - cbn [map startAll].
    pose proof (sendReceipt_effects jid participant messageIds type st) as Hone.
    cbv zeta in Hone.
    set (call := sendReceipt E jid participant messageIds type st) in *.
    assert (Hnext : exists stanzas,
               trace (resultState
                        (match call with
                         | Ok _ st' =>
                             startAll (map (fun '(jid, participant, messageIds) =>
                                              sendReceipt E jid participant messageIds type)
                                           recps) st'
                         | Throw st' =>
                             Throw (resultState
                                      (startAll
                                         (map (fun '(jid, participant, messageIds) =>
                                                 sendReceipt E jid participant
                                                             messageIds type)
                                              recps) st'))
                         end))
               = (trace (resultState call) ++ map ESendNode stanzas)%list
               /\ length stanzas
                  = length (List.filter
                              (fun '(_, _, messageIds) => negb (isNil messageIds)) recps)
               /\ Forall (fun stanza =>
                            exists t jid participant id0 rest,
                              (jid, participant, id0 :: rest) ∈ recps
                              /\ stanza = receiptNode E t jid participant id0 rest type)
                         stanzas).
    { destruct call as [[] st1 | st1]; cbn [resultState]; apply IH. }
    destruct Hnext as (stanzas & Htrace & Hlength & Hall).
    assert (Hweaken : Forall (fun stanza =>
                        exists t jid' participant' id0 rest,
                          (jid', participant', id0 :: rest)
                            ∈ (jid, participant, messageIds) :: recps
                          /\ stanza = receiptNode E t jid' participant' id0 rest type)
                      stanzas).
    { eapply Forall_impl; [exact Hall |].
      intros stanza (t & j & p & i & r & Hin & ->).
      exists t, j, p, i, r. split; [now apply list_elem_of_further | reflexivity]. }
    destruct messageIds as [| id0 rest].
    + exists stanzas. rewrite Htrace, Hone. cbn [List.filter isNil negb].
      now repeat split.
    + eexists (_ :: stanzas). rewrite Htrace, Hone. cbn [List.filter isNil negb length map].
      split; [now rewrite <- app_assoc |]. split; [now rewrite Hlength |].
      constructor; [| exact Hweaken].
      eexists _, jid, participant, id0, rest.
      split; [apply list_elem_of_here | reflexivity].
Qed.


(** X27. [readMessages] honours the privacy setting: unless the fetched
    [readreceipts] setting is [all], every receipt it sends has the type
    [read-self], and with [all] every one has the type [read]; each
    carries a timestamp.  It hands nothing else to the transport, and
    nothing at all when the settings cannot be fetched. *)
Theorem readMessages_receipt_type (fetchPrivacySettings : State -> option (option string))
    keys st :
  let st' :=
    resultState
      (readMessages E aggregateMessageKeysNotFromMe fetchPrivacySettings keys st) in
  exists stanzas,
    effectsSince st st' = map ESendNode stanzas
    /\ (fetchPrivacySettings st = None -> stanzas = [])
    /\ Forall (fun stanza =>
                 tag stanza = "receipt"
                 /\ is_Some (attrs stanza !! "t")
                 /\ attrs stanza !! "type"
                    = Some (Some (if bool_decide (fetchPrivacySettings st
                                                  = Some (Some "all"))
                                  then "read" else "read-self")))
              stanzas.
Proof.
  cbv zeta. unfold readMessages.
  destruct (isNil keys) eqn:Hkeys.
  { exists []. cbn [resultState ret]. rewrite effectsSince_refl.
    repeat split. constructor. }
  unfold bind, ask.
  destruct (fetchPrivacySettings st) as [readreceipts |].
  2: { exists []. cbn [resultState]. rewrite effectsSince_refl.
       repeat split. constructor. }
  set (readType := if bool_decide (readreceipts = Some "all")
                   then "read" else "read-self").
  unfold sendReceipts. rewrite Hkeys.
  destruct (startAll_receipts (Some readType)
              (aggregateMessageKeysNotFromMe keys) st)
    as (stanzas & Htrace & _ & Hall).
  exists stanzas. split; [now apply effectsSince_app |]. split; [discriminate |].
  eapply Forall_impl; [exact Hall |].
  intros stanza (t & jid & participant & id0 & rest & _ & ->).
  assert (Hsame : (if bool_decide (Some readreceipts = Some (Some "all"))
                   then "read" else "read-self") = readType).
  { subst readType.
    destruct (decide (readreceipts = Some "all")) as [-> | Hne].
    - now rewrite !bool_decide_eq_true_2.
    - rewrite !bool_decide_eq_false_2; [reflexivity | assumption | congruence]. }
  rewrite Hsame.
  pose proof (receiptNode_attrs E t jid participant id0 rest (Some readType))
    as (Htag & _ & Ht & _).
  assert (Htype : attrs (receiptNode E t jid participant id0 rest (Some readType))
                    !! "type" = Some (Some readType)).
  { unfold receiptNode. cbv zeta.
    assert (Htruthy : truthyStr (Some readType) = true)
      by (subst readType; now destruct (bool_decide _)).
    rewrite Htruthy.
    destruct (isNil rest); [| destruct rest]; cbn [attrs]; apply lookup_insert_eq. }
  split; [exact Htag |]. split; [| exact Htype].
  rewrite Ht. subst readType.
  destruct (bool_decide (readreceipts = Some "all")); cbn; eauto.
Qed.

End Receipts.
Section MarksBeforeDispatch.
Import JS MessagesSend Observations ObservationsMore RelayContext.
Local Open Scope relay_scope.

Variable E : Env.

(** The marking loop marks every device of its list, takes its targets
    from that list, and changes the map only when it finds a target. *)
Lemma markSenderKeyJids_all isLid devices :
  forall (targets0 : list string) (map0 : gmap string bool) targets map',
    fold_left
      (fun '((senderKeyJids, map) : list string * gmap string bool) d =>
         let deviceJid := jidEncode E (user d) (deviceServer isLid) (device d) in
         if negb (default false (map !! deviceJid))
         then ((senderKeyJids ++ [deviceJid])%list, <[deviceJid := true]> map)
         else (senderKeyJids, map))
      devices (targets0, map0)
    = (targets, map') ->
    (forall d, d ∈ devices ->
               map' !! jidEncode E (user d) (deviceServer isLid) (device d) = Some true)
    /\ (forall jid, jid ∈ targets ->
                    jid ∈ targets0
                    \/ jid ∈ map (fun d => jidEncode E (user d) (deviceServer isLid)
                                              (device d)) devices)
    /\ (forall jid, map0 !! jid = Some true -> map' !! jid = Some true)
    /\ (length targets0 <= length targets)%nat
    /\ (length targets = length targets0 -> map' = map0).
Proof.
  induction devices as [| d devices IH]; intros targets0 map0 targets map' Hfold.
  - injection Hfold as <- <-. split; [intros d Hd; now apply elem_of_nil in Hd |].
    split; [now left |]. split; [trivial |]. split; [lia | reflexivity].
  - cbn [fold_left] in Hfold.
    set (deviceJid := jidEncode E (user d) (deviceServer isLid) (device d)) in *.
    cbv zeta in Hfold.
    destruct (negb (default false (map0 !! deviceJid))) eqn:Hnew.
    + apply IH in Hfold as (Hall & Hfrom & Hmono & Hlen & _).
      assert (Hhead : map' !! deviceJid = Some true).
      { apply Hmono. apply lookup_insert_eq. }
      split.
      { intros d' Hd'. apply elem_of_cons in Hd' as [-> | Hd']; [exact Hhead | auto]. }
      split.
      { intros jid Hjid. destruct (Hfrom jid Hjid) as [Hold | Hrest].
        - apply elem_of_app in Hold as [Hold | Hold]; [now left |].
          apply list_elem_of_singleton in Hold as ->. right. apply list_elem_of_here.
        - right. cbn [map]. now apply list_elem_of_further. }
      split.
      { intros jid Hjid. apply Hmono.
        destruct (decide (deviceJid = jid)) as [<- | Hne];
          [apply lookup_insert_eq | now rewrite lookup_insert_ne]. }
      rewrite length_app in Hlen. cbn [length] in Hlen. split; lia.
    + apply IH in Hfold as (Hall & Hfrom & Hmono & Hlen & Hsame).
      assert (Hmarked : map0 !! deviceJid = Some true).
      { apply negb_false_iff in Hnew.
        destruct (map0 !! deviceJid) as [[|] |]; cbn in Hnew; congruence. }
      split.
      { intros d' Hd'. apply elem_of_cons in Hd' as [-> | Hd']; [| auto].
        now apply Hmono. }
      split.
      { intros jid Hjid. destruct (Hfrom jid Hjid) as [Hold | Hrest]; [now left |].
        right. cbn [map]. now apply list_elem_of_further. }
      split; [assumption |]. split; assumption.
Qed.

(** A failed dispatch leaves the key store as it was when the dispatch
    began. *)
Lemma sendToParticipants_Throw c l devices senderKeyJids st st' :
  sendToParticipants E c l devices senderKeyJids st = Throw st' ->
  senderKeyMemory st' = senderKeyMemory st /\ sessions st' = sessions st.
Proof.
  unfold sendToParticipants.
  destruct (isNil devices).
  - destruct (orGenerate_total E (Some (ctx_msgId c)) st) as [id Hid].
    rewrite (bind_run_Ok _ _ _ _ _ Hid). discriminate.
  - set (body := let! '(stanza, l') := buildStanza E c l devices senderKeyJids in
                 do! sendNodeM E stanza in ret l').
    destruct (transaction body st) as [l' st1 | st1] eqn:Htx.
    + rewrite (bind_run_Ok _ _ _ _ _ Htx).
      destruct (orGenerate_total E (Some (ctx_msgId c)) st1) as [id Hid].
      rewrite (bind_run_Ok _ _ _ _ _ Hid). discriminate.
    + rewrite (bind_run_Throw _ _ _ _ Htx). intros [= <-].
      unfold transaction in Htx.
      destruct (bind (emit ETransactionBegin) (fun _ => body) st); [discriminate |].
      injection Htx as <-. split; reflexivity.
Qed.

Local Abbreviation patching Q := (extends (relayEffect (fun _ => True) Q)).

Lemma patching_none {A} (Q : list string -> Prop) (m : M A) st :
  preserves (extends (bodyEffect (fun _ => True) (fun _ => False))) m ->
  patching Q st (resultState (m st)).
Proof.
  intros Hm. eapply extends_weaken; [| apply Hm].
  intros []; cbn; tauto.
Qed.

(** The unsplit group path: whatever the outcome, the devices handed to
    the patch callback are marked in the memory the relay leaves. *)
Lemma relayToGroup_unsplit_marked c l useCache statusJidList st :
  ctx_isGroup c = true -> ctx_isStatus c = false ->
  (forall participantsList st1,
      resolveParticipants E c statusJidList st = Ok participantsList st1 ->
      exceeds (length participantsList) (participantBlockSize E) = false) ->
  forall final,
    final = resultState (relayToGroup E c l useCache statusJidList st) ->
    patching (fun jids => forall d, d ∈ jids -> hasSenderKey final (ctx_jid c) d)
             st final.
Proof.
  intros Hgroup Hstatus Hfits final Hfinal.
  set (Q := fun jids : list string =>
              forall d, d ∈ jids -> hasSenderKey final (ctx_jid c) d).
  unfold relayToGroup in Hfinal.
  (* the participant list *)
  pose proof (resolveParticipants_footprint E (relayEffect (fun _ => True) Q)
                c statusJidList (fun _ _ => I) st) as F1.
  destruct (resolveParticipants E c statusJidList st)
    as [participantsList st1 | st1] eqn:H1; cbn [resultState] in F1.
  2: { rewrite (bind_run_Throw _ _ _ _ H1) in Hfinal. now subst final. }
  rewrite (bind_run_Ok _ _ _ _ _ H1) in Hfinal.
  specialize (Hfits participantsList st1 eq_refl).
  rewrite Hfits in Hfinal.
  (* the devices *)
  pose proof (patching_none Q _ st1
                (getUSyncDevices_footprint E _ _ participantsList useCache false))
    as F2.
  destruct (getUSyncDevices E participantsList useCache false st1)
    as [devices st2 | st2] eqn:H2; cbn [resultState] in F2.
  2: { rewrite (bind_run_Throw _ _ _ _ H2) in Hfinal. subst final.
       eapply extends_trans; eassumption. }
  rewrite (bind_run_Ok _ _ _ _ _ H2) in Hfinal.
  (* the marks *)
  rewrite Hstatus in Hfinal. cbn [negb] in Hfinal.
  set (marking :=
         let! senderKeyMap := keysGetSenderKeyMemory (ctx_jid c) in
         let '(senderKeyJids, senderKeyMap') :=
           markSenderKeyJids E (ctx_isLid c) senderKeyMap devices in
         do! (if negb (isNil senderKeyJids)
              then keysSetSenderKeyMemory (ctx_jid c) senderKeyMap'
              else ret tt) in
         ret senderKeyJids) in Hfinal.
  assert (F3 : patching Q st2 (resultState (marking st2))).
  { apply patching_none. subst marking.
    apply preserves_bind; [apply keysGetSenderKeyMemory_footprint |].
    intros senderKeyMap.
    destruct (markSenderKeyJids E (ctx_isLid c) senderKeyMap devices)
      as [senderKeyJids senderKeyMap'].
    apply preserves_bind; [| intros; apply preserves_ret].
    destruct (negb (isNil senderKeyJids));
      [apply keysSetSenderKeyMemory_footprint | apply preserves_ret]. }
  destruct (marking st2) as [targets st3 | st3] eqn:H3; cbn [resultState] in F3.
  2: { rewrite (bind_run_Throw _ _ _ _ H3) in Hfinal. subst final.
       eapply extends_trans; [eassumption |]. eapply extends_trans; eassumption. }
  rewrite (bind_run_Ok _ _ _ _ _ H3) in Hfinal.
  assert (Hmarks : (forall d, d ∈ devices ->
                      default ∅ (senderKeyMemory st3 !! ctx_jid c)
                        !! jidEncode E (user d) (deviceServer (ctx_isLid c)) (device d)
                      = Some true)
                   /\ forall jid, jid ∈ targets ->
                        jid ∈ map (fun d => jidEncode E (user d)
                                              (deviceServer (ctx_isLid c)) (device d))
                                  devices).
  { subst marking. apply bind_Ok in H3 as (senderKeyMap & sta & Hget & H3).
    apply keysGetSenderKeyMemory_Ok in Hget as (Hmap & Mget & _).
    destruct (markSenderKeyJids E (ctx_isLid c) senderKeyMap devices)
      as [senderKeyJids senderKeyMap'] eqn:Hmark.
    apply bind_Ok in H3 as ([] & stb & Hset & Hret). injection Hret as <- <-.
    apply markSenderKeyJids_all in Hmark as (Hall & Hfrom & _ & _ & Hsame).
    split.
    - destruct senderKeyJids as [| j0 rest]; cbn [isNil negb] in Hset.
      + injection Hset as <-. rewrite Mget, <- Hmap.
        rewrite <- (Hsame eq_refl). exact Hall.
      + apply keysSetSenderKeyMemory_Ok in Hset as [Mset _].
        rewrite Mset, lookup_insert_eq. exact Hall.
    - intros jid Hjid. destruct (Hfrom jid Hjid) as [Hnil | Hin]; [| exact Hin].
      now apply elem_of_nil in Hnil. }
  destruct Hmarks as [Hmarked Htargets].
  (* the dispatch *)
  set (deviceJids := map (fun d => jidEncode E (user d) (deviceServer (ctx_isLid c))
                                            (device d)) devices) in *.
  assert (Hboth : ctx_isGroup c || ctx_isStatus c = true) by now rewrite Hgroup.
  pose proof (sendToParticipants_footprint E (fun _ => True)
                (fun jids => forall d, d ∈ jids -> d ∈ deviceJids)
                c l devices targets
                (buildStanza_group_footprint E _ _ c l devices targets Hboth
                   (fun d Hd => Hd) (fun _ d Hd => Htargets d Hd) (fun _ _ => I))
                st3) as F4.
  assert (Hkept : default ∅ (senderKeyMemory final !! ctx_jid c)
                  = default ∅ (senderKeyMemory st3 !! ctx_jid c)).
  { destruct (sendToParticipants E c l devices targets st3)
      as [[id l'] st4 | st4] eqn:H4.
    - rewrite (bind_run_Ok _ _ _ _ _ H4) in Hfinal. cbn in Hfinal. subst final.
      apply (sendToParticipants_memory E c l devices targets st3 _ st4 Hboth Hstatus H4).
    - rewrite (bind_run_Throw _ _ _ _ H4) in Hfinal. cbn in Hfinal. subst final.
      apply sendToParticipants_Throw in H4 as [-> _]. reflexivity. }
  assert (F4' : patching Q st3 final).
  { assert (Hstate : final
                     = resultState (sendToParticipants E c l devices targets st3)).
    { rewrite Hfinal. unfold bind.
      now destruct (sendToParticipants E c l devices targets st3) as [[id l'] ? | ?]. }
    rewrite <- Hstate in F4. eapply extends_weaken; [| exact F4].
    intros e. apply relayEffect_weaken; [trivial |].
    intros jids Hjids d Hd. unfold hasSenderKey. rewrite Hkept.
    specialize (Hjids d Hd). subst deviceJids.
    apply list_elem_of_fmap in Hjids as (dev & -> & Hdev). now apply Hmarked. }
  eapply extends_trans; [exact F1 |]. eapply extends_trans; [exact F2 |].
  eapply extends_trans; [exact F3 | exact F4'].
Qed.

(** X28. In a relay to a group whose participants fit one block, the
    sender-key marks are written before the dispatch and outside its
    transaction, so they survive its failure: whether the relay completes
    or fails, every device jid that was handed to the patch callback is
    marked, in the memory the relay leaves, as having the sender key. *)
Theorem relayMessage_marks_survive_failure jid message o st decoded :
  jidDecode E jid = Some decoded ->
  jid_server decoded = "g.us" ->
  jid <> "status@broadcast" ->
  participant o = None ->
  (forall msgId participantsList st1,
      resolveParticipants E (contextOf E jid message o decoded msgId)
                          (statusJidList o) st
      = Ok participantsList st1 ->
      exceeds (length participantsList) (participantBlockSize E) = false) ->
  let st' := resultState (relayMessage E jid message o st) in
  Forall (fun e =>
            match e with
            | EPatchMessage _ jids => forall d, d ∈ jids -> hasSenderKey st' jid d
            | _ => True
            end)
         (effectsSince st st').
Proof.
  intros Hdecode Hserver Hstatus Hnone Hfits st'.
  destruct (orGenerate_total E (messageId o) st) as [msgId Hid].
  assert (Hrun : relayMessage E jid message o st
                 = relayToGroup E (contextOf E jid message o decoded msgId)
                     (mkRelayLocals false ∅)
                     (negb (bool_decide (useUserDevicesCache o = Some false)))
                     (statusJidList o) st).
  { unfold relayMessage.
    rewrite (bind_run_Ok _ _ st decoded st) by (unfold ask; now rewrite Hdecode).
    rewrite (bind_run_Ok _ _ _ _ _ Hid).
    rewrite Hnone, Hserver. cbn [String.eqb orb].
    unfold contextOf, destinationOf. rewrite Hnone, Hserver. reflexivity. }
  assert (Hst : String.eqb jid "status@broadcast" = false)
    by now apply String.eqb_neq.
  pose proof (relayToGroup_unsplit_marked
                (contextOf E jid message o decoded msgId) (mkRelayLocals false ∅)
                (negb (bool_decide (useUserDevicesCache o = Some false)))
                (statusJidList o) st) as Hmarked.
  cbn [contextOf ctx_isGroup ctx_isStatus ctx_jid] in Hmarked.
  rewrite Hserver in Hmarked.
  specialize (Hmarked eq_refl Hst (Hfits msgId) st').
  subst st'. rewrite Hrun in *. specialize (Hmarked eq_refl).
  apply extends_effects in Hmarked as [_ Hmarked].
  eapply Forall_impl; [exact Hmarked |].
  intros []; cbn; trivial.
Qed.

End MarksBeforeDispatch.
Section SocketExamplesMore.
Import JS MessagesSend Observations ObservationsMore RelayContext SocketMore.
Import Scenario ScenarioMore ScenarioMedia ScenarioRuns.

(** A plain video sent after a looping one is stamped as a gif. *)
Lemma stampExtraAttrs_stale_mediatype_witness :
  getMediaType videoMessage = Some "video"
  /\ exists stamped1 st1 stamped2 st2,
      stampExtraAttrs env gifMessage ∅ fresh = Ok stamped1 st1
      /\ stampExtraAttrs env videoMessage ∅ st1 = Ok stamped2 st2
      /\ stamped1 !! "mediatype" = Some (Some "gif")
      /\ stamped2 !! "mediatype" = Some (Some "gif").
Proof.
  split; [vm_compute; reflexivity |].
  apply (stampExtraAttrs_stale_mediatype env gifMessage videoMessage ∅ ∅ "gif" fresh);
    vm_compute; reflexivity.
Defined.

Lemma refreshMediaConn_reuses_answer_witness :
  refreshMediaConn env false afterAnswer = Ok (Some 0%nat) afterAnswer.
Proof.
  refine (proj2 (refreshMediaConn_reuses_answer env 0%nat (dateNow env fresh)
                   mediaConnAnswer _ afterRefresh afterAnswer
                   eq_refl eq_refl eq_refl eq_refl eq_refl _)).
  vm_compute. discriminate.
Defined.

Lemma refreshMediaConn_serves_rejection_witness :
  refreshMediaConn env false afterFailure = Ok (Some 1%nat) afterFailure
  /\ settledPromises afterFailure !! 1%nat = Some None.
Proof.
  refine (proj2 (refreshMediaConn_serves_rejection env 1%nat (dateNow env afterAnswer)
                   None afterForcedRefresh afterFailure
                   eq_refl _ eq_refl eq_refl eq_refl eq_refl _)).
  - intros result Hresult. discriminate Hresult.
  - vm_compute. discriminate.
Defined.


Lemma getUSyncDevices_served_from_cache_witness :
  exists devices',
    getUSyncDevices env ["ana@s.whatsapp.net"] true true afterDeviceLookup
    = Ok devices' afterDeviceLookup.
Proof.
  refine (proj2 (getUSyncDevices_served_from_cache env ["ana@s.whatsapp.net"]
                   false true fresh [mkDevice "ana" None] afterDeviceLookup
                   afterDeviceLookup _ _ _ eq_refl)).
  - intros u devices Hu. cbn in Hu. rewrite lookup_empty in Hu. discriminate.
  - vm_compute. reflexivity.
  - intros jid decoded Hin Hdecode _. apply list_elem_of_singleton in Hin as ->.
    vm_compute in Hdecode. injection Hdecode as <-.
    exists (mkDevice "ana" None). split; [apply list_elem_of_here | reflexivity].
Defined.

(** A jid listed twice is encrypted for twice. *)
Lemma createParticipantNodes_shape_witness :
  exists data,
    effectsSince fresh
      (resultState
         (createParticipantNodes env ["ana@s.whatsapp.net"; "ana@s.whatsapp.net"]
            textMessage None fresh))
    = [EPatchMessage textMessage ["ana@s.whatsapp.net"; "ana@s.whatsapp.net"];
       EEncrypt "ana@s.whatsapp.net" data; EEncrypt "ana@s.whatsapp.net" data].
Proof.
  destruct (createParticipantNodes env ["ana@s.whatsapp.net"; "ana@s.whatsapp.net"]
              textMessage None fresh) as [[nodes include] st' | st'] eqn:Hrun;
    [| vm_compute in Hrun; discriminate].
  refine (proj1 (createParticipantNodes_shape env _ _ _ _ _ _ _ _ Hrun)).
  discriminate.
Defined.

Lemma relayMessage_returns_id_witness :
  exists id st',
    relayMessage envDefaultBlocks "bob@s.whatsapp.net" textMessage noOptions fresh
    = Ok id st'
    /\ id = "MSG1".
Proof.
  destruct (relayMessage envDefaultBlocks "bob@s.whatsapp.net" textMessage noOptions
              fresh) as [id st' | st'] eqn:Hrun; [| vm_compute in Hrun; discriminate].
  exists id, st'. split; [reflexivity |].
  destruct (relayMessage_returns_id envDefaultBlocks _ _ _ _ _ _ Hrun)
    as (msgId & _ & _ & Hgiven).
  apply Hgiven; [reflexivity | discriminate].
Defined.

Lemma relayMessage_no_lookup_witness :
  Forall noLookup
    (effectsSince fresh
       (resultState
          (relayMessage env "bob@s.whatsapp.net" textMessage peerRelayOptions fresh))).
Proof.
  apply (relayMessage_no_lookup env "bob@s.whatsapp.net" textMessage
           peerRelayOptions fresh).
  - intros decoded Hdecode. vm_compute in Hdecode. injection Hdecode as <-.
    discriminate.
  - discriminate.
  - right. reflexivity.
Defined.

(** With the transport down the relay to the group fails, yet both
    members stay marked as having received the sender key. *)
Lemma relayMessage_marks_survive_failure_witness :
  relayMessage envOffline "family@g.us" textMessage noOptions fresh
  = Throw afterFailedRelay
  /\ In (EPatchMessage textMessage ["ana@s.whatsapp.net"; "bob@s.whatsapp.net"])
        (effectsSince fresh afterFailedRelay)
  /\ hasSenderKey afterFailedRelay "family@g.us" "ana@s.whatsapp.net"
  /\ Forall (fun e =>
               match e with
               | EPatchMessage _ jids =>
                   forall d, d ∈ jids -> hasSenderKey afterFailedRelay "family@g.us" d
               | _ => True
               end)
            (effectsSince fresh afterFailedRelay).
Proof.
  split; [vm_compute; reflexivity |]. split; [vm_compute; tauto |].
  split; [vm_compute; reflexivity |].
  apply (relayMessage_marks_survive_failure envOffline "family@g.us" textMessage
           noOptions fresh (mkFullJid "family" "g.us" None)).
  - reflexivity.
  - reflexivity.
  - discriminate.
  - reflexivity.
  - intros msgId participantsList st1 Hresolve. vm_compute in Hresolve.
    injection Hresolve as <- _. vm_compute. reflexivity.
Defined.

(** Both receipts are handed to a transport that rejects the first. *)
Lemma sendReceipts_offline_example :
  map tag
      (sentStanzas
         (effectsSince fresh
            (resultState
               (sendReceipts envOffline (fun keys => keys) receiptGroups
                             (Some "read") fresh))))
  = ["receipt"; "receipt"].
Proof. vm_compute. reflexivity. Qed.

End SocketExamplesMore.

Section StatusRelay.
Import JS MessagesSend Observations ObservationsMore RelayContext.
Local Open Scope relay_scope.

Variable E : Env.

Local Abbreviation noEncryption :=
  (extends (relayEffect (fun _ => False) (fun _ => True))).

Lemma quiet_noEncryption {A} (m : M A) :
  preserves (extends (bodyEffect (fun _ => False) (fun _ => True))) m ->
  preserves noEncryption m.
Proof. apply preserves_weaken. intros []; simpl; tauto. Qed.

(** The unsplit path for the status list: no sender-key target is
    computed, so nothing is encrypted for a device. *)
Lemma relayToGroup_status_unsplit c l useCache statusJidList st :
  ctx_isStatus c = true ->
  (forall participantsList st1,
      resolveParticipants E c statusJidList st = Ok participantsList st1 ->
      exceeds (length participantsList) (participantBlockSize E) = false) ->
  noEncryption st (resultState (relayToGroup E c l useCache statusJidList st)).
Proof.
  intros Hstatus Hfits. unfold relayToGroup.
  apply extends_bind.
  { apply resolveParticipants_footprint. intros; exact I. }
  intros participantsList st1 Hresolve.
  specialize (Hfits participantsList st1 Hresolve).
  rewrite Hfits.
  apply preserves_bind.
  { apply quiet_noEncryption, getUSyncDevices_footprint. }
  intros devices. rewrite Hstatus. cbn [negb].
  intros st2. apply extends_bind; [apply preserves_ret |].
  intros targets st3 [= <- <-]. revert st2.
  apply preserves_bind; [| intros [id l1]; apply preserves_ret].
  eapply preserves_weaken;
    [| apply (groupDispatch_footprint E c l devices []);
       rewrite Hstatus; apply orb_true_r].
  intros e. apply relayEffect_weaken; [| trivial].
  intros jid Hin. now apply elem_of_nil in Hin.
Qed.

(** X29. A relay to the status list whose recipients fit one block
    computes no sender-key target: whether it completes or fails, it
    makes no [encryptMessage] call at all, so the sender key is
    distributed to no device (the split path, by contrast, marks and
    targets every device). *)
Theorem relayMessage_status_unsplit_no_distribution message o st decoded :
  jidDecode E "status@broadcast" = Some decoded ->
  participant o = None ->
  (forall msgId participantsList st1,
      resolveParticipants E (contextOf E "status@broadcast" message o decoded msgId)
                          (statusJidList o) st
      = Ok participantsList st1 ->
      exceeds (length participantsList) (participantBlockSize E) = false) ->
  Forall (fun e => match e with EEncrypt _ _ => False | _ => True end)
         (effectsSince st
            (resultState (relayMessage E "status@broadcast" message o st))).
Proof.
  intros Hdecode Hnone Hfits.
  destruct (orGenerate_total E (messageId o) st) as [msgId Hid].
  assert (Hrun : relayMessage E "status@broadcast" message o st
                 = relayToGroup E (contextOf E "status@broadcast" message o decoded msgId)
                     (mkRelayLocals false ∅)
                     (negb (bool_decide (useUserDevicesCache o = Some false)))
                     (statusJidList o) st).
  { unfold relayMessage.
    rewrite (bind_run_Ok _ _ st decoded st) by (unfold ask; now rewrite Hdecode).
    rewrite (bind_run_Ok _ _ _ _ _ Hid).
    rewrite Hnone. cbn [String.eqb Ascii.eqb Bool.eqb]. rewrite orb_true_r.
    unfold contextOf, destinationOf. rewrite Hnone. reflexivity. }
  rewrite Hrun.
  pose proof (relayToGroup_status_unsplit
                (contextOf E "status@broadcast" message o decoded msgId)
                (mkRelayLocals false ∅)
                (negb (bool_decide (useUserDevicesCache o = Some false)))
                (statusJidList o) st eq_refl (Hfits msgId)) as Hquiet.
  apply extends_effects in Hquiet as [_ Hquiet].
  eapply Forall_impl; [exact Hquiet |].
  intros []; cbn; trivial.
Qed.

End StatusRelay.

Section StatusExamples.
Import JS MessagesSend Observations Scenario ScenarioMore ScenarioStatus.

(** A status update for two contacts in one block encrypts for no
    device; split into two blocks it encrypts for both. *)
Lemma relayMessage_status_unsplit_no_distribution_witness :
  List.filter (fun e => match e with EEncrypt _ _ => true | _ => false end)
              (effectsSince fresh
                 (resultState
                    (relayMessage env "status@broadcast" textMessage statusOptions
                                  fresh)))
  = [EEncrypt "ana@s.whatsapp.net" []; EEncrypt "bob@s.whatsapp.net" []]
  /\ Forall (fun e => match e with EEncrypt _ _ => False | _ => True end)
            (effectsSince fresh
               (resultState
                  (relayMessage envDefaultBlocks "status@broadcast" textMessage
                                statusOptions fresh))).
Proof.
  split; [vm_compute; reflexivity |].
  apply (relayMessage_status_unsplit_no_distribution envDefaultBlocks textMessage
           statusOptions fresh (mkFullJid "status" "broadcast" None)).
  - reflexivity.
  - reflexivity.
  - intros msgId participantsList st1 Hresolve. vm_compute in Hresolve.
    injection Hresolve as <- _. vm_compute. reflexivity.
Defined.

End StatusExamples.
